(** * SWOT strategy mission: the match engine of [App.tsx]

    A shallow embedding of the game handlers of [UserGameView]
    (strategy submission, READY evaluation, fold, call, steal, showdown and
    result confirmation) and the properties of the chip economy and of the
    round state machine that follow from them; then the match as a whole
    under the moves of its two teams, the strategy editor, the dashboard,
    the match maker and the room list of [App]; and last what every room
    reached by play keeps true of its match. *)

From Stdlib Require Import ZArith QArith Qcanon Lia.
From stdpp Require Import base numbers option list strings gmap sorting pretty.

Local Open Scope Z_scope.

(** ** Data model *)

(** Modelled from the spec: [types.ts] is not part of the sources.  The
    constants and the record fields below are those the handlers read and
    write, with the values the specification gives (ten rounds, thirty
    chips, the cards 0 to 9). *)
Definition TOTAL_ROUNDS : Z := 10.
Definition TOTAL_CHIPS : Z := 30.
Definition CARDS : list Z := [0; 1; 2; 3; 4; 5; 6; 7; 8; 9].

(** A JavaScript [number] is kept as an integer wherever the handlers only
    add, subtract and compare integers (cards, chips, rounds, pot, carry
    over); [winnings] receives [carryOver / 2] and is a rational. *)
Record RoundStrategy := mkRoundStrategy {
  round : Z;
  card : Z;
  chips : Z
}.

Record Team := mkTeam {
  t_id : string;
  name : string;
  isReady : bool;
  winnings : Qc;
  members : list string;
  strategy : option (list RoundStrategy)
}.

Inductive RoundStatus := READY | DECISION | SHOWDOWN | RESULT | FINISHED.
Inductive ResultCode := A_WON | B_WON | DRAW | A_FOLDED | B_FOLDED.
Inductive ActionKind := FOLD | CALL.
Inductive RoomStatus := PREPARING | PLAYING | ROOM_FINISHED.

Record RoundResult := mkRoundResult {
  r_round : Z;
  teamACard : Z;
  teamBCard : Z;
  teamAChips : Z;
  teamBChips : Z;
  result : ResultCode;
  potWon : Z
}.

Record Match := mkMatch {
  m_id : string;
  teamAId : string;
  teamBId : string;
  teamAScore : Z;
  teamBScore : Z;
  currentRound : Z;
  roundStatus : RoundStatus;
  turnOwner : option string;
  pot : Z;
  carryOver : Z;
  history : list RoundResult;
  aiHelps : gmap string Z;
  lastRoundResult : option RoundResult;
  resultConfirmed : gmap string bool;
  lastAction : option (string * ActionKind)
}.

Record Room := mkRoom {
  r_id : string;
  status : RoomStatus;
  teams : list Team;
  matches : list Match
}.

Global Instance RoundStatus_eq_dec : EqDecision RoundStatus.
Proof. solve_decision. Defined.
Global Instance ResultCode_eq_dec : EqDecision ResultCode.
Proof. solve_decision. Defined.
Global Instance RoomStatus_eq_dec : EqDecision RoomStatus.
Proof. solve_decision. Defined.

(** [arr[i]] for a JavaScript index: [undefined] below 0 and past the end. *)
Definition at_index {A} (l : list A) (i : Z) : option A :=
  if decide (0 ≤ i) then l !! Z.to_nat i else None.

(** [team.strategy![i]]: reading an index of an absent strategy throws, a
    missing entry is [undefined] and its first field access throws; both are
    [None]. *)
Definition strat_at (t : Team) (i : Z) : option RoundStrategy :=
  s ← strategy t; at_index s i.

(** [room.teams.find(t => t.id === i)] *)
Definition find_team (ts : list Team) (i : string) : option Team :=
  snd <$> list_find (λ t, t_id t = i) ts.

(** [room.teams.map(t => t.id === i ? u : t)] *)
Definition replace_team (i : string) (u : Team) (ts : list Team) : list Team :=
  (λ t, if decide (t_id t = i) then u else t) <$> ts.

(** [{ ...t, winnings: w }] and [{ ...t, winnings: w, strategy: s }] *)
Definition with_winnings (t : Team) (w : Qc) : Team :=
  mkTeam (t_id t) (name t) (isReady t) w (members t) (strategy t).
Definition with_winnings_strategy (t : Team) (w : Qc) (s : list RoundStrategy) : Team :=
  mkTeam (t_id t) (name t) (isReady t) w (members t) (Some s).
(** [{ ...t, isReady: true, strategy }] *)
Definition with_ready_strategy (t : Team) (s : list RoundStrategy) : Team :=
  mkTeam (t_id t) (name t) true (winnings t) (members t) (Some s).
(** [{ ...s, chips: c }] and [{ ...s, card: c }] *)
Definition with_chips (s : RoundStrategy) (c : Z) : RoundStrategy :=
  mkRoundStrategy (round s) (card s) c.
Definition with_card (s : RoundStrategy) (c : Z) : RoundStrategy :=
  mkRoundStrategy (round s) c (chips s).

(** ** Partial updates of a match

    [updateMatchState] and [updateTeamsAndMatch] take a [Partial<Match>]
    object literal and spread it over the current match.  The literal is a
    list of field assignments, applied in order. *)
Inductive FieldUpdate :=
| SetCurrentRound (z : Z)
| SetRoundStatus (s : RoundStatus)
| SetTurnOwner (o : option string)
| SetPot (z : Z)
| SetCarryOver (z : Z)
| SetTeamAScore (z : Z)
| SetTeamBScore (z : Z)
| SetHistory (h : list RoundResult)
| SetLastRoundResult (r : option RoundResult)
| SetResultConfirmed (c : gmap string bool)
| SetLastAction (a : option (string * ActionKind)).

Definition assign (m : Match) (u : FieldUpdate) : Match :=
  let '(mkMatch i a b sa sb cr rs to p co h ai lr rc la) := m in
  match u with
  | SetCurrentRound z => mkMatch i a b sa sb z rs to p co h ai lr rc la
  | SetRoundStatus s => mkMatch i a b sa sb cr s to p co h ai lr rc la
  | SetTurnOwner o => mkMatch i a b sa sb cr rs o p co h ai lr rc la
  | SetPot z => mkMatch i a b sa sb cr rs to z co h ai lr rc la
  | SetCarryOver z => mkMatch i a b sa sb cr rs to p z h ai lr rc la
  | SetTeamAScore z => mkMatch i a b z sb cr rs to p co h ai lr rc la
  | SetTeamBScore z => mkMatch i a b sa z cr rs to p co h ai lr rc la
  | SetHistory h' => mkMatch i a b sa sb cr rs to p co h' ai lr rc la
  | SetLastRoundResult r => mkMatch i a b sa sb cr rs to p co h ai r rc la
  | SetResultConfirmed c => mkMatch i a b sa sb cr rs to p co h ai lr c la
  | SetLastAction x => mkMatch i a b sa sb cr rs to p co h ai lr rc x
  end.

(** [{ ...myMatch, ...updates }] *)
Definition spread (m : Match) (updates : list FieldUpdate) : Match :=
  foldl assign m updates.

(** ** The view of one team

    [UserGameView] is rendered for one team with the room as a prop; its
    [useState] cells are the strategy being edited, the chips a call is
    short of, the two modal flags and the scratch strategy of the steal
    modal.  [alerts] records the [alert] calls. *)
Inductive Alert :=
| AlertCards
| AlertChips (remaining : Z)
| AlertAIFailed.

Record View := mkView {
  room : Room;
  teamId : string;
  isAdminMode : bool;
  st_strategy : list RoundStrategy;
  neededChips : Qc;
  submitConfirmOpen : bool;
  stealModalOpen : bool;
  tempStrategy : list RoundStrategy;
  alerts : list Alert
}.

Definition team (v : View) : option Team :=
  find_team (teams (room v)) (teamId v).

Definition myMatchEntry (v : View) : option (nat * Match) :=
  list_find (λ m, teamAId m = teamId v ∨ teamBId m = teamId v) (matches (room v)).
Definition myMatch (v : View) : option Match := snd <$> myMatchEntry v.

Definition isTeamA (v : View) (m : Match) : bool :=
  bool_decide (teamAId m = teamId v).
Definition opponentId (v : View) (m : Match) : string :=
  if isTeamA v m then teamBId m else teamAId m.
Definition opponentTeam (v : View) : option Team :=
  m ← myMatch v; find_team (teams (room v)) (opponentId v m).

(** [myMatch?.turnOwner === teamId] *)
Definition isMyTurn (v : View) : bool :=
  match myMatch v with
  | Some m => bool_decide (turnOwner m = Some (teamId v))
  | None => false
  end.

(** The effect on [team]: a stored strategy of full length replaces the
    one being edited. *)
Definition syncStrategy (v : View) : View :=
  match team v with
  | Some t =>
      match strategy t with
      | Some s =>
          if decide (Z.of_nat (length s) = TOTAL_ROUNDS)
          then mkView (room v) (teamId v) (isAdminMode v) s (neededChips v)
                 (submitConfirmOpen v) (stealModalOpen v) (tempStrategy v) (alerts v)
          else v
      | None => v
      end
  | None => v
  end.

(** [onUpdate(r)]: the parent stores the room and renders the view again
    with it. *)
Definition onUpdate (v : View) (r : Room) : View :=
  syncStrategy
    (mkView r (teamId v) (isAdminMode v) (st_strategy v) (neededChips v)
       (submitConfirmOpen v) (stealModalOpen v) (tempStrategy v) (alerts v)).

Definition updateMatchState (v : View) (updates : list FieldUpdate) : option View :=
  '(idx, m) ← myMatchEntry v;
  Some (onUpdate v (mkRoom (r_id (room v)) (status (room v)) (teams (room v))
                      (<[idx := spread m updates]> (matches (room v))))).

Definition updateTeamsAndMatch (v : View) (updatedTeams : list Team)
    (matchUpdates : list FieldUpdate) : option View :=
  '(idx, m) ← myMatchEntry v;
  Some (onUpdate v (mkRoom (r_id (room v)) (status (room v)) updatedTeams
                      (<[idx := spread m matchUpdates]> (matches (room v))))).

(** State setters of the view: each keeps the room and the other cells. *)
Definition setStrategy (v : View) (s : list RoundStrategy) : View :=
  mkView (room v) (teamId v) (isAdminMode v) s (neededChips v)
    (submitConfirmOpen v) (stealModalOpen v) (tempStrategy v) (alerts v).
Definition setNeededChips (v : View) (n : Qc) : View :=
  mkView (room v) (teamId v) (isAdminMode v) (st_strategy v) n
    (submitConfirmOpen v) (stealModalOpen v) (tempStrategy v) (alerts v).
Definition setSubmitConfirmOpen (v : View) (b : bool) : View :=
  mkView (room v) (teamId v) (isAdminMode v) (st_strategy v) (neededChips v)
    b (stealModalOpen v) (tempStrategy v) (alerts v).
Definition setStealModalOpen (v : View) (b : bool) : View :=
  mkView (room v) (teamId v) (isAdminMode v) (st_strategy v) (neededChips v)
    (submitConfirmOpen v) b (tempStrategy v) (alerts v).
Definition setTempStrategy (v : View) (s : list RoundStrategy) : View :=
  mkView (room v) (teamId v) (isAdminMode v) (st_strategy v) (neededChips v)
    (submitConfirmOpen v) (stealModalOpen v) s (alerts v).
Definition alert (v : View) (a : Alert) : View :=
  mkView (room v) (teamId v) (isAdminMode v) (st_strategy v) (neededChips v)
    (submitConfirmOpen v) (stealModalOpen v) (tempStrategy v) (alerts v ++ [a]).

(** ** Strategy submission *)

(** [strategy.reduce((acc, s) => acc + s.chips, 0)] *)
Definition sum_chips (s : list RoundStrategy) : Z :=
  foldl (λ acc x, acc + chips x) 0 s.
Definition usedChips (v : View) : Z := sum_chips (st_strategy v).
Definition remainingChips (v : View) : Z := TOTAL_CHIPS - usedChips v.
(** [strategy.map(s => s.card).filter(c => c !== -1)] *)
Definition used_cards (s : list RoundStrategy) : list Z :=
  filter (λ c, c ≠ -1) (card <$> s).
Definition usedCards (v : View) : list Z := used_cards (st_strategy v).

Definition confirmSubmit (v : View) : View :=
  let updatedTeams :=
    (λ t, if decide (t_id t = teamId v)
          then with_ready_strategy t (st_strategy v) else t) <$> teams (room v) in
  setSubmitConfirmOpen
    (onUpdate v (mkRoom (r_id (room v)) (status (room v)) updatedTeams (matches (room v))))
    false.

Definition handleSubmitStrategy (v : View) : View :=
  if negb (isAdminMode v) then
    if decide (Z.of_nat (length (usedCards v)) ≠ 10) then alert v AlertCards
    else if decide (remainingChips v ≠ 0) then alert v (AlertChips (remainingChips v))
    else setSubmitConfirmOpen v true
  else confirmSubmit v.

(** The YES button of the confirmation modal, which is rendered while
    [submitConfirmOpen] holds. *)
Definition clickSubmitYes (v : View) : View :=
  if submitConfirmOpen v then confirmSubmit v else v.

(** ** READY evaluation

    The body of the effect that watches the round status, with its timer
    fired.  [None] is a thrown [TypeError]. *)
Definition readyEffect (v : View) : option View :=
  if decide (status (room v) ≠ PLAYING) then Some v else
  match myMatch v, team v, opponentTeam v with
  | Some m, Some t, Some opp =>
      if negb (isTeamA v m) then Some v else
      ms ← strategy t; os ← strategy opp;
      if decide (roundStatus m = READY) then
        myStrat ← at_index ms (currentRound m - 1);
        oppStrat ← at_index os (currentRound m - 1);
        if decide (chips myStrat = chips oppStrat) then
          updateMatchState v [SetRoundStatus SHOWDOWN]
        else
          let fewerChipsTeamId :=
            if decide (chips myStrat < chips oppStrat) then t_id t else t_id opp in
          updateMatchState v [SetRoundStatus DECISION; SetTurnOwner (Some fewerChipsTeamId)]
      else Some v
  | _, _, _ => Some v
  end.

(** ** Fold *)
Definition handleFold (v : View) : option View :=
  if negb (isMyTurn v) then Some v else
  m ← myMatch v;
  let currentRound := currentRound m in
  t ← team v;
  myStrat ← strat_at t (currentRound - 1);
  opp ← opponentTeam v;
  oppStrat ← strat_at opp (currentRound - 1);
  let pot := chips myStrat + chips oppStrat + carryOver m in
  let updatedOpponent := with_winnings opp (winnings opp + Qc_of_Z pot)%Qc in
  let historyItem :=
    mkRoundResult currentRound
      (if isTeamA v m then card myStrat else card oppStrat)
      (if isTeamA v m then card oppStrat else card myStrat)
      (if isTeamA v m then chips myStrat else chips oppStrat)
      (if isTeamA v m then chips oppStrat else chips myStrat)
      (if isTeamA v m then A_FOLDED else B_FOLDED)
      pot in
  let updatedTeams := replace_team (t_id opp) updatedOpponent (teams (room v)) in
  updateTeamsAndMatch v updatedTeams
    [SetRoundStatus RESULT; SetTurnOwner None;
     SetLastAction (Some (teamId v, FOLD));
     SetLastRoundResult (Some historyItem);
     SetResultConfirmed ∅;
     SetHistory (history m ++ [historyItem])].

(** ** Call *)

(** [strategy.map((s, i) => i === idx ? { ...s, chips: s.chips + diff } : s)] *)
Definition add_chips_at (s : list RoundStrategy) (idx diff : Z) : list RoundStrategy :=
  imap (λ i x, if decide (Z.of_nat i = idx) then with_chips x (chips x + diff) else x) s.

Definition handleCall (v : View) : option View :=
  if negb (isMyTurn v) then Some v else
  m ← myMatch v;
  let currentRound := currentRound m in
  t ← team v;
  myStrat ← strat_at t (currentRound - 1);
  opp ← opponentTeam v;
  oppStrat ← strat_at opp (currentRound - 1);
  let diff := chips oppStrat - chips myStrat in
  let winnings := winnings t in
  if decide (Qc_of_Z diff ≤ winnings)%Qc then
    s ← strategy t;
    let updatedTeam :=
      with_winnings_strategy t (winnings - Qc_of_Z diff)%Qc
        (add_chips_at s (currentRound - 1) diff) in
    let updatedTeams := replace_team (teamId v) updatedTeam (teams (room v)) in
    updateTeamsAndMatch v updatedTeams
      [SetRoundStatus SHOWDOWN; SetTurnOwner None;
       SetLastAction (Some (teamId v, CALL))]
  else
    s ← strategy t;
    Some (setStealModalOpen
            (setTempStrategy (setNeededChips v (Qc_of_Z diff - winnings)%Qc) s)
            true).

(** ** Steal from future rounds *)

(** The sum both [adjustTempChips] and [calculateStolenAmount] take with
    [team.strategy.forEach((s, i) => ...)]: over the indices [i >=
    currentRound] at which the scratch strategy has an entry, the chips
    the entry is short of the stored one.  [i] is the index of the head. *)
Fixpoint stolenAmount (currentRound i : Z) (orig temp : list RoundStrategy) : Z :=
  match orig, temp with
  | s :: orig', t :: temp' =>
      (if decide (currentRound ≤ i) then chips s - chips t else 0)
      + stolenAmount currentRound (i + 1) orig' temp'
  | _, _ => 0
  end.

Definition adjustTempChips (v : View) (roundIdx delta : Z) : option View :=
  let prev := tempStrategy v in
  entry ← at_index prev roundIdx;
  let current := chips entry in
  let newVal := current + delta in
  if decide (newVal < 1) then Some v else
  let next := <[Z.to_nat roundIdx := with_chips entry newVal]> prev in
  if decide (delta < 0) then
    t ← team v; s ← strategy t;
    (* [myMatch.currentRound] is read in the loop body only *)
    wouldSteal ← match s with
                 | [] => Some 0
                 | _ => m ← myMatch v; Some (stolenAmount (currentRound m) 0 s next)
                 end;
    if decide (neededChips v < Qc_of_Z wouldSteal)%Qc then Some v
    else Some (setTempStrategy v next)
  else Some (setTempStrategy v next).

(** [calculateStolenAmount()] *)
Definition calculateStolenAmount (v : View) : Z :=
  match team v, myMatch v with
  | Some t, Some m =>
      match strategy t with
      | Some s =>
          if decide (length (tempStrategy v) = 0%nat) then 0
          else stolenAmount (currentRound m) 0 s (tempStrategy v)
      | None => 0
      end
  | _, _ => 0
  end.
Definition currentStolen (v : View) : Z := calculateStolenAmount v.
Definition canConfirmSteal (v : View) : bool :=
  bool_decide (neededChips v ≤ Qc_of_Z (currentStolen v))%Qc.

(** The loop of [confirmSteal] over [team.strategy]: it reads
    [tempStrategy[i].chips] at every index past the current one and throws
    where the scratch strategy has no entry. *)
Fixpoint stolenTotal (currentRoundIdx i : Z) (orig temp : list RoundStrategy) : option Z :=
  match orig with
  | [] => Some 0
  | s :: orig' =>
      here ← (if decide (currentRoundIdx < i) then
                t ← head temp;
                let diff := chips s - chips t in
                Some (if decide (0 < diff) then diff else 0)
              else Some 0);
      rest ← stolenTotal currentRoundIdx (i + 1) orig' (tail temp);
      Some (here + rest)
  end.

Definition confirmSteal (v : View) : option View :=
  m ← myMatch v;
  let currentRoundIdx := currentRound m - 1 in
  t ← team v; s ← strategy t;
  stolen ← stolenTotal currentRoundIdx 0 s (tempStrategy v);
  let totalAvailable := (winnings t + Qc_of_Z stolen)%Qc in
  opp ← opponentTeam v;
  oppStrat ← strat_at opp currentRoundIdx;
  myStrat ← at_index s currentRoundIdx;
  let diff := chips oppStrat - chips myStrat in
  tempCur ← at_index (tempStrategy v) currentRoundIdx;
  let newCurrentChips := chips tempCur + diff in
  (* the copy shares its entries with [tempStrategy]: the assignment to
     [chips] is seen through both *)
  let updatedStrategy :=
    <[Z.to_nat currentRoundIdx := with_chips tempCur newCurrentChips]> (tempStrategy v) in
  let updatedTeam := with_winnings_strategy t 0%Qc updatedStrategy in
  let updatedTeams := replace_team (teamId v) updatedTeam (teams (room v)) in
  updateTeamsAndMatch
    (setStealModalOpen (setTempStrategy v updatedStrategy) false)
    updatedTeams [SetRoundStatus SHOWDOWN; SetTurnOwner None].

(** The buttons of the steal modal, which is rendered while
    [stealModalOpen] holds: a [-1] button for every entry of the scratch
    strategy at an index not below [currentRound], disabled at one chip;
    the cancel button; the confirm button, disabled unless
    [canConfirmSteal]. *)
Definition clickStealMinus (v : View) (idx : nat) : option View :=
  if negb (stealModalOpen v) then Some v else
  match tempStrategy v !! idx with
  | Some s =>
      let cr := match myMatch v with Some m => currentRound m | None => 0 end in
      if decide (Z.of_nat idx < cr) then Some v
      else if decide (chips s ≤ 1) then Some v
      else adjustTempChips v (Z.of_nat idx) (-1)
  | None => Some v
  end.
Definition clickStealCancel (v : View) : View :=
  if stealModalOpen v then setStealModalOpen v false else v.
Definition clickStealConfirm (v : View) : option View :=
  if stealModalOpen v && canConfirmSteal v then confirmSteal v else Some v.

(** ** Showdown *)
Definition handleShowdown (v : View) : option View :=
  m ← myMatch v;
  if decide (roundStatus m ≠ SHOWDOWN) then Some v else
  let currentRound := currentRound m in
  teamA ← find_team (teams (room v)) (teamAId m);
  teamB ← find_team (teams (room v)) (teamBId m);
  stratA ← strat_at teamA (currentRound - 1);
  stratB ← strat_at teamB (currentRound - 1);
  let pot := chips stratA + chips stratB + carryOver m in
  let '(winner, carryOver', winningsA, winningsB, scoreA, scoreB) :=
    if decide (card stratB < card stratA) then
      (A_WON, 0, (winnings teamA + Qc_of_Z pot)%Qc, winnings teamB,
       teamAScore m + 1, teamBScore m)
    else if decide (card stratA < card stratB) then
      (B_WON, 0, winnings teamA, (winnings teamB + Qc_of_Z pot)%Qc,
       teamAScore m, teamBScore m + 1)
    else if decide (currentRound = TOTAL_ROUNDS) then
      (DRAW, 0,
       (winnings teamA + (Qc_of_Z (chips stratA) + Qc_of_Z (carryOver m) / 2))%Qc,
       (winnings teamB + (Qc_of_Z (chips stratB) + Qc_of_Z (carryOver m) / 2))%Qc,
       teamAScore m, teamBScore m)
    else
      (DRAW, pot, winnings teamA, winnings teamB, teamAScore m, teamBScore m) in
  let historyItem :=
    mkRoundResult currentRound (card stratA) (card stratB) (chips stratA) (chips stratB)
      winner (if decide (winner = DRAW) then 0 else pot) in
  let updatedTeamA := with_winnings teamA winningsA in
  let updatedTeamB := with_winnings teamB winningsB in
  let updatedTeams :=
    (λ t, if decide (t_id t = t_id teamA) then updatedTeamA
          else if decide (t_id t = t_id teamB) then updatedTeamB else t)
      <$> teams (room v) in
  updateTeamsAndMatch v updatedTeams
    [SetRoundStatus RESULT; SetTurnOwner None; SetPot 0; SetCarryOver carryOver';
     SetTeamAScore scoreA; SetTeamBScore scoreB;
     SetLastRoundResult (Some historyItem);
     SetResultConfirmed ∅;
     SetHistory (history m ++ [historyItem])].

(** ** Result confirmation *)

(** [confirmed[id]] read as a condition: a missing key is falsy. *)
Definition truthy (c : gmap string bool) (i : string) : bool := default false (c !! i).

Definition handleConfirmResult (v : View) : option View :=
  m ← myMatch v;
  let confirmed := <[teamId v := true]> (resultConfirmed m) in
  let bothConfirmed := truthy confirmed (teamAId m) && truthy confirmed (teamBId m) in
  let nextRound := currentRound m + 1 in
  let isGameEnd := bool_decide (TOTAL_ROUNDS < nextRound) in
  if bothConfirmed then
    updateMatchState v
      [SetCurrentRound (if isGameEnd then currentRound m else nextRound);
       SetRoundStatus (if isGameEnd then FINISHED else READY);
       SetResultConfirmed ∅;
       SetLastRoundResult None;
       SetLastAction None]
  else
    updateMatchState v [SetResultConfirmed confirmed].

(** The confirm button of the result modal: the modal is rendered while the
    round status is RESULT and a last result is stored, and the button is
    disabled once the team's own entry is set. *)
Definition resultModalShown (v : View) : bool :=
  match myMatch v with
  | Some m => bool_decide (roundStatus m = RESULT) && bool_decide (is_Some (lastRoundResult m))
  | None => false
  end.
Definition clickConfirmResult (v : View) : option View :=
  match myMatch v with
  | Some m =>
      if resultModalShown v && negb (truthy (resultConfirmed m) (teamId v))
      then handleConfirmResult v else Some v
  | None => Some v
  end.

(** ** The strategy editor (room in PREPARING) *)

(** [Array(TOTAL_ROUNDS).fill(null).map((_, i) => ({ round: i + 1, card: -1, chips: 1 }))] *)
Definition freshStrategy : list RoundStrategy :=
  (λ i, mkRoundStrategy (Z.of_nat i + 1) (-1) 1) <$> seq 0 (Z.to_nat TOTAL_ROUNDS).

(** [room.status !== 'PREPARING' && !isAdminMode], the guard of the four
    editing handlers. *)
Definition editLocked (v : View) : bool :=
  bool_decide (status (room v) ≠ PREPARING) && negb (isAdminMode v).

Definition handleSetChips (v : View) (roundIdx delta : Z) : option View :=
  if editLocked v then Some v else
  let prev := st_strategy v in
  entry ← at_index prev roundIdx;
  let currentChips := chips entry in
  let newChips := currentChips + delta in
  if decide (newChips < 1) then Some v else
  let currentTotal := sum_chips prev in
  if decide (0 < delta ∧ TOTAL_CHIPS ≤ currentTotal) then Some v else
  Some (setStrategy v (<[Z.to_nat roundIdx := with_chips entry newChips]> prev)).

(** The item of a drag: the card and where it was picked up, the deck or
    the index of a round. *)
Inductive DragSource := Deck | FromRound (idx : Z).
Record DragItem := mkDragItem { data : Z; source : DragSource }.

Definition handleDragStart (v : View) (c : Z) (src : DragSource) : option DragItem :=
  if editLocked v then None
  else if decide (c = -1) then None
  else Some (mkDragItem c src).

(** [handleDrop] with the drag item of the ref and the round index of the
    drop zone under the pointer, if there is one.  [None] is a thrown
    [TypeError]. *)
Definition handleDrop (v : View) (item : option DragItem) (dropZone : option Z) : option View :=
  if editLocked v then Some v else
  match item with
  | None => Some v
  | Some item =>
      let prev := st_strategy v in
      match dropZone with
      | Some targetRoundIdx =>
          if decide (targetRoundIdx = -1) then Some v else
          match source item with
          | Deck =>
              tgt ← at_index prev targetRoundIdx;
              Some (setStrategy v
                      (<[Z.to_nat targetRoundIdx := with_card tgt (data item)]> prev))
          | FromRound sourceRoundIdx =>
              if decide (sourceRoundIdx ≠ -1 ∧ sourceRoundIdx ≠ targetRoundIdx) then
                tgt ← at_index prev targetRoundIdx;
                let targetCard := card tgt in
                let next := <[Z.to_nat targetRoundIdx := with_card tgt (data item)]> prev in
                src ← at_index next sourceRoundIdx;
                Some (setStrategy v
                        (<[Z.to_nat sourceRoundIdx := with_card src targetCard]> next))
              else Some v
          end
      | None =>
          match source item with
          | Deck => Some v
          | FromRound sourceRoundIdx =>
              if decide (sourceRoundIdx ≠ -1) then
                src ← at_index prev sourceRoundIdx;
                Some (setStrategy v (<[Z.to_nat sourceRoundIdx := with_card src (-1)]> prev))
              else Some v
          end
      end
  end.

Definition handleCardDoubleClick (v : View) (roundIdx : Z) : option View :=
  if editLocked v then Some v else
  src ← at_index (st_strategy v) roundIdx;
  Some (setStrategy v (<[Z.to_nat roundIdx := with_card src (-1)]> (st_strategy v))).

(** What the board and the deck let a pointer do.  The board is read-only
    for a ready team outside admin mode; a round's card can be picked up or
    double-clicked when the round holds one; the deck is shown to a team
    that is not ready (or in admin mode) and lets go only of cards that no
    round holds.  A drag ends over a round of the board or elsewhere.  Board
    and deck are rendered while the room is in PREPARING. *)
Inductive Gesture :=
| ChipButton (idx : nat) (plus : bool)
| DragFromDeck (c : Z) (target : option nat)
| DragFromRound (idx : nat) (target : option nat)
| DoubleClick (idx : nat).

Definition readOnly (v : View) : bool :=
  match team v with
  | Some t => isReady t && negb (isAdminMode v)
  | None => true
  end.

Definition dropTarget (v : View) (target : option nat) : option Z :=
  match target with
  | Some i => if decide (i < length (st_strategy v))%nat then Some (Z.of_nat i) else None
  | None => None
  end.

Definition gesture (v : View) (g : Gesture) : option View :=
  if decide (status (room v) ≠ PREPARING) then Some v else
  match g with
  | ChipButton idx plus =>
      match st_strategy v !! idx with
      | Some _ => if readOnly v then Some v
                  else handleSetChips v (Z.of_nat idx) (if plus then 1 else -1)
      | None => Some v
      end
  | DragFromDeck c target =>
      if readOnly v then Some v
      else if decide (c ∈ CARDS ∧ c ∉ usedCards v)
      then handleDrop v (handleDragStart v c Deck) (dropTarget v target)
      else Some v
  | DragFromRound idx target =>
      match st_strategy v !! idx with
      | Some r =>
          if negb (readOnly v) && bool_decide (card r ≠ -1)
          then handleDrop v (handleDragStart v (card r) (FromRound (Z.of_nat idx)))
                 (dropTarget v target)
          else Some v
      | None => Some v
      end
  | DoubleClick idx =>
      match st_strategy v !! idx with
      | Some r =>
          if negb (readOnly v) && bool_decide (card r ≠ -1)
          then handleCardDoubleClick v (Z.of_nat idx) else Some v
      | None => Some v
      end
  end.

Fixpoint gestures (v : View) (gs : list Gesture) : option View :=
  match gs with
  | [] => Some v
  | g :: gs' => v' ← gesture v g; gestures v' gs'
  end.

(** ** The earlier handlers (the second copy of the view in the sources)

    The copy resolves a round and advances in one step, without the RESULT
    state; its fold and its showdown are kept for comparison. *)
Module Legacy.

Definition handleFold (v : View) : option View :=
  if negb (isMyTurn v) then Some v else
  m ← myMatch v;
  let currentRound := currentRound m in
  t ← team v;
  myStrat ← strat_at t (currentRound - 1);
  opp ← opponentTeam v;
  oppStrat ← strat_at opp (currentRound - 1);
  let pot := chips myStrat + chips oppStrat + carryOver m in
  let updatedOpponent := with_winnings opp (winnings opp + Qc_of_Z pot)%Qc in
  let historyItem :=
    mkRoundResult currentRound
      (if isTeamA v m then card myStrat else card oppStrat)
      (if isTeamA v m then card oppStrat else card myStrat)
      (if isTeamA v m then chips myStrat else chips oppStrat)
      (if isTeamA v m then chips oppStrat else chips myStrat)
      (if isTeamA v m then A_FOLDED else B_FOLDED)
      pot in
  let nextRound := currentRound + 1 in
  let isGameEnd := bool_decide (TOTAL_ROUNDS < nextRound) in
  let updatedTeams := replace_team (t_id opp) updatedOpponent (teams (room v)) in
  updateTeamsAndMatch v updatedTeams
    [SetCurrentRound (if isGameEnd then currentRound else nextRound);
     SetRoundStatus (if isGameEnd then FINISHED else READY);
     SetTurnOwner None; SetPot 0; SetCarryOver 0;
     SetHistory (history m ++ [historyItem])].

Definition handleShowdown (v : View) : option View :=
  m ← myMatch v;
  if decide (roundStatus m ≠ SHOWDOWN) then Some v else
  let currentRound := currentRound m in
  teamA ← find_team (teams (room v)) (teamAId m);
  teamB ← find_team (teams (room v)) (teamBId m);
  stratA ← strat_at teamA (currentRound - 1);
  stratB ← strat_at teamB (currentRound - 1);
  let pot := chips stratA + chips stratB + carryOver m in
  let '(winner, carryOver', winningsA, winningsB, scoreA, scoreB) :=
    if decide (card stratB < card stratA) then
      (A_WON, 0, (winnings teamA + Qc_of_Z pot)%Qc, winnings teamB,
       teamAScore m + 1, teamBScore m)
    else if decide (card stratA < card stratB) then
      (B_WON, 0, winnings teamA, (winnings teamB + Qc_of_Z pot)%Qc,
       teamAScore m, teamBScore m + 1)
    else if decide (currentRound = TOTAL_ROUNDS) then
      (DRAW, 0, (winnings teamA + Qc_of_Z pot / 2)%Qc,
       (winnings teamB + Qc_of_Z pot / 2)%Qc, teamAScore m, teamBScore m)
    else
      (DRAW, pot, winnings teamA, winnings teamB, teamAScore m, teamBScore m) in
  let historyItem :=
    mkRoundResult currentRound (card stratA) (card stratB) (chips stratA) (chips stratB)
      winner (if decide (winner = DRAW) then 0 else pot) in
  let updatedTeamA := with_winnings teamA winningsA in
  let updatedTeamB := with_winnings teamB winningsB in
  let updatedTeams :=
    (λ t, if decide (t_id t = t_id teamA) then updatedTeamA
          else if decide (t_id t = t_id teamB) then updatedTeamB else t)
      <$> teams (room v) in
  let nextRound := currentRound + 1 in
  let isGameEnd := bool_decide (TOTAL_ROUNDS < nextRound) in
  updateTeamsAndMatch v updatedTeams
    [SetCurrentRound (if isGameEnd then currentRound else nextRound);
     SetRoundStatus (if isGameEnd then FINISHED else READY);
     SetTurnOwner None; SetPot 0; SetCarryOver carryOver';
     SetTeamAScore scoreA; SetTeamBScore scoreB;
     SetHistory (history m ++ [historyItem])].

End Legacy.

(** * Notions of the statements *)

(** ** Seats *)

(** A view is seated when its team plays a match against another team of
    the room: [idx] is the index of the match among the room's matches, [t]
    the team of the view and [opp] its opponent. *)
Record Seated (v : View) (idx : nat) (m : Match) (t opp : Team) : Prop := {
  seated_match : myMatchEntry v = Some (idx, m);
  seated_team : team v = Some t;
  seated_opp : opponentTeam v = Some opp;
  seated_distinct : teamAId m ≠ teamBId m
}.

(** Both seats of the match of a view, with the entries of the current
    round. *)
Record Seats (v : View) (idx : nat) (m : Match) (tA tB : Team)
    (sA sB : RoundStrategy) : Prop := {
  sd_match : myMatchEntry v = Some (idx, m);
  sd_teamA : find_team (teams (room v)) (teamAId m) = Some tA;
  sd_teamB : find_team (teams (room v)) (teamBId m) = Some tB;
  sd_distinct : teamAId m ≠ teamBId m;
  sd_stratA : strat_at tA (currentRound m - 1) = Some sA;
  sd_stratB : strat_at tB (currentRound m - 1) = Some sB
}.

(** ** Resolutions *)

(** The pot of the current round. *)
Definition pot_of (ms os : RoundStrategy) (m : Match) : Z :=
  chips ms + chips os + carryOver m.

(** The round result a fold by the team of the view records. *)
Definition foldResult (v : View) (m : Match) (ms os : RoundStrategy) : RoundResult :=
  mkRoundResult (currentRound m)
    (if isTeamA v m then card ms else card os)
    (if isTeamA v m then card os else card ms)
    (if isTeamA v m then chips ms else chips os)
    (if isTeamA v m then chips os else chips ms)
    (if isTeamA v m then A_FOLDED else B_FOLDED)
    (pot_of ms os m).

(** What a showdown writes, by the cards: the result code, potWon, the two
    winnings, the carry-over and the two scores. *)
Definition showdownOutcome (m : Match) (tA tB : Team) (sA sB : RoundStrategy)
    : ResultCode * Z * Qc * Qc * Z * Z * Z :=
  let pot := pot_of sA sB m in
  if decide (card sB < card sA) then
    (A_WON, pot, (winnings tA + Qc_of_Z pot)%Qc, winnings tB, 0,
     teamAScore m + 1, teamBScore m)
  else if decide (card sA < card sB) then
    (B_WON, pot, winnings tA, (winnings tB + Qc_of_Z pot)%Qc, 0,
     teamAScore m, teamBScore m + 1)
  else if decide (currentRound m = TOTAL_ROUNDS) then
    (DRAW, 0,
     (winnings tA + (Qc_of_Z (chips sA) + Qc_of_Z (carryOver m) / 2))%Qc,
     (winnings tB + (Qc_of_Z (chips sB) + Qc_of_Z (carryOver m) / 2))%Qc,
     0, teamAScore m, teamBScore m)
  else
    (DRAW, 0, winnings tA, winnings tB, pot, teamAScore m, teamBScore m).

(** The two ways a round is resolved, and when each is open to the team of
    the view. *)
Inductive Resolution := ByFold | ByShowdown.

Definition resolve (r : Resolution) (v : View) : option View :=
  match r with
  | ByFold => handleFold v
  | ByShowdown => handleShowdown v
  end.

Definition mayResolve (r : Resolution) (v : View) (m : Match) : Prop :=
  match r with
  | ByFold => roundStatus m = DECISION ∧ turnOwner m = Some (teamId v)
  | ByShowdown => roundStatus m = SHOWDOWN
  end.

(** ** The confirmation barrier and the round counter *)

(** The map with the team's own entry set, and the barrier read from it. *)
Definition confirmedBy (v : View) (m : Match) : gmap string bool :=
  <[teamId v := true]> (resultConfirmed m).
Definition bothConfirmed (v : View) (m : Match) : bool :=
  truthy (confirmedBy v m) (teamAId m) && truthy (confirmedBy v m) (teamBId m).

(** The intents of a view other than the confirmation of a result: the
    READY evaluation, fold, call, the buttons of the steal modal, showdown
    and the submission of a strategy. *)
Inductive Intent :=
| ReadyEval
| Fold
| Call
| StealMinus (idx : nat)
| StealCancel
| StealConfirm
| Showdown
| Submit
| SubmitYes.

Definition perform (i : Intent) (v : View) : option View :=
  match i with
  | ReadyEval => readyEffect v
  | Fold => handleFold v
  | Call => handleCall v
  | StealMinus idx => clickStealMinus v idx
  | StealCancel => Some (clickStealCancel v)
  | StealConfirm => clickStealConfirm v
  | Showdown => handleShowdown v
  | Submit => Some (handleSubmitStrategy v)
  | SubmitYes => Some (clickSubmitYes v)
  end.

(** An assignment that leaves [currentRound] alone. *)
Definition keepsRound (u : FieldUpdate) : Prop :=
  match u with SetCurrentRound _ => False | _ => True end.

(** ** The session of the steal modal *)

(** Clicks on the [-1] buttons of the rounds at the given indices, one
    after the other. *)
Fixpoint stealClicks (v : View) (idxs : list nat) : option View :=
  match idxs with
  | [] => Some v
  | i :: idxs' => v' ← clickStealMinus v i; stealClicks v' idxs'
  end.

(** The scratch strategy of the steal modal against the stored strategy
    [s]: same rounds and cards, no entry above the stored chips or below
    one chip, the entries up to the current round untouched, and no more
    stolen than the call is short of. *)
Record StealInv (v : View) (cr : Z) (s : list RoundStrategy) : Prop := {
  si_open : stealModalOpen v = true;
  si_len : length (tempStrategy v) = length s;
  si_entries : ∀ i x y, s !! i = Some x → tempStrategy v !! i = Some y →
    round y = round x ∧ card y = card x ∧ 1 ≤ chips y ≤ chips x ∧
    (Z.of_nat i < cr → y = x);
  si_stolen : (Qc_of_Z (stolenAmount cr 0 s (tempStrategy v)) ≤ neededChips v)%Qc
}.

(** ** Valid strategies and the editor *)

(** A valid strategy in the words of the specification: the cards of the
    ten entries are exactly 0 to 9, each once; the chips sum to the budget;
    every round holds at least one chip. *)
Definition validStrategy (s : list RoundStrategy) : Prop :=
  card <$> s ≡ₚ CARDS ∧
  sum_chips s = TOTAL_CHIPS ∧
  Forall (λ x, 1 ≤ chips x) s.

(** The two tests of [handleSubmitStrategy]: ten slots hold a card and no
    chip of the budget is left. *)
Definition passesChecks (v : View) : Prop :=
  Z.of_nat (length (usedCards v)) = 10 ∧ remainingChips v = 0.

(** What the editor keeps true of the strategy being edited: ten entries,
    at least one chip in each, every slot empty (-1) or holding a card of
    the deck, and no card of the deck in two slots. *)
Record EditorInv (s : list RoundStrategy) : Prop := {
  ei_len : length s = 10%nat;
  ei_chips : ∀ i x, s !! i = Some x → 1 ≤ chips x;
  ei_cards : ∀ i x, s !! i = Some x → card x = -1 ∨ card x ∈ CARDS;
  ei_inj : ∀ i j x y, s !! i = Some x → s !! j = Some y →
           card x = card y → card x ≠ -1 → i = j
}.

(** A step of the editor: the view as it was, or the view with another
    strategy that satisfies the invariant. *)
Definition EditStep (v v' : View) : Prop :=
  v' = v ∨ ∃ s', v' = setStrategy v s' ∧ EditorInv s'.

(** * Concrete rooms

    Two teams "A" and "B" in one match; a strategy is given by its ten
    (card, chips) pairs. *)
Definition mkStrategy (l : list (Z * Z)) : list RoundStrategy :=
  imap (λ i p, mkRoundStrategy (Z.of_nat i + 1) p.1 p.2) l.

Definition exTeam (i : string) (w : Qc) (l : list (Z * Z)) : Team :=
  mkTeam i i true w [] (Some (mkStrategy l)).

Definition exMatch (cr : Z) (rs : RoundStatus) (owner : option string) (co : Z)
    (rc : gmap string bool) : Match :=
  mkMatch "m" "A" "B" 0 0 cr rs owner 0 co [] ∅ None rc None.

Definition exView (i : string) (a b : Team) (m : Match) : View :=
  mkView (mkRoom "r" PLAYING [a; b] [m]) i false [] 0%Qc false false [] [].

(** Scenario A of the specification in DECISION: round 3, team A holds 2
    chips and card 5 against 5 chips and card 3, with winnings of 10;
    [scenarioA_short] is the same round with winnings of 1. *)
Definition scenarioA_teamA (w : Qc) : Team :=
  exTeam "A" w [(0,3);(1,3);(5,2);(2,3);(3,3);(4,3);(6,3);(7,3);(8,3);(9,4)].
Definition scenarioA_teamB : Team :=
  exTeam "B" 0%Qc [(0,3);(1,3);(3,5);(2,3);(4,3);(5,3);(6,3);(7,3);(8,2);(9,2)].
Definition scenarioA_view (w : Qc) (rs : RoundStatus) (owner : option string) : View :=
  exView "A" (scenarioA_teamA w) scenarioA_teamB (exMatch 3 rs owner 0 ∅).
Definition scenarioA : View := scenarioA_view (Qc_of_Z 10) DECISION (Some "A").
Definition scenarioA_short : View := scenarioA_view (Qc_of_Z 1) DECISION (Some "A").

(** Final-round draws: round 10 in SHOWDOWN, both teams on card 7.
    [unevenFinalDraw] has 3 chips against 5 and nothing carried over;
    [oddFinalDraw] has 4 chips on each side and 3 carried over;
    [scenarioB] is Scenario B of the specification, 4 chips on each side
    and 2 carried over. *)
Definition finalDraw (chipsA chipsB co : Z) : View :=
  exView "A"
    (exTeam "A" 0%Qc [(0,3);(1,3);(2,3);(3,3);(4,3);(5,3);(6,3);(8,3);(9,3);(7,chipsA)])
    (exTeam "B" 0%Qc [(9,3);(8,3);(6,3);(5,3);(4,3);(3,3);(2,3);(1,3);(0,3);(7,chipsB)])
    (exMatch 10 SHOWDOWN None co ∅).
Definition unevenFinalDraw : View := finalDraw 3 5 0.
Definition oddFinalDraw : View := finalDraw 4 4 3.
Definition scenarioB : View := finalDraw 4 4 2.

(** Scenario C of the specification: team A is to decide in round 5 with 3
    chips against 6, one chip carried over. *)
Definition scenarioC : View :=
  exView "A"
    (exTeam "A" 0%Qc [(0,3);(1,3);(2,3);(3,3);(4,3);(5,3);(6,3);(7,3);(8,3);(9,3)])
    (exTeam "B" 0%Qc [(9,3);(8,3);(7,3);(6,3);(4,6);(5,3);(3,3);(2,3);(1,2);(0,1)])
    (exMatch 5 DECISION (Some "A") 1 ∅).

(** A team that is not ready in a room in PREPARING; its view holds the
    strategy [s] in the editor. *)
Definition prepView (s : list RoundStrategy) : View :=
  mkView (mkRoom "r" PREPARING
            [mkTeam "A" "A" false 0%Qc [] None; mkTeam "B" "B" false 0%Qc [] None] [])
    "A" false s 0%Qc false false [] [].

(** A run of the editor: the ten cards are dragged from the deck onto the
    ten rounds, card 0 is picked up from the deck once more, a [-] button is
    clicked at one chip, and every round gets two more chips. *)
Definition editorRun : list Gesture :=
  ((λ i, DragFromDeck (Z.of_nat i) (Some i)) <$> seq 0 10)
  ++ [DragFromDeck 0 (Some 5%nat); ChipButton 0 false]
  ++ ((λ i, ChipButton i true) <$> seq 0 10)
  ++ ((λ i, ChipButton i true) <$> seq 0 10).

(** * The game around the handlers *)

(** ** Moves of a match

    What a team does to its match from its view: the READY effect firing,
    the fold button, the call button with the session of the steal modal
    that may follow it (clicks on [-1] buttons, the confirm button, the
    cancel button), the showdown button and the confirm button of the
    result modal. *)
Inductive Move :=
| MReady
| MFold
| MCall (idxs : list nat)
| MShowdown
| MConfirm.

Definition callSession (v : View) (idxs : list nat) : option View :=
  v1 ← handleCall v;
  v2 ← stealClicks v1 idxs;
  v3 ← clickStealConfirm v2;
  Some (clickStealCancel v3).

Definition move (mv : Move) (v : View) : option View :=
  match mv with
  | MReady => readyEffect v
  | MFold => handleFold v
  | MCall idxs => callSession v idxs
  | MShowdown => handleShowdown v
  | MConfirm => clickConfirmResult v
  end.

(** A step of a room: some view of the room, of any team and with its steal
    modal closed, makes a move; the room of the view afterwards is the
    room every view is rendered with next. *)
Inductive step (r : Room) : Room → Prop :=
| step_move w mv w' :
    room w = r → stealModalOpen w = false → move mv w = Some w' →
    step r (room w').

(** A match as the match maker creates it. *)
Definition FreshMatch (m : Match) : Prop :=
  currentRound m = 1 ∧ roundStatus m = READY ∧ history m = [] ∧ turnOwner m = None ∧
  pot m = 0 ∧ teamAScore m = 0 ∧ teamBScore m = 0.

(** The rounds of a history that ended with the given result. *)
Definition countResult (c : ResultCode) (h : list RoundResult) : Z :=
  Z.of_nat (length (filter (λ x, result x = c) h)).

(** The number of rounds a match has resolved: the current one counts once
    its result is up. *)
Definition resolvedRounds (m : Match) : Z :=
  match roundStatus m with
  | RESULT | FINISHED => currentRound m
  | _ => currentRound m - 1
  end.

(** The rounds 1 to [n]. *)
Definition roundsTo (n : Z) : list Z :=
  (λ i, Z.of_nat i + 1) <$> seq 0 (Z.to_nat n).

(** The books of a match are in order: the round is one of the ten, a
    turn owner is named only in DECISION, the history holds the resolved
    rounds in order, each once, a finished match is in the last round, the
    stored pot is 0 and the scores count the showdowns won. *)
Record Booked (m : Match) : Prop := {
  bk_round : 1 ≤ currentRound m ≤ TOTAL_ROUNDS;
  bk_turn : is_Some (turnOwner m) → roundStatus m = DECISION;
  bk_history : r_round <$> history m = roundsTo (resolvedRounds m);
  bk_finished : roundStatus m = FINISHED → currentRound m = TOTAL_ROUNDS;
  bk_pot : pot m = 0;
  bk_scoreA : teamAScore m = countResult A_WON (history m);
  bk_scoreB : teamBScore m = countResult B_WON (history m)
}.

(** What a handler may do to the room of the view: nothing, or replace the
    match of the view by one that is booked if the match was. *)
Definition keeps (w w' : View) : Prop :=
  teamId w' = teamId w ∧
  (room w' = room w ∨
   ∃ i m m', myMatchEntry w = Some (i, m) ∧
     matches (room w') = <[i := m']> (matches (room w)) ∧
     (Booked m → Booked m')).

(** The view a team's device renders a room with before anything is typed
    or clicked, and a game played on one room: each move is made from the
    view of the team named with it. *)
Definition viewOf (r : Room) (who : string) : View :=
  mkView r who false [] 0%Qc false false [] [].

Fixpoint play (r : Room) (mvs : list (string * Move)) : option Room :=
  match mvs with
  | [] => Some r
  | (who, mv) :: rest => w ← move mv (viewOf r who); play (room w) rest
  end.

(** ** What the boards show

    [revealedRounds] of the view and the props the opponent's board is
    rendered with; [shouldHideNumber] is the test of [BlueGameBoard] for the
    round at an index. *)
Definition revealedRounds (m : Match) : list Z :=
  let revealed := r_round <$> history m in
  if bool_decide (roundStatus m = SHOWDOWN ∨ roundStatus m = FINISHED)
     && bool_decide (currentRound m ≠ 0)
     && negb (bool_decide (currentRound m ∈ revealed))
  then revealed ++ [currentRound m] else revealed.

Definition shouldHideNumber (blindMode : bool) (revealedHistory : list Z) (idx : nat) : bool :=
  blindMode && negb (bool_decide (Z.of_nat idx + 1 ∈ revealedHistory)).

Definition opponentCardHidden (m : Match) (idx : nat) : bool :=
  shouldHideNumber
    (if decide (roundStatus m = FINISHED) then false else true)
    (if decide (roundStatus m = FINISHED) then [1; 2; 3; 4; 5; 6; 7; 8; 9; 10]
     else revealedRounds m)
    idx.

(** A room with one fresh match between the two teams of Scenario C, and a
    game played on it to the end: four showdowns, a fold by team A in round
    5, a drawn showdown, two more showdowns, a call by team B in round 9 and
    a fold by team B in round 10, each round confirmed by both teams. *)
Definition freshGame : Room :=
  room (exView "A"
    (exTeam "A" 0%Qc [(0,3);(1,3);(2,3);(3,3);(4,3);(5,3);(6,3);(7,3);(8,3);(9,3)])
    (exTeam "B" 0%Qc [(9,3);(8,3);(7,3);(6,3);(4,6);(5,3);(3,3);(2,3);(1,2);(0,1)])
    (exMatch 1 READY None 0 ∅)).

Definition confirmBoth : list (string * Move) := [("A", MConfirm); ("B", MConfirm)].
Definition showdownRound : list (string * Move) :=
  [("A", MReady); ("B", MShowdown)] ++ confirmBoth.

Definition fullGame : list (string * Move) :=
  showdownRound ++ showdownRound ++ showdownRound ++ showdownRound
  ++ [("A", MReady); ("A", MFold)] ++ confirmBoth
  ++ showdownRound ++ showdownRound ++ showdownRound
  ++ [("A", MReady); ("B", MCall []); ("A", MShowdown)] ++ confirmBoth
  ++ [("A", MReady); ("B", MFold)] ++ confirmBoth.

(** The room at the end of [fullGame], and the room and the match when
    team A is to decide in round 5. *)
Definition finishedGame : Room := default freshGame (play freshGame fullGame).
Definition toDecision : list (string * Move) :=
  showdownRound ++ showdownRound ++ showdownRound ++ showdownRound
  ++ [("A", MReady)].
Definition decisionGame : Room := default freshGame (play freshGame toDecision).
Definition decisionMatch : Match :=
  default (exMatch 1 READY None 0 ∅) (matches decisionGame !! 0%nat).

(** ** Submission in admin mode *)

(** The view an admin has of team A of [prepView] with nothing placed on
    the board. *)
Definition adminView : View :=
  mkView (room (prepView freshStrategy)) "A" true freshStrategy 0%Qc false false [] [].

(** ** The admin dashboard *)

(** [teamWon] of [getTeamRoundsWon]: the round went to the team on the A
    side or on the B side. *)
Definition teamWon (isTeamA isTeamB : bool) (h : RoundResult) : bool :=
  (isTeamA && (bool_decide (result h = A_WON) || bool_decide (result h = B_FOLDED)))
  || (isTeamB && (bool_decide (result h = B_WON) || bool_decide (result h = A_FOLDED))).

(** The rounds one match adds to [wonRounds]. *)
Definition wonRoundsIn (teamId : string) (m : Match) : list Z :=
  let isTeamA := bool_decide (teamAId m = teamId) in
  let isTeamB := bool_decide (teamBId m = teamId) in
  if negb isTeamA && negb isTeamB then []
  else r_round <$> filter (λ h, teamWon isTeamA isTeamB h = true) (history m).

(** [getTeamRoundsWon(teamId)]: the count and the rounds in ascending
    order ([sort((a, b) => a - b)] on numbers). *)
Definition getTeamRoundsWon (r : Room) (teamId : string) : nat * list Z :=
  let wonRounds := mjoin (wonRoundsIn teamId <$> matches r) in
  (length wonRounds, merge_sort Z.le wonRounds).

(** [[...room.teams].sort((a, b) => b.winnings - a.winnings)]: the sort is
    stable, so a team stays ahead of the later teams with the same
    winnings. *)
Fixpoint insertByWinnings (x : Team) (l : list Team) : list Team :=
  match l with
  | [] => [x]
  | y :: l' =>
      if decide (winnings y ≤ winnings x)%Qc then x :: y :: l'
      else y :: insertByWinnings x l'
  end.
Definition sortByWinnings (l : list Team) : list Team := foldr insertByWinnings [] l.

(** [getTeamRank(teamId)]: [findIndex] gives -1 for an id no team has. *)
Definition getTeamRank (r : Room) (teamId : string) : Z :=
  match list_find (λ t, t_id t = teamId) (sortByWinnings (teams r)) with
  | Some (i, _) => Z.of_nat i + 1
  | None => -1 + 1
  end.

(** The order of the sorted teams, and a team coming before another in a
    list. *)
Definition byWinnings (a b : Team) : Prop := (winnings b ≤ winnings a)%Qc.
Definition before {A} (x y : A) (l : list A) : Prop :=
  ∃ i j : nat, (i < j)%nat ∧ l !! i = Some x ∧ l !! j = Some y.

(** A finished room of three teams, two of them with the same winnings;
    its one match went through six rounds. *)
Definition rankTeam (i : string) (w : Z) : Team := mkTeam i i true (Qc_of_Z w) [] None.
Definition rankMatch : Match :=
  mkMatch "m" "A" "B" 2 2 6 RESULT None 0 0
    [mkRoundResult 1 0 9 3 3 B_WON 6; mkRoundResult 2 5 5 3 3 DRAW 0;
     mkRoundResult 3 7 2 3 3 A_WON 12; mkRoundResult 4 1 8 2 4 A_FOLDED 6;
     mkRoundResult 5 3 4 5 2 B_FOLDED 7; mkRoundResult 6 9 6 3 3 A_WON 6]
    ∅ None ∅ None.
Definition rankRoom : Room :=
  mkRoom "r" ROOM_FINISHED [rankTeam "A" 5; rankTeam "B" 10; rankTeam "C" 5] [rankMatch].

(** ** The match maker *)

(** The match literal of [assignTeam] and [autoMatch]: round 1 in READY,
    no score, pot, carry-over or history; the fields it leaves out are
    [undefined]. *)
Definition newMatch (i a b : string) : Match :=
  mkMatch i a b 0 0 1 READY None 0 0 [] ∅ None ∅ None.

(** A JavaScript array of matches with gaps: [None] is an index that
    holds no match.  [arr[i]] reads [undefined] at a gap and past the end;
    [arr[i] = x] past the end grows the array and leaves holes in between. *)
Definition array_get {A} (l : list (option A)) (i : nat) : option A := mjoin (l !! i).
Definition array_set {A} (l : list (option A)) (i : nat) (x : A) : list (option A) :=
  if decide (i < length l)%nat then <[i := Some x]> l
  else l ++ replicate (i - length l) None ++ [Some x].

Inductive Position := PosA | PosB.

Definition with_teamAId (m : Match) (a : string) : Match :=
  mkMatch (m_id m) a (teamBId m) (teamAScore m) (teamBScore m) (currentRound m)
    (roundStatus m) (turnOwner m) (pot m) (carryOver m) (history m) (aiHelps m)
    (lastRoundResult m) (resultConfirmed m) (lastAction m).
Definition with_teamBId (m : Match) (b : string) : Match :=
  mkMatch (m_id m) (teamAId m) b (teamAScore m) (teamBScore m) (currentRound m)
    (roundStatus m) (turnOwner m) (pot m) (carryOver m) (history m) (aiHelps m)
    (lastRoundResult m) (resultConfirmed m) (lastAction m).

(** The body of [newMatches.forEach]: the team leaves the seats it has. *)
Definition unseat (teamId : string) (m : Match) : Match :=
  let m1 := if decide (teamAId m = teamId) then with_teamAId m "" else m in
  if decide (teamBId m1 = teamId) then with_teamBId m1 "" else m1.

Definition seatIn (position : Position) (m : Match) (teamId : string) : Match :=
  match position with
  | PosA => with_teamAId m teamId
  | PosB => with_teamBId m teamId
  end.

(** [assignTeam(teamId, matchIdx, position)] with the reading [now] of the
    clock; the result is the array handed to [onUpdateMatches], [None] a
    thrown [TypeError].  The copy [[...matches]] has [undefined] where the
    given array has a gap, and the callback of [forEach] reads [m.teamAId]
    there; the holes that the assignment past the end leaves are skipped. *)
Definition assignTeam (now : Z) (matches : list (option Match))
    (teamId : string) (matchIdx : nat) (position : Position)
    : option (list (option Match)) :=
  let newMatches :=
    match array_get matches matchIdx with
    | Some _ => matches
    | None =>
        array_set matches matchIdx
          (newMatch ("m_" +:+ pretty now +:+ "_" +:+ pretty matchIdx) "" "")
    end in
  newMatches ←
    (if decide (teamId ≠ "") then
       if forallb (λ slot, bool_decide (is_Some slot)) (take (length matches) newMatches)
       then Some ((λ slot : option Match, unseat teamId <$> slot) <$> newMatches)
       else None
     else Some newMatches);
  m ← array_get newMatches matchIdx;
  Some (<[matchIdx := Some (seatIn position m teamId)]> newMatches).

(** The loop of [autoMatch] over the shuffled teams, two by two from index
    [i]; [now i] is the reading of the clock when the match of index [i] is
    made.  A last team without a partner is left out. *)
Fixpoint pairUp (now : nat → Z) (i : nat) (shuffled : list Team) : list Match :=
  match shuffled with
  | a :: b :: rest =>
      newMatch ("m_" +:+ pretty (now i) +:+ "_" +:+ pretty i) (t_id a) (t_id b)
      :: pairUp now (i + 2) rest
  | _ => []
  end.

(** [autoMatch]: [shuffled] is what the sort with the random comparator
    made of the teams, some arrangement of them. *)
Definition autoMatch (now : nat → Z) (shuffled : list Team) : list Match :=
  pairUp now 0 shuffled.

(** The id in a seat of the array, and the seats of a list of matches. *)
Definition seat (ms : list (option Match)) (i : nat) (p : Position) : option string :=
  m ← array_get ms i;
  Some (match p with PosA => teamAId m | PosB => teamBId m end).
Definition seats (ms : list Match) : list string :=
  ms ≫= λ m, [teamAId m; teamBId m].

(** A gap of the array that [assignTeam] does not fill. *)
Definition gapBeside (ms : list (option Match)) (idx : nat) : Prop :=
  ∃ i, i ≠ idx ∧ ms !! i = Some None.

(** No team sits in two seats. *)
Definition SeatedOnce (ms : list (option Match)) : Prop :=
  ∀ i p j q id, seat ms i p = Some id → seat ms j q = Some id → id ≠ "" →
                i = j ∧ p = q.

Global Instance Position_eq_dec : EqDecision Position.
Proof. solve_decision. Defined.

(** What [assignTeam] leaves in a seat that is not the one assigned: the
    id that was there, or nothing if it was the id of the team assigned. *)
Definition vacate (teamId s : string) : string :=
  if decide (teamId ≠ "" ∧ s = teamId) then "" else s.

(** ** AI help *)

(** [(myMatch.aiHelps?.[teamId] || 0)] *)
Definition aiCount (m : Match) (i : string) : Z := default 0 (aiHelps m !! i).

(** [{ ...myMatch, aiHelps: c }] *)
Definition with_aiHelps (m : Match) (c : gmap string Z) : Match :=
  mkMatch (m_id m) (teamAId m) (teamBId m) (teamAScore m) (teamBScore m)
    (currentRound m) (roundStatus m) (turnOwner m) (pot m) (carryOver m)
    (history m) c (lastRoundResult m) (resultConfirmed m) (lastAction m).

(** [handleAIHelp] in a view whose [aiLoading] cell holds the given value;
    [advice] is what awaiting [getGameAdvice] gave, [None] a rejected
    promise, which the [catch] answers with an alert.  The update is made
    from the render the handler was called in.  The text of the advice
    goes to a field of the match that no handler of the game reads; the
    match is kept without it. *)
Definition handleAIHelp (v : View) (aiLoading : bool) (advice : option string)
    : option View :=
  m ← myMatch v;
  if aiLoading || bool_decide (3 ≤ aiCount m (teamId v)) then Some v else
  match advice with
  | Some _ =>
      let newCounts := <[teamId v := aiCount m (teamId v) + 1]> (aiHelps m) in
      '(idx, m) ← myMatchEntry v;
      Some (onUpdate v (mkRoom (r_id (room v)) (status (room v)) (teams (room v))
                          (<[idx := with_aiHelps m newCounts]> (matches (room v)))))
  | None => Some (alert v AlertAIFailed)
  end.

(** ** The rooms of the app *)

(** [rooms.find(r => r.id === i)] *)
Definition find_room (rooms : list Room) (i : string) : option Room :=
  snd <$> list_find (λ r, r_id r = i) rooms.

(** [updateRoom(updatedRoom)]: the list that is stored and saved. *)
Definition updateRoom (rooms : list Room) (updatedRoom : Room) : list Room :=
  (λ r, if decide (r_id r = r_id updatedRoom) then updatedRoom else r) <$> rooms.

(** [deleteRoom(roomId)] with the answer to [window.confirm]: the list
    stored and saved, and the current room id. *)
Definition deleteRoom (rooms : list Room) (currentRoomId : option string)
    (roomId : string) (confirmed : bool) : list Room * option string :=
  if confirmed then
    (filter (λ r, r_id r ≠ roomId) rooms,
     if decide (currentRoomId = Some roomId) then None else currentRoomId)
  else (rooms, currentRoomId).

(** ** Joining a team *)

Inductive Screen := LANDING | ADMIN_LOGIN | ADMIN_DASH | USER_GAME.

(** The entry [swot_user_session] of the local storage. *)
Record Session := mkSession {
  s_roomId : string;
  s_teamId : string;
  userName : string
}.

(** The state cells of [App] that the join flow reads and writes, the
    stored session and the number of alerts shown. *)
Record App := mkApp {
  view : Screen;
  rooms : list Room;
  currentRoomId : option string;
  currentTeamId : option string;
  isAdminVisiting : bool;
  pendingTeamId : option string;
  joinName : string;
  showNameModal : bool;
  userSession : option Session;
  nameAlerts : nat
}.

(** An id read as a condition: [null] and the empty string are falsy. *)
Definition truthyId (o : option string) : option string :=
  match o with
  | Some s => if decide (s = "") then None else Some s
  | None => None
  end.

(** [{ ...team, members: [...(team.members || []), joinName] }] *)
Definition add_member (t : Team) (n : string) : Team :=
  mkTeam (t_id t) (name t) (isReady t) (winnings t) (members t ++ [n]) (strategy t).
(** [{ ...r, teams }] *)
Definition with_teams (r : Room) (ts : list Team) : Room :=
  mkRoom (r_id r) (status r) ts (matches r).

(** [confirmJoin()].  [trim] is [String.prototype.trim]; [storageOk] tells
    whether [localStorage.setItem] went through (its exception is
    swallowed). *)
Definition confirmJoin (trim : string → string) (storageOk : bool) (a : App) : App :=
  if decide (trim (joinName a) = "") then
    mkApp (view a) (rooms a) (currentRoomId a) (currentTeamId a) (isAdminVisiting a)
      (pendingTeamId a) (joinName a) (showNameModal a) (userSession a)
      (S (nameAlerts a))
  else
  match truthyId (currentRoomId a), truthyId (pendingTeamId a) with
  | Some rid, Some tid =>
      match find_room (rooms a) rid with
      | Some room =>
          match find_team (teams room) tid with
          | Some team =>
              let rooms' :=
                if decide (joinName a ∈ members team) then rooms a
                else
                  let updatedTeam := add_member team (joinName a) in
                  (λ r, if decide (r_id r = rid)
                        then with_teams r (replace_team (t_id team) updatedTeam (teams r))
                        else r) <$> rooms a in
              mkApp USER_GAME rooms' (currentRoomId a) (pendingTeamId a) false
                (pendingTeamId a) (joinName a) false
                (if storageOk then Some (mkSession rid tid (joinName a))
                 else userSession a)
                (nameAlerts a)
          | None => a
          end
      | None => a
      end
  | _, _ => a
  end.

(** A landing page with the name modal open for team A of the room of
    [prepView]. *)
Definition joining (n : string) : App :=
  mkApp LANDING [room (prepView freshStrategy)] (Some "r") None false (Some "A") n true
    None 0.

(** ** Starting the game *)

(** The start button of the dashboard: [onUpdate({...room, status:
    'PLAYING'})], whatever the teams have submitted. *)
Definition startGame (r : Room) : Room :=
  mkRoom (r_id r) PLAYING (teams r) (matches r).

(** The room of [prepView] with its two teams paired, started before
    either has submitted a strategy, as team A sees it. *)
Definition unpreparedView : View :=
  viewOf (startGame (mkRoom "r" PREPARING (teams (room (prepView freshStrategy)))
                       [newMatch "m" "A" "B"])) "A".

(** ** The match in play

    What holds of a match between two teams while it is played, from its
    start to FINISHED. *)

(** What a strategy fixes for its rounds: the round numbers and the cards. *)
Definition plan (s : list RoundStrategy) : list (Z * Z) :=
  (λ x, (round x, card x)) <$> s.

(** What the round status says of the chips that the teams [A] and [B],
    with the strategies [s1] and [s2], hold on the current round, and of
    the confirmations of a result. *)
Definition stakes (m : Match) (A B : string) (s1 s2 : list RoundStrategy) : Prop :=
  match roundStatus m with
  | DECISION =>
      ∃ a b, at_index s1 (currentRound m - 1) = Some a ∧
             at_index s2 (currentRound m - 1) = Some b ∧
             ((chips a < chips b ∧ turnOwner m = Some A) ∨
              (chips b < chips a ∧ turnOwner m = Some B))
  | SHOWDOWN =>
      ∃ a b, at_index s1 (currentRound m - 1) = Some a ∧
             at_index s2 (currentRound m - 1) = Some b ∧ chips a = chips b
  | RESULT =>
      is_Some (lastRoundResult m) ∧
      truthy (resultConfirmed m) (teamAId m) && truthy (resultConfirmed m) (teamBId m) = false
  | _ => True
  end.

(** The statuses of a round that is not resolved yet. *)
Definition inPlay (s : RoundStatus) : Prop := s = READY ∨ s = DECISION ∨ s = SHOWDOWN.

(** The entries of the two teams that are set in resultConfirmed, and the
    place of a match in the order of play: by round, then by status, then
    by the confirmations of the result. *)
Definition confirmations (m : Match) : Z :=
  (if truthy (resultConfirmed m) (teamAId m) then 1 else 0)
  + (if truthy (resultConfirmed m) (teamBId m) then 1 else 0).

Definition progress (m : Match) : Z :=
  5 * currentRound m +
  match roundStatus m with
  | READY => 0
  | DECISION => 1
  | SHOWDOWN => 2
  | RESULT => 3 + confirmations m
  | FINISHED => 5
  end.

(** The match at [idx] of a room in play between the teams [A] and [B],
    with [t1] and [s1] the team [A] and its strategy, [t2] and [s2] those of
    [B]; [flip] tells that [A] is the team B of the match.  No other match
    of the room seats one of the two teams. *)
Record Sound (r : Room) (idx : nat) (A B : string) (flip : bool) (m : Match)
    (t1 t2 : Team) (s1 s2 : list RoundStrategy) (k1 k2 : list (Z * Z)) : Prop := {
  so_playing : status r = PLAYING;
  so_match : matches r !! idx = Some m;
  so_sides : if flip then teamAId m = B ∧ teamBId m = A
             else teamAId m = A ∧ teamBId m = B;
  so_distinct : A ≠ B;
  so_only : ∀ i m', matches r !! i = Some m' → i ≠ idx →
            teamAId m' ≠ A ∧ teamAId m' ≠ B ∧ teamBId m' ≠ A ∧ teamBId m' ≠ B;
  so_team1 : find_team (teams r) A = Some t1;
  so_team2 : find_team (teams r) B = Some t2;
  so_strat1 : strategy t1 = Some s1;
  so_strat2 : strategy t2 = Some s2;
  so_plan1 : plan s1 = k1;
  so_plan2 : plan s2 = k2;
  so_len1 : length s1 = 10%nat;
  so_len2 : length s2 = 10%nat;
  so_chips1 : Forall (λ x, 1 ≤ chips x) s1;
  so_chips2 : Forall (λ x, 1 ≤ chips x) s2;
  so_win1 : (0 ≤ winnings t1)%Qc;
  so_win2 : (0 ≤ winnings t2)%Qc;
  so_carry : 0 ≤ carryOver m;
  so_booked : Booked m;
  so_stakes : stakes m A B s1 s2
}.

(** A room that is sound for some match, teams and strategies. *)
Definition SoundRoom (r : Room) (idx : nat) (A B : string) (flip : bool)
    (k1 k2 : list (Z * Z)) : Prop :=
  ∃ m t1 t2 s1 s2, Sound r idx A B flip m t1 t2 s1 s2 k1 k2.

(** The room of a match that has moved on from [m]. *)
Definition Advanced (r : Room) (idx : nat) (A B : string) (flip : bool)
    (k1 k2 : list (Z * Z)) (m : Match) : Prop :=
  ∃ m' t1 t2 s1 s2, Sound r idx A B flip m' t1 t2 s1 s2 k1 k2 ∧ progress m < progress m'.

(** The start of a match: the room is in play, the match at [idx] is as
    the match maker made it with nothing negative carried over, its two
    teams are teams of the room that sit in no other match, and each has
    submitted ten rounds with at least one chip on each and owes nothing. *)
Record Kickoff (r : Room) (idx : nat) (m : Match) (tA tB : Team)
    (sA sB : list RoundStrategy) : Prop := {
  ko_playing : status r = PLAYING;
  ko_match : matches r !! idx = Some m;
  ko_fresh : FreshMatch m;
  ko_carry : 0 ≤ carryOver m;
  ko_distinct : teamAId m ≠ teamBId m;
  ko_only : ∀ i m', matches r !! i = Some m' → i ≠ idx →
            teamAId m' ≠ teamAId m ∧ teamAId m' ≠ teamBId m ∧
            teamBId m' ≠ teamAId m ∧ teamBId m' ≠ teamBId m;
  ko_teamA : find_team (teams r) (teamAId m) = Some tA;
  ko_teamB : find_team (teams r) (teamBId m) = Some tB;
  ko_stratA : strategy tA = Some sA;
  ko_stratB : strategy tB = Some sB;
  ko_lenA : length sA = 10%nat;
  ko_lenB : length sB = 10%nat;
  ko_chipsA : Forall (λ x, 1 ≤ chips x) sA;
  ko_chipsB : Forall (λ x, 1 ≤ chips x) sB;
  ko_winA : (0 ≤ winnings tA)%Qc;
  ko_winB : (0 ≤ winnings tB)%Qc
}.

(** What a move of a view may touch in its room: the match of the view,
    whose two sides stay, and the teams on the two sides. *)
Definition touches (w : View) (r' : Room) : Prop :=
  status r' = status (room w) ∧
  (r' = room w ∨
   ∃ i mi mi', myMatchEntry w = Some (i, mi) ∧
     matches r' = <[i := mi']> (matches (room w)) ∧
     teamAId mi' = teamAId mi ∧ teamBId mi' = teamBId mi ∧
     ∀ j, j ≠ teamAId mi → j ≠ teamBId mi →
          find_team (teams r') j = find_team (teams (room w)) j).

(** Two teams with the same ten rounds, three chips on each, and a game in
    which every round is drawn at the showdown: [finalDrawGame] is the room
    when the showdown of round 10 is due, 54 chips carried over. *)
Definition drawTeam (i : string) : Team :=
  exTeam i 0%Qc [(0,3);(1,3);(2,3);(3,3);(4,3);(5,3);(6,3);(7,3);(8,3);(9,3)].
Definition drawGame : Room :=
  room (exView "A" (drawTeam "A") (drawTeam "B") (exMatch 1 READY None 0 ∅)).
Definition toFinalDraw : list (string * Move) :=
  showdownRound ++ showdownRound ++ showdownRound ++ showdownRound ++ showdownRound
  ++ showdownRound ++ showdownRound ++ showdownRound ++ showdownRound
  ++ [("A", MReady)].
Definition finalDrawGame : Room := default drawGame (play drawGame toFinalDraw).
Definition finalDrawMatch : Match :=
  default (exMatch 1 READY None 0 ∅) (matches finalDrawGame !! 0%nat).

(** The room of [decisionGame] after team A has folded its round 5. *)
Definition foldedView : View :=
  default (viewOf decisionGame "A") (move MFold (viewOf decisionGame "A")).
Definition foldedMatch : Match :=
  default decisionMatch (matches (room foldedView) !! 0%nat).

(** Round 1 of [freshGame] after the showdown, which team B has won and
    confirmed: the view of team A shows the result modal with its confirm
    button. *)
Definition resultGame : Room :=
  default freshGame (play freshGame [("A", MReady); ("B", MShowdown); ("B", MConfirm)]).
Definition resultMatch : Match :=
  default (exMatch 1 READY None 0 ∅) (matches resultGame !! 0%nat).
Definition resultShown : View := viewOf resultGame "A".

(** * Properties *)

(** ** Lookups after an update *)

Lemma at_index_Some {A} (l : list A) i x :
  at_index l i = Some x ↔ 0 ≤ i ∧ l !! Z.to_nat i = Some x.
Proof.
  unfold at_index. case_decide.
  - split; [by intros | by intros [_ ?]].
  - split; [done | by intros [? _]].
Qed.

Lemma find_team_id ts i t : find_team ts i = Some t → t_id t = i.
Proof.
  unfold find_team. intros ([k t']&H&->)%fmap_Some.
  by apply list_find_Some in H as (_&?&_).
Qed.

Lemma find_team_fmap (f : Team → Team) ts j :
  (∀ t, t_id (f t) = t_id t) →
  find_team (f <$> ts) j = f <$> find_team ts j.
Proof.
  intros Hf. unfold find_team. rewrite list_find_fmap.
  rewrite (list_find_ext _ (λ t, t_id t = j)).
  - by destruct (list_find _ ts) as [[??]|].
  - intros t. simpl. by rewrite Hf.
Qed.

Lemma replace_team_id i u t :
  t_id u = i → t_id (if decide (t_id t = i) then u else t) = t_id t.
Proof. intros. by case_decide; simplify_eq. Qed.

Lemma find_team_replace_eq ts i u t :
  find_team ts i = Some t → t_id u = i →
  find_team (replace_team i u ts) i = Some u.
Proof.
  intros Ht Hu. unfold replace_team.
  rewrite find_team_fmap by (intros; by apply replace_team_id).
  rewrite Ht. simpl. apply find_team_id in Ht. by rewrite decide_True.
Qed.

Lemma find_team_replace_ne ts i j u :
  t_id u = i → i ≠ j →
  find_team (replace_team i u ts) j = find_team ts j.
Proof.
  intros Hu Hne. unfold replace_team.
  rewrite find_team_fmap by (intros; by apply replace_team_id).
  destruct (find_team ts j) as [t|] eqn:Ht; [|done].
  simpl. apply find_team_id in Ht. rewrite decide_False; [done|congruence].
Qed.

Lemma spread_ids m us :
  teamAId (spread m us) = teamAId m ∧ teamBId (spread m us) = teamBId m.
Proof.
  unfold spread. revert m. induction us as [|u us IH]; intros m; [done|].
  simpl. destruct (IH (assign m u)) as [-> ->]. by destruct m, u.
Qed.

Lemma syncStrategy_room v : room (syncStrategy v) = room v.
Proof. unfold syncStrategy. by repeat case_match. Qed.
Lemma syncStrategy_teamId v : teamId (syncStrategy v) = teamId v.
Proof. unfold syncStrategy. by repeat case_match. Qed.
Lemma syncStrategy_cells v :
  neededChips (syncStrategy v) = neededChips v ∧
  submitConfirmOpen (syncStrategy v) = submitConfirmOpen v ∧
  stealModalOpen (syncStrategy v) = stealModalOpen v ∧
  tempStrategy (syncStrategy v) = tempStrategy v ∧
  alerts (syncStrategy v) = alerts v ∧
  isAdminMode (syncStrategy v) = isAdminMode v.
Proof. unfold syncStrategy. by repeat case_match. Qed.

Lemma onUpdate_room v r : room (onUpdate v r) = r.
Proof. unfold onUpdate. by rewrite syncStrategy_room. Qed.
Lemma onUpdate_teamId v r : teamId (onUpdate v r) = teamId v.
Proof. unfold onUpdate. by rewrite syncStrategy_teamId. Qed.

Lemma myMatch_entry v idx m : myMatchEntry v = Some (idx, m) → myMatch v = Some m.
Proof. unfold myMatch. by intros ->. Qed.

Lemma Seated_ids v idx m t opp :
  Seated v idx m t opp →
  t_id t = teamId v ∧ t_id opp = opponentId v m ∧ t_id opp ≠ t_id t ∧
  find_team (teams (room v)) (opponentId v m) = Some opp.
Proof.
  intros [Hm Ht Ho Hd].
  unfold opponentTeam in Ho. rewrite (myMatch_entry _ _ _ Hm) in Ho. simpl in Ho.
  pose proof (find_team_id _ _ _ Ht) as Hti.
  pose proof (find_team_id _ _ _ Ho) as Hoi.
  apply list_find_Some in Hm as (_&Hside&_).
  split_and!; [done..| |done].
  rewrite Hti, Hoi. unfold opponentId, isTeamA.
  destruct (bool_decide_reflect (teamAId m = teamId v)) as [e|n]; [|done].
  intros E. apply Hd. congruence.
Qed.

(** What [updateTeamsAndMatch] leaves behind: the new teams, the match
    with the assignments spread over it, and the cells of the view as they
    were. *)
Lemma updateTeamsAndMatch_spec v ts us idx m :
  myMatchEntry v = Some (idx, m) →
  ∃ v', updateTeamsAndMatch v ts us = Some v' ∧
    teamId v' = teamId v ∧
    teams (room v') = ts ∧
    status (room v') = status (room v) ∧
    matches (room v') = <[idx := spread m us]> (matches (room v)) ∧
    myMatchEntry v' = Some (idx, spread m us).
Proof.
  intros Hm. unfold updateTeamsAndMatch. rewrite Hm. simpl.
  eexists; split; [done|].
  rewrite onUpdate_teamId.
  unfold myMatchEntry. rewrite onUpdate_room, onUpdate_teamId. simpl.
  split_and!; [done..|].
  destruct (spread_ids m us) as [Ha Hb].
  apply list_find_insert_Some. right; left.
  pose proof Hm as (Hl&HP&Hleast)%list_find_Some.
  split_and!; [done|done|by eapply lookup_lt_Some|by rewrite Ha, Hb|].
  intros i' z ??. by eapply Hleast.
Qed.

Lemma updateMatchState_spec v us idx m :
  myMatchEntry v = Some (idx, m) →
  ∃ v', updateMatchState v us = Some v' ∧
    teamId v' = teamId v ∧
    teams (room v') = teams (room v) ∧
    status (room v') = status (room v) ∧
    matches (room v') = <[idx := spread m us]> (matches (room v)) ∧
    myMatchEntry v' = Some (idx, spread m us).
Proof. apply (updateTeamsAndMatch_spec v (teams (room v))). Qed.

Lemma team_after v v' ts :
  teamId v' = teamId v → teams (room v') = ts →
  team v' = find_team ts (teamId v).
Proof. unfold team. by intros -> ->. Qed.

Lemma opponentTeam_after v v' ts idx m m' :
  teamId v' = teamId v → teams (room v') = ts →
  myMatchEntry v' = Some (idx, m') →
  teamAId m' = teamAId m → teamBId m' = teamBId m →
  opponentTeam v' = find_team ts (opponentId v m).
Proof.
  intros Hid Hts Hm Ha Hb. unfold opponentTeam.
  rewrite (myMatch_entry _ _ _ Hm). simpl.
  unfold opponentId, isTeamA. by rewrite Hid, Hts, Ha, Hb.
Qed.

(** ** Fold *)

Lemma handleFold_spec v idx m t opp ms os :
  Seated v idx m t opp →
  turnOwner m = Some (teamId v) →
  strat_at t (currentRound m - 1) = Some ms →
  strat_at opp (currentRound m - 1) = Some os →
  ∃ v' m' opp',
    handleFold v = Some v' ∧
    myMatchEntry v' = Some (idx, m') ∧
    team v' = Some t ∧
    opponentTeam v' = Some opp' ∧
    find_team (teams (room v')) (t_id t) = Some t ∧
    find_team (teams (room v')) (t_id opp) = Some opp' ∧
    winnings opp' = (winnings opp + Qc_of_Z (pot_of ms os m))%Qc ∧
    strategy opp' = strategy opp ∧
    roundStatus m' = RESULT ∧
    turnOwner m' = None ∧
    lastRoundResult m' = Some (foldResult v m ms os) ∧
    history m' = history m ++ [foldResult v m ms os] ∧
    resultConfirmed m' = ∅ ∧
    currentRound m' = currentRound m ∧
    carryOver m' = carryOver m.
Proof.
  intros HS Hturn Hms Hos.
  destruct (Seated_ids _ _ _ _ _ HS) as (Hti & Hoi & Hne & Hfo).
  destruct HS as [Hm Ht Ho Hd].
  unfold handleFold, isMyTurn. rewrite (myMatch_entry _ _ _ Hm).
  rewrite bool_decide_eq_true_2 by done. simpl.
  rewrite Ht; simpl. rewrite Hms; simpl. rewrite Ho; simpl. rewrite Hos; simpl.
  edestruct (updateTeamsAndMatch_spec v) as (v' & -> & Hid & Hts & _ & _ & Hme);
    [exact Hm|].
  destruct (spread_ids m
    [SetRoundStatus RESULT; SetTurnOwner None; SetLastAction (Some (teamId v, FOLD));
     SetLastRoundResult (Some (foldResult v m ms os)); SetResultConfirmed ∅;
     SetHistory (history m ++ [foldResult v m ms os])]) as [Ha Hb].
  eexists v', _, _. split; [done|]. split; [exact Hme|].
  split.
  { rewrite (team_after v v' _ Hid Hts).
    rewrite find_team_replace_ne; [exact Ht|done|]. by rewrite Hti in Hne. }
  split.
  { rewrite (opponentTeam_after v v' _ idx m _ Hid Hts Hme Ha Hb).
    rewrite <- Hoi. eapply find_team_replace_eq; [|done]. by rewrite Hoi. }
  split.
  { rewrite Hts, find_team_replace_ne; [by rewrite Hti|done..]. }
  split.
  { rewrite Hts. eapply find_team_replace_eq; [|done]. by rewrite Hoi. }
  by destruct m.
Qed.

(** C1 (the code departs from the claim): a fold by the turn owner in
    DECISION pays the whole pot, own chips + opponent chips + carry-over, to
    the opponent, records <side>_FOLDED with potWon = pot and moves the
    match to RESULT, but it writes no carry-over: the match keeps the
    carry-over it had, so a positive carry-over is not reset to 0. *)
Theorem C1_fold_keeps_carryOver v idx m t opp ms os :
  Seated v idx m t opp →
  roundStatus m = DECISION →
  turnOwner m = Some (teamId v) →
  strat_at t (currentRound m - 1) = Some ms →
  strat_at opp (currentRound m - 1) = Some os →
  ∃ v' m' opp' res,
    handleFold v = Some v' ∧
    myMatch v' = Some m' ∧
    opponentTeam v' = Some opp' ∧
    winnings opp' = (winnings opp + Qc_of_Z (chips ms + chips os + carryOver m))%Qc ∧
    lastRoundResult m' = Some res ∧
    result res = (if isTeamA v m then A_FOLDED else B_FOLDED) ∧
    potWon res = chips ms + chips os + carryOver m ∧
    roundStatus m' = RESULT ∧
    carryOver m' = carryOver m.
Proof.
  intros HS _ Hturn Hms Hos.
  destruct (handleFold_spec v idx m t opp ms os HS Hturn Hms Hos)
    as (v' & m' & opp' & Hv & Hm' & _ & Ho & _ & _ & Hw & _ & Hrs & _ & Hlr & _ & _ & _ & Hco).
  exists v', m', opp', (foldResult v m ms os).
  rewrite (myMatch_entry _ _ _ Hm'). by split_and!.
Qed.

Lemma C1_fold_keeps_carryOver_witness :
  ∃ v' m' opp' res,
    handleFold scenarioC = Some v' ∧
    myMatch v' = Some m' ∧
    opponentTeam v' = Some opp' ∧
    winnings opp' = (0 + Qc_of_Z (3 + 6 + 1))%Qc ∧
    lastRoundResult m' = Some res ∧
    result res = A_FOLDED ∧
    potWon res = 3 + 6 + 1 ∧
    roundStatus m' = RESULT ∧
    carryOver m' = 1.
Proof.
  apply (C1_fold_keeps_carryOver scenarioC 0%nat
           (exMatch 5 DECISION (Some "A") 1 ∅)
           (exTeam "A" 0%Qc [(0,3);(1,3);(2,3);(3,3);(4,3);(5,3);(6,3);(7,3);(8,3);(9,3)])
           (exTeam "B" 0%Qc [(9,3);(8,3);(7,3);(6,3);(4,6);(5,3);(3,3);(2,3);(1,2);(0,1)])
           (mkRoundStrategy 5 4 3) (mkRoundStrategy 5 4 6)).
  - split; [reflexivity | reflexivity | reflexivity | discriminate].
  - reflexivity.
  - reflexivity.
  - reflexivity.
  - reflexivity.
Defined.

(** The earlier fold, on the same input, does write the carry-over (and the
    pot) back to 0; it advances the round at once. *)
Lemma Legacy_handleFold_scenarioC :
  ∃ v' m',
    Legacy.handleFold scenarioC = Some v' ∧
    myMatch v' = Some m' ∧
    carryOver m' = 0 ∧ roundStatus m' = READY ∧ currentRound m' = 6.
Proof. eexists _, _. split_and!; reflexivity. Qed.

(** ** Showdown *)

(** The team of the view sits on one of the two seats. *)
Lemma Seats_Seated v idx m tA tB sA sB :
  Seats v idx m tA tB sA sB →
  (isTeamA v m = true ∧ Seated v idx m tA tB) ∨
  (isTeamA v m = false ∧ Seated v idx m tB tA).
Proof.
  intros [Hm HA HB Hd _ _].
  pose proof Hm as (_ & Hside & _)%list_find_Some.
  unfold isTeamA.
  destruct (bool_decide_reflect (teamAId m = teamId v)) as [e|n]; [left|right];
    (split; [done|]); split; try done; unfold team, opponentTeam;
    rewrite ?(myMatch_entry _ _ _ Hm); simpl; unfold opponentId, isTeamA.
  - by rewrite <- e.
  - by rewrite bool_decide_eq_true_2.
  - destruct Hside as [?|e]; [done|]. by rewrite <- e.
  - by rewrite bool_decide_eq_false_2.
Qed.

(** The teams after [room.teams.map(t => t.id === teamA.id ? a : (t.id ===
    teamB.id ? b : t))]. *)
Lemma find_showdown_teams ts (tA tB a b : Team) iA iB :
  find_team ts iA = Some tA → find_team ts iB = Some tB → iA ≠ iB →
  t_id a = t_id tA → t_id b = t_id tB →
  let ts' := (λ t, if decide (t_id t = t_id tA) then a
                   else if decide (t_id t = t_id tB) then b else t) <$> ts in
  find_team ts' iA = Some a ∧ find_team ts' iB = Some b.
Proof.
  intros HA HB Hd Ha Hb ts'.
  pose proof (find_team_id _ _ _ HA) as HAi.
  pose proof (find_team_id _ _ _ HB) as HBi.
  unfold ts'. rewrite !find_team_fmap, HA, HB; simpl.
  - rewrite decide_True by done. rewrite decide_False by congruence.
    by rewrite decide_True.
  - intros t. repeat case_decide; congruence.
  - intros t. repeat case_decide; congruence.
Qed.

Lemma handleShowdown_spec v idx m tA tB sA sB :
  Seats v idx m tA tB sA sB →
  roundStatus m = SHOWDOWN →
  ∃ v' m' tA' tB' res,
    handleShowdown v = Some v' ∧
    myMatchEntry v' = Some (idx, m') ∧
    find_team (teams (room v')) (teamAId m) = Some tA' ∧
    find_team (teams (room v')) (teamBId m) = Some tB' ∧
    strategy tA' = strategy tA ∧ strategy tB' = strategy tB ∧
    roundStatus m' = RESULT ∧
    turnOwner m' = None ∧
    lastRoundResult m' = Some res ∧
    history m' = history m ++ [res] ∧
    resultConfirmed m' = ∅ ∧
    currentRound m' = currentRound m ∧
    r_round res = currentRound m ∧
    teamAChips res = chips sA ∧ teamBChips res = chips sB ∧
    teamACard res = card sA ∧ teamBCard res = card sB ∧
    (result res, potWon res, winnings tA', winnings tB', carryOver m',
     teamAScore m', teamBScore m') = showdownOutcome m tA tB sA sB.
Proof.
  intros [Hm HA HB Hd HsA HsB] Hst.
  unfold handleShowdown. rewrite (myMatch_entry _ _ _ Hm). simpl.
  rewrite decide_False by (by intros []).
  rewrite HA; simpl. rewrite HB; simpl. rewrite HsA; simpl. rewrite HsB; simpl.
  unfold showdownOutcome, pot_of.
  repeat case_decide; try done;
    match goal with
    | |- context [fmap (λ t, if decide (t_id t = t_id tA) then ?a
                             else if decide (t_id t = t_id tB) then ?b else t) _] =>
        destruct (find_showdown_teams (teams (room v)) tA tB a b _ _
                    HA HB Hd eq_refl eq_refl) as [HfA HfB]
    end;
    (edestruct (updateTeamsAndMatch_spec v) as (v' & -> & Hid & Hts & _ & _ & Hme);
     [exact Hm|]);
    eexists v', _, _, _, _;
    (split; [done|]); (split; [exact Hme|]);
    rewrite Hts; (split; [exact HfA|]); (split; [exact HfB|]);
    by destruct m.
Qed.

(** Half of an integer added to integers: the sum is the half of an integer,
    and it is no integer when the halved one is odd. *)
Lemma Qc_half_split a c :
  (Qc_of_Z a + Qc_of_Z c / 2)%Qc = (Qc_of_Z (a + a + c) / 2)%Qc.
Proof. rewrite !Z2Qc_inj_add. field. done. Qed.

Lemma Qc_half_odd w a c z :
  Z.odd c = true → (Qc_of_Z w + (Qc_of_Z a + Qc_of_Z c / 2))%Qc ≠ Qc_of_Z z.
Proof.
  intros Hodd Heq.
  assert (Hc : Qc_of_Z c = Qc_of_Z (2 * (z - w - a))).
  { rewrite Z2Qc_inj_mul, !Z2Qc_inj_sub, Z2Qc_inj_2, <- Heq. field. done. }
  apply Z2Qc_inj in Hc. rewrite Hc, Z.odd_mul in Hodd. done.
Qed.

Lemma finalDraw_Seats a b co :
  Seats (finalDraw a b co) 0
    (exMatch 10 SHOWDOWN None co ∅)
    (exTeam "A" 0%Qc [(0,3);(1,3);(2,3);(3,3);(4,3);(5,3);(6,3);(8,3);(9,3);(7,a)])
    (exTeam "B" 0%Qc [(9,3);(8,3);(6,3);(5,3);(4,3);(3,3);(2,3);(1,3);(0,3);(7,b)])
    (mkRoundStrategy 10 7 a) (mkRoundStrategy 10 7 b).
Proof. split; [reflexivity..|discriminate|reflexivity|reflexivity]. Defined.

(** What the handler does on a showdown draw in the final round, whatever
    the chips: each team's winnings grow by its own round chips plus half
    the carry-over, which is half the pot for each when the two teams'
    round chips are equal; the result is DRAW with potWon = 0 and the match
    moves to RESULT.  The quotient is not rounded: with an odd carry-over,
    integer winnings become non-integer. *)
Lemma final_draw_shares v idx m tA tB sA sB :
  Seats v idx m tA tB sA sB →
  roundStatus m = SHOWDOWN →
  currentRound m = TOTAL_ROUNDS →
  card sA = card sB →
  ∃ v' m' tA' tB' res,
    handleShowdown v = Some v' ∧
    myMatch v' = Some m' ∧
    find_team (teams (room v')) (teamAId m) = Some tA' ∧
    find_team (teams (room v')) (teamBId m) = Some tB' ∧
    winnings tA' = (winnings tA + (Qc_of_Z (chips sA) + Qc_of_Z (carryOver m) / 2))%Qc ∧
    winnings tB' = (winnings tB + (Qc_of_Z (chips sB) + Qc_of_Z (carryOver m) / 2))%Qc ∧
    (chips sA = chips sB →
     winnings tA' = (winnings tA + Qc_of_Z (chips sA + chips sB + carryOver m) / 2)%Qc ∧
     winnings tB' = (winnings tB + Qc_of_Z (chips sA + chips sB + carryOver m) / 2)%Qc) ∧
    lastRoundResult m' = Some res ∧
    result res = DRAW ∧ potWon res = 0 ∧
    roundStatus m' = RESULT ∧
    (Z.odd (carryOver m) = true →
     ∀ wA wB, winnings tA = Qc_of_Z wA → winnings tB = Qc_of_Z wB →
     ∀ z, winnings tA' ≠ Qc_of_Z z ∧ winnings tB' ≠ Qc_of_Z z).
Proof.
  intros HS Hst Hfinal Hcard.
  destruct (handleShowdown_spec v idx m tA tB sA sB HS Hst)
    as (v' & m' & tA' & tB' & res & Hv & Hm' & HA' & HB' & _ & _ & Hrs & _ & Hlr
        & _ & _ & _ & _ & _ & _ & _ & _ & Hout).
  unfold showdownOutcome in Hout.
  rewrite decide_False, decide_False, decide_True in Hout by lia.
  injection Hout as Hres Hpw HwA HwB _ _ _.
  exists v', m', tA', tB', res.
  rewrite (myMatch_entry _ _ _ Hm').
  split_and!; try done.
  - intros Heq. rewrite HwA, HwB, <- Heq. by rewrite Qc_half_split.
  - intros Hodd wA wB EA EB z. rewrite HwA, HwB, EA, EB.
    split; by apply Qc_half_odd.
Qed.

Example final_draw_unrounded :
  ∃ v' m' tA' tB' res,
    handleShowdown oddFinalDraw = Some v' ∧
    myMatch v' = Some m' ∧
    find_team (teams (room v')) "A" = Some tA' ∧
    find_team (teams (room v')) "B" = Some tB' ∧
    winnings tA' = (0 + (Qc_of_Z 4 + Qc_of_Z 3 / 2))%Qc ∧
    winnings tB' = (0 + (Qc_of_Z 4 + Qc_of_Z 3 / 2))%Qc ∧
    (4 = 4 →
     winnings tA' = (0 + Qc_of_Z (4 + 4 + 3) / 2)%Qc ∧
     winnings tB' = (0 + Qc_of_Z (4 + 4 + 3) / 2)%Qc) ∧
    lastRoundResult m' = Some res ∧
    result res = DRAW ∧ potWon res = 0 ∧
    roundStatus m' = RESULT ∧
    (Z.odd 3 = true →
     ∀ wA wB, 0%Qc = Qc_of_Z wA → 0%Qc = Qc_of_Z wB →
     ∀ z, winnings tA' ≠ Qc_of_Z z ∧ winnings tB' ≠ Qc_of_Z z).
Proof.
  apply (final_draw_shares oddFinalDraw 0%nat _ _ _ _ _ (finalDraw_Seats 4 4 3));
    reflexivity.
Qed.

(** ** Pot conservation *)

(** C5, as stated, fails on a final-round draw: in Scenario B the round is
    the last one, so the draw is not a non-final draw, and potWon is 0
    while the pot is 4 + 4 + 2. *)
Lemma C5_counterexample :
  ∃ v' m' res,
    handleShowdown scenarioB = Some v' ∧
    myMatch v' = Some m' ∧
    lastRoundResult m' = Some res ∧
    result res = DRAW ∧
    r_round res = TOTAL_ROUNDS ∧
    potWon res = 0 ∧
    potWon res ≠ teamAChips res + teamBChips res + 2.
Proof. eexists _, _, _. split_and!; [reflexivity..|done]. Qed.

(** C5 (amended): after a fold or a showdown, when a team folded or a card
    was higher, potWon is the pot, chipsA + chipsB + carryOverBefore, the
    winner's winnings grow by exactly potWon and the other team's stay; on
    every draw potWon is 0: on a non-final draw neither team's winnings
    change and the carry-over afterwards is the pot, on a final-round draw
    each team's winnings grow by its own round chips plus half the
    carry-over. *)
Theorem C5_pot_conservation r v idx m tA tB sA sB :
  Seats v idx m tA tB sA sB →
  mayResolve r v m →
  ∃ v' m' tA' tB' res,
    resolve r v = Some v' ∧
    myMatch v' = Some m' ∧
    find_team (teams (room v')) (teamAId m) = Some tA' ∧
    find_team (teams (room v')) (teamBId m) = Some tB' ∧
    lastRoundResult m' = Some res ∧
    let pot := chips sA + chips sB + carryOver m in
    match result res with
    | A_WON | B_FOLDED =>
        potWon res = pot ∧
        winnings tA' = (winnings tA + Qc_of_Z (potWon res))%Qc ∧
        winnings tB' = winnings tB
    | B_WON | A_FOLDED =>
        potWon res = pot ∧
        winnings tB' = (winnings tB + Qc_of_Z (potWon res))%Qc ∧
        winnings tA' = winnings tA
    | DRAW =>
        potWon res = 0 ∧
        if decide (currentRound m = TOTAL_ROUNDS) then
          winnings tA' = (winnings tA + (Qc_of_Z (chips sA) + Qc_of_Z (carryOver m) / 2))%Qc ∧
          winnings tB' = (winnings tB + (Qc_of_Z (chips sB) + Qc_of_Z (carryOver m) / 2))%Qc
        else
          winnings tA' = winnings tA ∧ winnings tB' = winnings tB ∧
          carryOver m' = pot
    end.
Proof.
  intros HS Hmay. destruct r; simpl in Hmay |- *.
  - destruct Hmay as [_ Hturn].
    pose proof (find_team_id _ _ _ (sd_teamA _ _ _ _ _ _ _ HS)) as HAi.
    pose proof (find_team_id _ _ _ (sd_teamB _ _ _ _ _ _ _ HS)) as HBi.
    destruct (Seats_Seated _ _ _ _ _ _ _ HS) as [[HisA Hseat]|[HisA Hseat]].
    + destruct (handleFold_spec v idx m tA tB sA sB Hseat Hturn
                  (sd_stratA _ _ _ _ _ _ _ HS) (sd_stratB _ _ _ _ _ _ _ HS))
        as (v' & m' & opp' & Hv & Hm' & _ & _ & Ht & Ho & Hw & _ & _ & _ & Hlr & _).
      exists v', m', tA, opp', (foldResult v m sA sB).
      rewrite (myMatch_entry _ _ _ Hm'), <- HAi, <- HBi.
      split_and!; try done.
      unfold foldResult; rewrite HisA; simpl. by rewrite Hw.
    + destruct (handleFold_spec v idx m tB tA sB sA Hseat Hturn
                  (sd_stratB _ _ _ _ _ _ _ HS) (sd_stratA _ _ _ _ _ _ _ HS))
        as (v' & m' & opp' & Hv & Hm' & _ & _ & Ht & Ho & Hw & _ & _ & _ & Hlr & _).
      exists v', m', opp', tB, (foldResult v m sB sA).
      rewrite (myMatch_entry _ _ _ Hm'), <- HAi, <- HBi.
      split_and!; try done.
      unfold foldResult; rewrite HisA; simpl. rewrite Hw. unfold pot_of.
      split_and!; [lia|done|done].
  - destruct (handleShowdown_spec v idx m tA tB sA sB HS Hmay)
      as (v' & m' & tA' & tB' & res & Hv & Hm' & HA' & HB' & _ & _ & _ & _ & Hlr
          & _ & _ & _ & _ & _ & _ & _ & _ & Hout).
    exists v', m', tA', tB', res.
    rewrite (myMatch_entry _ _ _ Hm').
    split_and!; try done.
    unfold showdownOutcome, pot_of in Hout. simpl.
    repeat case_decide; injection Hout as Hres Hpw HwA HwB Hco _ _;
      rewrite Hres; simpl; rewrite ?decide_True, ?decide_False by done;
      by rewrite Hpw, HwA, HwB, ?Hco.
Qed.

Lemma C5_pot_conservation_witness :
  ∃ v' m' tA' tB' res,
    handleShowdown scenarioB = Some v' ∧
    myMatch v' = Some m' ∧
    find_team (teams (room v')) "A" = Some tA' ∧
    find_team (teams (room v')) "B" = Some tB' ∧
    lastRoundResult m' = Some res ∧
    match result res with
    | A_WON | B_FOLDED =>
        potWon res = 4 + 4 + 2 ∧
        winnings tA' = (0 + Qc_of_Z (potWon res))%Qc ∧ winnings tB' = 0%Qc
    | B_WON | A_FOLDED =>
        potWon res = 4 + 4 + 2 ∧
        winnings tB' = (0 + Qc_of_Z (potWon res))%Qc ∧ winnings tA' = 0%Qc
    | DRAW =>
        potWon res = 0 ∧
        winnings tA' = (0 + (Qc_of_Z 4 + Qc_of_Z 2 / 2))%Qc ∧
        winnings tB' = (0 + (Qc_of_Z 4 + Qc_of_Z 2 / 2))%Qc
    end.
Proof.
  apply (C5_pot_conservation ByShowdown scenarioB 0%nat _ _ _ _ _ (finalDraw_Seats 4 4 2)).
  reflexivity.
Defined.

(** ** Call *)

Lemma foldl_add_chips a (l : list RoundStrategy) :
  foldl (λ acc x, acc + chips x) a l = a + sum_chips l.
Proof.
  unfold sum_chips. revert a. induction l as [|x l IH]; intros a; simpl; [lia|].
  rewrite (IH (a + chips x)), (IH (0 + chips x)). lia.
Qed.

Lemma sum_chips_cons x l : sum_chips (x :: l) = chips x + sum_chips l.
Proof. unfold sum_chips at 1. simpl. by rewrite foldl_add_chips. Qed.

Lemma sum_chips_insert l i x y :
  l !! i = Some x → sum_chips (<[i := y]> l) = sum_chips l - chips x + chips y.
Proof.
  revert i. induction l as [|z l IH]; intros [|i] H; simplify_eq/=.
  - rewrite !sum_chips_cons. lia.
  - rewrite !sum_chips_cons, (IH i) by done. lia.
Qed.

Lemma add_chips_at_insert s n x d :
  s !! n = Some x →
  add_chips_at s (Z.of_nat n) d = <[n := with_chips x (chips x + d)]> s.
Proof.
  intros Hx. unfold add_chips_at. apply list_eq. intros i.
  rewrite list_lookup_imap. destruct (decide (i = n)) as [->|Hne].
  - rewrite list_lookup_insert_eq by (by eapply lookup_lt_Some).
    rewrite Hx. simpl. by rewrite decide_True.
  - rewrite list_lookup_insert_ne by done.
    destruct (s !! i); simpl; [|done]. rewrite decide_False; [done|lia].
Qed.

Lemma handleCall_funded v idx m t opp s ms os :
  Seated v idx m t opp →
  turnOwner m = Some (teamId v) →
  strategy t = Some s →
  at_index s (currentRound m - 1) = Some ms →
  strat_at opp (currentRound m - 1) = Some os →
  (Qc_of_Z (chips os - chips ms) ≤ winnings t)%Qc →
  let diff := chips os - chips ms in
  let n := Z.to_nat (currentRound m - 1) in
  ∃ v' m' t',
    handleCall v = Some v' ∧
    myMatchEntry v' = Some (idx, m') ∧
    team v' = Some t' ∧
    opponentTeam v' = Some opp ∧
    winnings t' = (winnings t - Qc_of_Z diff)%Qc ∧
    strategy t' = Some (<[n := with_chips ms (chips ms + diff)]> s) ∧
    roundStatus m' = SHOWDOWN ∧
    turnOwner m' = None ∧
    currentRound m' = currentRound m ∧
    carryOver m' = carryOver m ∧
    resultConfirmed m' = resultConfirmed m ∧
    lastRoundResult m' = lastRoundResult m ∧
    history m' = history m.
Proof.
  intros HS Hturn Hs Hms Hos Hle diff n.
  destruct (Seated_ids _ _ _ _ _ HS) as (Hti & Hoi & Hne & Hfo).
  destruct HS as [Hm Ht Ho Hd].
  pose proof Hms as [Hge Hl]%at_index_Some.
  unfold handleCall, isMyTurn. rewrite (myMatch_entry _ _ _ Hm).
  rewrite bool_decide_eq_true_2 by done. simpl.
  assert (Hst : strat_at t (currentRound m - 1) = Some ms)
    by (unfold strat_at; by rewrite Hs).
  rewrite Ht; simpl. rewrite Hst; simpl. rewrite Ho; simpl. rewrite Hos; simpl.
  rewrite decide_True by done. simpl. rewrite Hs; simpl.
  edestruct (updateTeamsAndMatch_spec v) as (v' & -> & Hid & Hts & _ & _ & Hme);
    [exact Hm|].
  destruct (spread_ids m
    [SetRoundStatus SHOWDOWN; SetTurnOwner None;
     SetLastAction (Some (teamId v, CALL))]) as [Ha Hb].
  eexists v', _, _. split; [done|]. split; [exact Hme|].
  split.
  { rewrite (team_after v v' _ Hid Hts).
    eapply find_team_replace_eq; [exact Ht|done]. }
  split.
  { rewrite (opponentTeam_after v v' _ idx m _ Hid Hts Hme Ha Hb).
    rewrite find_team_replace_ne; [done|done|]. rewrite <- Hti, <- Hoi. congruence. }
  split; [done|]. split.
  { simpl. f_equal. rewrite <- (Z2Nat.id (currentRound m - 1)) at 1 by done.
    by apply add_chips_at_insert. }
  by destruct m.
Qed.

Lemma handleCall_underfunded v idx m t opp s ms os :
  Seated v idx m t opp →
  turnOwner m = Some (teamId v) →
  strategy t = Some s →
  at_index s (currentRound m - 1) = Some ms →
  strat_at opp (currentRound m - 1) = Some os →
  (winnings t < Qc_of_Z (chips os - chips ms))%Qc →
  handleCall v =
    Some (setStealModalOpen
            (setTempStrategy
               (setNeededChips v (Qc_of_Z (chips os - chips ms) - winnings t)%Qc) s)
            true).
Proof.
  intros HS Hturn Hs Hms Hos Hlt.
  destruct HS as [Hm Ht Ho Hd].
  unfold handleCall, isMyTurn. rewrite (myMatch_entry _ _ _ Hm).
  rewrite bool_decide_eq_true_2 by done. simpl.
  assert (Hst : strat_at t (currentRound m - 1) = Some ms)
    by (unfold strat_at; by rewrite Hs).
  rewrite Ht; simpl. rewrite Hst; simpl. rewrite Ho; simpl. rewrite Hos; simpl.
  rewrite decide_False by (by apply Qclt_not_le). simpl.
  by rewrite Hs.
Qed.

Lemma scenarioA_Seated w rs owner :
  Seated (scenarioA_view w rs owner) 0 (exMatch 3 rs owner 0 ∅)
    (scenarioA_teamA w) scenarioA_teamB.
Proof. split; [reflexivity..|discriminate]. Defined.

(** C8: a call by the turn owner in DECISION, with diff = opponent's round
    chips - own round chips.  With winnings >= diff, diff leaves the winnings
    and enters the caller's chips of the current round, which then equal
    the opponent's; no other round and nothing of the opponent changes, and
    the match is in SHOWDOWN.  With winnings < diff the room, and so every
    match and team, is unchanged, and the steal modal opens with
    needed = diff - winnings. *)
Theorem C8_call v idx m t opp s ms os :
  Seated v idx m t opp →
  roundStatus m = DECISION →
  turnOwner m = Some (teamId v) →
  strategy t = Some s →
  at_index s (currentRound m - 1) = Some ms →
  strat_at opp (currentRound m - 1) = Some os →
  let diff := chips os - chips ms in
  ∃ v', handleCall v = Some v' ∧
    ((Qc_of_Z diff ≤ winnings t)%Qc →
     ∃ m' t' ms',
       myMatch v' = Some m' ∧ team v' = Some t' ∧ opponentTeam v' = Some opp ∧
       winnings t' = (winnings t - Qc_of_Z diff)%Qc ∧
       strat_at t' (currentRound m - 1) = Some ms' ∧
       chips ms' = chips ms + diff ∧ chips ms' = chips os ∧
       (∀ i, i ≠ currentRound m - 1 → strat_at t' i = strat_at t i) ∧
       roundStatus m' = SHOWDOWN ∧ currentRound m' = currentRound m) ∧
    ((winnings t < Qc_of_Z diff)%Qc →
     room v' = room v ∧
     stealModalOpen v' = true ∧
     neededChips v' = (Qc_of_Z diff - winnings t)%Qc).
Proof.
  intros HS _ Hturn Hs Hms Hos diff.
  destruct (Qclt_le_dec (winnings t) (Qc_of_Z diff)) as [Hlt|Hle].
  - rewrite (handleCall_underfunded v idx m t opp s ms os) by done.
    eexists. split; [done|]. split; [|done].
    intros Hle. by apply Qcle_not_lt in Hle.
  - destruct (handleCall_funded v idx m t opp s ms os HS Hturn Hs Hms Hos Hle)
      as (v' & m' & t' & Hv & Hm' & Ht' & Ho' & Hw & Hs' & Hrs & _ & Hcr & _).
    exists v'. split; [done|]. split; [|intros Hlt; by apply Qclt_not_le in Hlt].
    intros _. exists m', t', (with_chips ms (chips ms + diff)).
    pose proof Hms as [Hge Hl]%at_index_Some.
    rewrite (myMatch_entry _ _ _ Hm').
    split_and!; try done.
    + unfold strat_at. rewrite Hs'. simpl. apply at_index_Some. split; [done|].
      apply list_lookup_insert_eq. by eapply lookup_lt_Some.
    + simpl. unfold diff. lia.
    + intros i Hi. unfold strat_at. rewrite Hs', Hs. simpl.
      unfold at_index. case_decide; [|done].
      apply list_lookup_insert_ne. lia.
Qed.

Lemma C8_call_witness :
  ∃ v', handleCall scenarioA = Some v' ∧
    ((Qc_of_Z (5 - 2) ≤ Qc_of_Z 10)%Qc →
     ∃ m' t' ms',
       myMatch v' = Some m' ∧ team v' = Some t' ∧
       opponentTeam v' = Some scenarioA_teamB ∧
       winnings t' = (Qc_of_Z 10 - Qc_of_Z (5 - 2))%Qc ∧
       strat_at t' (3 - 1) = Some ms' ∧
       chips ms' = 2 + (5 - 2) ∧ chips ms' = 5 ∧
       (∀ i, i ≠ 3 - 1 → strat_at t' i = strat_at (scenarioA_teamA (Qc_of_Z 10)) i) ∧
       roundStatus m' = SHOWDOWN ∧ currentRound m' = 3) ∧
    ((Qc_of_Z 10 < Qc_of_Z (5 - 2))%Qc →
     room v' = room scenarioA ∧
     stealModalOpen v' = true ∧
     neededChips v' = (Qc_of_Z (5 - 2) - Qc_of_Z 10)%Qc).
Proof.
  apply (C8_call scenarioA 0%nat _ _ _
           (mkStrategy [(0,3);(1,3);(5,2);(2,3);(3,3);(4,3);(6,3);(7,3);(8,3);(9,4)])
           (mkRoundStrategy 3 5 2) (mkRoundStrategy 3 3 5)
           (scenarioA_Seated (Qc_of_Z 10) DECISION (Some "A")));
    reflexivity.
Defined.

(** ** READY evaluation *)

Lemma readyEffect_teamA v idx m t opp ms os :
  status (room v) = PLAYING →
  Seated v idx m t opp →
  roundStatus m = READY →
  isTeamA v m = true →
  strat_at t (currentRound m - 1) = Some ms →
  strat_at opp (currentRound m - 1) = Some os →
  readyEffect v =
    if decide (chips ms = chips os) then updateMatchState v [SetRoundStatus SHOWDOWN]
    else updateMatchState v
           [SetRoundStatus DECISION;
            SetTurnOwner (Some (if decide (chips ms < chips os) then t_id t else t_id opp))].
Proof.
  intros Hst [Hm Ht Ho Hd] Hrs HA Hms Hos.
  unfold readyEffect. rewrite decide_False by (by intros []).
  rewrite (myMatch_entry _ _ _ Hm), Ht, Ho, HA. simpl.
  unfold strat_at in Hms, Hos.
  destruct (strategy t) as [s|]; [|done]. destruct (strategy opp) as [s'|]; [|done].
  simpl in *. rewrite decide_True by done. rewrite Hms, Hos. simpl.
  by repeat case_decide.
Qed.

(** C9: in a playing room with the match in READY, the evaluation does
    nothing for the team on the B seat; for the team on the A seat it
    compares the two teams' chips of the current round and writes SHOWDOWN
    when they are equal, and otherwise DECISION with the turn given to the
    team holding the fewer chips; teams, round and carry-over are left as
    they were. *)
Theorem C9_ready_evaluation v idx m t opp ms os :
  status (room v) = PLAYING →
  Seated v idx m t opp →
  roundStatus m = READY →
  strat_at t (currentRound m - 1) = Some ms →
  strat_at opp (currentRound m - 1) = Some os →
  (isTeamA v m = false → readyEffect v = Some v) ∧
  (isTeamA v m = true →
   ∃ v' m',
     readyEffect v = Some v' ∧ myMatch v' = Some m' ∧
     teams (room v') = teams (room v) ∧
     currentRound m' = currentRound m ∧ carryOver m' = carryOver m ∧
     (chips ms = chips os → roundStatus m' = SHOWDOWN) ∧
     (chips ms < chips os → roundStatus m' = DECISION ∧ turnOwner m' = Some (t_id t)) ∧
     (chips os < chips ms → roundStatus m' = DECISION ∧ turnOwner m' = Some (t_id opp))).
Proof.
  intros Hst HS Hrs Hms Hos. split.
  - intros HB. destruct HS as [Hm Ht Ho Hd].
    unfold readyEffect. rewrite decide_False by (by intros []).
    by rewrite (myMatch_entry _ _ _ Hm), Ht, Ho, HB.
  - intros HA. rewrite (readyEffect_teamA v idx m t opp ms os) by done.
    destruct HS as [Hm Ht Ho Hd].
    case_decide as Heq.
    + destruct (updateMatchState_spec v [SetRoundStatus SHOWDOWN] idx m Hm)
        as (v' & -> & _ & Hts & _ & _ & Hme).
      eexists v', _. rewrite (myMatch_entry _ _ _ Hme).
      split_and!; try done; try (by destruct m); intros; lia.
    + edestruct (updateMatchState_spec v) as (v' & -> & _ & Hts & _ & _ & Hme);
        [exact Hm|].
      eexists v', _. rewrite (myMatch_entry _ _ _ Hme).
      split_and!; try done; try (by destruct m).
      * intros Hlt. rewrite decide_True by done. by destruct m.
      * intros Hlt. rewrite decide_False by lia. by destruct m.
Qed.

Lemma C9_ready_evaluation_witness :
  (isTeamA (scenarioA_view 0%Qc READY None) (exMatch 3 READY None 0 ∅) = false →
   readyEffect (scenarioA_view 0%Qc READY None) = Some (scenarioA_view 0%Qc READY None)) ∧
  (isTeamA (scenarioA_view 0%Qc READY None) (exMatch 3 READY None 0 ∅) = true →
   ∃ v' m',
     readyEffect (scenarioA_view 0%Qc READY None) = Some v' ∧ myMatch v' = Some m' ∧
     teams (room v') = teams (room (scenarioA_view 0%Qc READY None)) ∧
     currentRound m' = 3 ∧ carryOver m' = 0 ∧
     (2 = 5 → roundStatus m' = SHOWDOWN) ∧
     (2 < 5 → roundStatus m' = DECISION ∧ turnOwner m' = Some "A") ∧
     (5 < 2 → roundStatus m' = DECISION ∧ turnOwner m' = Some "B")).
Proof.
  apply (C9_ready_evaluation (scenarioA_view 0%Qc READY None) 0%nat _ _ _
           (mkRoundStrategy 3 5 2) (mkRoundStrategy 3 3 5)
           eq_refl (scenarioA_Seated 0%Qc READY None));
    reflexivity.
Defined.

(** ** Result confirmation *)

Lemma truthy_confirmedBy_self v m : truthy (confirmedBy v m) (teamId v) = true.
Proof. unfold truthy, confirmedBy. by rewrite lookup_insert_eq. Qed.

(** With the own entry set, the barrier holds exactly when the opponent's
    entry does. *)
Lemma bothConfirmed_opponent v idx m :
  myMatchEntry v = Some (idx, m) →
  teamAId m ≠ teamBId m →
  bothConfirmed v m = truthy (resultConfirmed m) (opponentId v m).
Proof.
  intros (_ & Hside & _)%list_find_Some Hd.
  unfold bothConfirmed, opponentId, isTeamA.
  destruct (bool_decide_reflect (teamAId m = teamId v)) as [e|n].
  - rewrite e, truthy_confirmedBy_self. simpl.
    unfold truthy, confirmedBy. rewrite lookup_insert_ne; [done|congruence].
  - destruct Hside as [?|e]; [done|].
    rewrite e, truthy_confirmedBy_self, andb_true_r.
    unfold truthy, confirmedBy. by rewrite lookup_insert_ne.
Qed.

Lemma handleConfirmResult_spec v idx m :
  myMatchEntry v = Some (idx, m) →
  ∃ v' m',
    handleConfirmResult v = Some v' ∧
    myMatchEntry v' = Some (idx, m') ∧
    teamId v' = teamId v ∧
    teams (room v') = teams (room v) ∧
    teamAId m' = teamAId m ∧ teamBId m' = teamBId m ∧
    carryOver m' = carryOver m ∧ history m' = history m ∧
    if bothConfirmed v m then
      currentRound m' =
        (if bool_decide (TOTAL_ROUNDS < currentRound m + 1)
         then currentRound m else currentRound m + 1) ∧
      roundStatus m' =
        (if bool_decide (TOTAL_ROUNDS < currentRound m + 1) then FINISHED else READY) ∧
      resultConfirmed m' = ∅ ∧
      lastRoundResult m' = None
    else
      currentRound m' = currentRound m ∧
      roundStatus m' = roundStatus m ∧
      resultConfirmed m' = confirmedBy v m ∧
      lastRoundResult m' = lastRoundResult m.
Proof.
  intros Hm. unfold handleConfirmResult. rewrite (myMatch_entry _ _ _ Hm). simpl.
  fold (confirmedBy v m). fold (bothConfirmed v m).
  destruct (bothConfirmed v m);
    (edestruct (updateMatchState_spec v) as (v' & -> & Hid & Hts & _ & _ & Hme);
     [exact Hm|]);
    eexists v', _; (split; [done|]); (split; [exact Hme|]); by destruct m.
Qed.

(** The handler by itself does not look at the round status: were it
    called in DECISION by a team whose entry is not set, it would set the
    entry, or advance the round when the opponent's entry is set.  Its one
    caller is the confirm button of the result modal, [clickConfirmResult],
    which is the confirmation a team can make. *)
Lemma handleConfirmResult_unguarded v idx m :
  myMatchEntry v = Some (idx, m) →
  teamAId m ≠ teamBId m →
  roundStatus m = DECISION →
  truthy (resultConfirmed m) (teamId v) = false →
  ∃ v' m',
    handleConfirmResult v = Some v' ∧
    myMatch v' = Some m' ∧
    m' ≠ m ∧
    (truthy (resultConfirmed m) (opponentId v m) = false →
     resultConfirmed m' = <[teamId v := true]> (resultConfirmed m) ∧
     resultConfirmed m' ≠ resultConfirmed m) ∧
    (truthy (resultConfirmed m) (opponentId v m) = true →
     currentRound m < TOTAL_ROUNDS →
     currentRound m' = currentRound m + 1 ∧ roundStatus m' = READY).
Proof.
  intros Hm Hd Hrs Hself.
  destruct (handleConfirmResult_spec v idx m Hm)
    as (v' & m' & Hv & Hm' & _ & _ & _ & _ & _ & _ & Hcase).
  rewrite (bothConfirmed_opponent v idx m Hm Hd) in Hcase.
  exists v', m'. rewrite (myMatch_entry _ _ _ Hm').
  split; [done|]. split; [done|].
  assert (Hchg : confirmedBy v m ≠ resultConfirmed m).
  { intros E. pose proof (truthy_confirmedBy_self v m) as Ht.
    rewrite E in Ht. congruence. }
  destruct (truthy (resultConfirmed m) (opponentId v m)).
  - destruct Hcase as (Hcr & Hst & _).
    split_and!; [|done|].
    + intros ->. case_bool_decide; congruence.
    + intros _ Hlt. rewrite bool_decide_eq_false_2 in Hcr, Hst by lia. done.
  - destruct Hcase as (_ & _ & Hrc & _).
    split_and!; [|by rewrite Hrc|done].
    intros ->. done.
Qed.

(** The confirm button itself is not there to click outside RESULT, or
    without a stored result, or once the team's own entry is set. *)
Lemma clickConfirmResult_gate v m :
  myMatch v = Some m →
  roundStatus m ≠ RESULT ∨ lastRoundResult m = None ∨
    truthy (resultConfirmed m) (teamId v) = true →
  clickConfirmResult v = Some v.
Proof.
  intros Hm Hgate. unfold clickConfirmResult, resultModalShown. rewrite Hm.
  destruct Hgate as [Hrs|[Hlr|Hown]].
  - by rewrite bool_decide_eq_false_2.
  - rewrite Hlr. rewrite (bool_decide_eq_false_2 (is_Some None)) by (by intros [? ?]).
    by rewrite andb_false_r.
  - rewrite Hown. by rewrite andb_false_r.
Qed.

(** C3: a confirmation outside RESULT changes no state.  The handler is
    called by the confirm button of the result modal only, and the modal
    is rendered only while the round status is RESULT: in DECISION, or in
    any other status, the button is not there, and a confirmation leaves
    the view, the resultConfirmed map and currentRound with it, exactly as
    it is. *)
Theorem C3_confirm_outside_RESULT v m :
  myMatch v = Some m →
  roundStatus m ≠ RESULT →
  resultModalShown v = false ∧
  clickConfirmResult v = Some v.
Proof.
  intros Hm Hrs. split.
  - unfold resultModalShown. rewrite Hm. by rewrite bool_decide_eq_false_2.
  - apply (clickConfirmResult_gate v m Hm). by left.
Qed.

Lemma C3_confirm_outside_RESULT_witness :
  resultModalShown scenarioC = false ∧
  clickConfirmResult scenarioC = Some scenarioC.
Proof.
  apply (C3_confirm_outside_RESULT scenarioC (exMatch 5 DECISION (Some "A") 1 ∅));
    [reflexivity|discriminate].
Defined.

Lemma onUpdate_idem v r : onUpdate (onUpdate v r) r = onUpdate v r.
Proof.
  unfold onUpdate, syncStrategy, team. simpl.
  destruct (find_team (teams r) (teamId v)) as [t|] eqn:Ht; simpl; [|by rewrite Ht].
  destruct (strategy t) as [s|] eqn:Hs; simpl; [|by rewrite Ht, Hs].
  case_decide as Hlen; simpl; rewrite Ht, Hs; simpl.
  - by rewrite decide_True.
  - by rewrite decide_False.
Qed.

(** A second confirmation by a team whose first one left the barrier open
    changes nothing at all. *)
Lemma handleConfirmResult_again v idx m v1 :
  myMatchEntry v = Some (idx, m) →
  handleConfirmResult v = Some v1 →
  bothConfirmed v m = false →
  handleConfirmResult v1 = Some v1.
Proof.
  intros Hm Hv Hboth.
  unfold handleConfirmResult in Hv. rewrite (myMatch_entry _ _ _ Hm) in Hv.
  simpl in Hv. fold (confirmedBy v m) in Hv. fold (bothConfirmed v m) in Hv.
  rewrite Hboth in Hv. unfold updateMatchState in Hv. rewrite Hm in Hv.
  simpl in Hv. injection Hv as <-.
  set (m1 := spread m [SetResultConfirmed (confirmedBy v m)]).
  set (r1 := mkRoom _ _ _ _).
  assert (Hm1 : myMatchEntry (onUpdate v r1) = Some (idx, m1)).
  { destruct (updateMatchState_spec v [SetResultConfirmed (confirmedBy v m)] idx m Hm)
      as (v' & Hv' & _ & _ & _ & _ & Hme).
    unfold updateMatchState in Hv'. rewrite Hm in Hv'. simpl in Hv'.
    by injection Hv' as <-. }
  assert (Hc : confirmedBy (onUpdate v r1) m1 = confirmedBy v m).
  { unfold confirmedBy. rewrite onUpdate_teamId.
    replace (resultConfirmed m1) with (<[teamId v := true]> (resultConfirmed m))
      by (by destruct m).
    apply insert_insert_eq. }
  assert (Hb : bothConfirmed (onUpdate v r1) m1 = false).
  { unfold bothConfirmed. rewrite Hc.
    replace (teamAId m1) with (teamAId m) by (by destruct m).
    replace (teamBId m1) with (teamBId m) by (by destruct m).
    exact Hboth. }
  unfold handleConfirmResult. rewrite (myMatch_entry _ _ _ Hm1). simpl.
  fold (confirmedBy (onUpdate v r1) m1). fold (bothConfirmed (onUpdate v r1) m1).
  rewrite Hb, Hc. unfold updateMatchState. rewrite Hm1. simpl.
  rewrite onUpdate_room.
  unfold r1 at 2 3 4 5. simpl. rewrite list_insert_insert_eq.
  replace (assign m1 (SetResultConfirmed (confirmedBy v m)))
    with (assign m (SetResultConfirmed (confirmedBy v m))) by (by destruct m).
  fold r1. by rewrite onUpdate_idem.
Qed.

Lemma spread_keeps_round m us :
  Forall keepsRound us → currentRound (spread m us) = currentRound m.
Proof.
  unfold spread. revert m. induction us as [|u us IH]; intros m Hus; [done|].
  apply Forall_cons in Hus as [Hu Hus]. simpl. rewrite IH by done.
  by destruct m, u.
Qed.

Lemma update_keeps_round w ts us v' idx m :
  updateTeamsAndMatch w ts us = Some v' →
  myMatchEntry w = Some (idx, m) →
  Forall keepsRound us →
  ∃ m', myMatchEntry v' = Some (idx, m') ∧ currentRound m' = currentRound m.
Proof.
  intros Hv Hm Hus.
  destruct (updateTeamsAndMatch_spec w ts us idx m Hm)
    as (v1 & Hv1 & _ & _ & _ & _ & Hme).
  rewrite Hv in Hv1. injection Hv1 as <-.
  eexists. split; [done|]. by apply spread_keeps_round.
Qed.

(** Case analysis along the branches of a handler that returned a view:
    at each step the outermost bind or conditional is split. *)
Ltac along H :=
  repeat match type of H with
         | mbind _ ?o = _ => destruct o eqn:?; simpl in H; [|discriminate H]
         | (if ?c then _ else _) = _ => destruct c
         | match ?o with Some _ => _ | None => _ end = _ => destruct o eqn:?
         | (let '(_, _) := ?p in _) = _ => destruct p eqn:?
         end.

Ltac round_kept H Hm :=
  first
    [ injection H as <-; eexists; split; [exact Hm|reflexivity]
    | eapply update_keeps_round; [exact H|exact Hm|repeat constructor] ].

Lemma confirmSubmit_entry v : myMatchEntry (confirmSubmit v) = myMatchEntry v.
Proof.
  unfold confirmSubmit, myMatchEntry. simpl.
  by rewrite onUpdate_room, onUpdate_teamId.
Qed.

Lemma perform_keeps_round i v v' idx m :
  perform i v = Some v' →
  myMatchEntry v = Some (idx, m) →
  ∃ m', myMatchEntry v' = Some (idx, m') ∧ currentRound m' = currentRound m.
Proof.
  intros H Hm. destruct i; unfold perform in H.
  - unfold readyEffect in H. rewrite (myMatch_entry _ _ _ Hm) in H.
    along H; round_kept H Hm.
  - unfold handleFold in H.
    destruct (negb (isMyTurn v)); [round_kept H Hm|].
    rewrite (myMatch_entry _ _ _ Hm) in H. simpl in H.
    along H; round_kept H Hm.
  - unfold handleCall in H.
    destruct (negb (isMyTurn v)); [round_kept H Hm|].
    rewrite (myMatch_entry _ _ _ Hm) in H. simpl in H.
    along H; round_kept H Hm.
  - unfold clickStealMinus, adjustTempChips in H.
    along H; round_kept H Hm.
  - unfold clickStealCancel in H. destruct (stealModalOpen v); round_kept H Hm.
  - unfold clickStealConfirm in H.
    destruct (stealModalOpen v && canConfirmSteal v); [|round_kept H Hm].
    unfold confirmSteal in H.
    rewrite (myMatch_entry _ _ _ Hm) in H. simpl in H.
    along H; round_kept H Hm.
  - unfold handleShowdown in H.
    rewrite (myMatch_entry _ _ _ Hm) in H. simpl in H.
    destruct (decide (roundStatus m ≠ SHOWDOWN)); [round_kept H Hm|].
    along H.
    repeat case_decide; round_kept H Hm.
  - injection H as <-. exists m. split; [|done].
    unfold handleSubmitStrategy.
    destruct (negb (isAdminMode v)); [|by rewrite confirmSubmit_entry].
    by repeat case_decide.
  - injection H as <-. exists m. split; [|done].
    unfold clickSubmitYes.
    destruct (submitConfirmOpen v); [by rewrite confirmSubmit_entry|done].
Qed.

Lemma myMatchEntry_same v v' :
  room v' = room v → teamId v' = teamId v → myMatchEntry v' = myMatchEntry v.
Proof. unfold myMatchEntry. by intros -> ->. Qed.

(** A click on the confirm button: nothing where the button is not there,
    the handler where it is; afterwards the button is gone from every view
    of the team on the room, so that a further click changes nothing. *)
Lemma clickConfirmResult_once v idx m :
  myMatchEntry v = Some (idx, m) →
  ∃ w, clickConfirmResult v = Some w ∧
    (w = v ∨
     (resultModalShown v = true ∧ truthy (resultConfirmed m) (teamId v) = false ∧
      handleConfirmResult v = Some w)) ∧
    ∀ u, room u = room w → teamId u = teamId v → clickConfirmResult u = Some u.
Proof.
  intros Hm.
  assert (Hclick : clickConfirmResult v =
            if resultModalShown v && negb (truthy (resultConfirmed m) (teamId v))
            then handleConfirmResult v else Some v).
  { unfold clickConfirmResult. by rewrite (myMatch_entry _ _ _ Hm). }
  rewrite Hclick.
  destruct (resultModalShown v) eqn:Hshown; simpl.
  2:{ exists v. split; [done|]. split; [by left|]. intros u Hr Hi.
      apply (clickConfirmResult_gate u m).
      - apply myMatch_entry with idx. by rewrite (myMatchEntry_same v u).
      - unfold resultModalShown in Hshown. rewrite (myMatch_entry _ _ _ Hm) in Hshown.
        apply andb_false_iff in Hshown as [Hf|Hf]; apply bool_decide_eq_false in Hf.
        + by left.
        + right; left. destruct (lastRoundResult m); [|done]. destruct Hf. by eexists. }
  destruct (truthy (resultConfirmed m) (teamId v)) eqn:Hown; simpl.
  { exists v. split; [done|]. split; [by left|]. intros u Hr Hi.
    apply (clickConfirmResult_gate u m).
    - apply myMatch_entry with idx. by rewrite (myMatchEntry_same v u).
    - right; right. by rewrite Hi. }
  destruct (handleConfirmResult_spec v idx m Hm)
    as (v1 & m1 & Hv & Hm1 & Hid & _ & _ & _ & _ & _ & Hcase).
  exists v1. split; [done|]. split; [by right|]. intros u Hr Hi.
  apply (clickConfirmResult_gate u m1).
  - apply myMatch_entry with idx. rewrite (myMatchEntry_same v1 u); [done|done|congruence].
  - destruct (bothConfirmed v m).
    + left. destruct Hcase as (_ & -> & _). by case_bool_decide.
    + right; right. destruct Hcase as (_ & _ & -> & _).
      rewrite Hi. apply truthy_confirmedBy_self.
Qed.

(** C6: a confirmation is idempotent per team, and the round moves by one
    exactly at the barrier.  A click on the confirm button runs the handler
    where the button is rendered and does nothing elsewhere; after it the
    button is gone from every view of the team, so a second confirmation by
    the same team has no effect at all.  The handler sets the team's own
    entry; the round never goes back and moves by at most one.  It moves by
    exactly one, with resultConfirmed and lastRoundResult cleared and the
    match back in READY, exactly when both teams' entries are then set and
    the round is not the last; in the last round (currentRound = 10) the
    match goes to FINISHED instead and the round stays.  While the barrier
    is still open the confirmation only records the entry.  No other intent
    of the view moves the round. *)
Theorem C6_confirmation_gate v idx m :
  myMatchEntry v = Some (idx, m) →
  (∃ w, clickConfirmResult v = Some w ∧
     (w = v ∨
      (resultModalShown v = true ∧ truthy (resultConfirmed m) (teamId v) = false ∧
       handleConfirmResult v = Some w)) ∧
     ∀ u, room u = room w → teamId u = teamId v → clickConfirmResult u = Some u) ∧
  ∃ v1 m1,
    handleConfirmResult v = Some v1 ∧
    myMatch v1 = Some m1 ∧
    currentRound m ≤ currentRound m1 ≤ currentRound m + 1 ∧
    (currentRound m1 = currentRound m + 1 ↔
     bothConfirmed v m = true ∧ currentRound m < TOTAL_ROUNDS) ∧
    (bothConfirmed v m = true →
     resultConfirmed m1 = ∅ ∧ lastRoundResult m1 = None ∧
     (currentRound m < TOTAL_ROUNDS → roundStatus m1 = READY) ∧
     (currentRound m = TOTAL_ROUNDS →
      roundStatus m1 = FINISHED ∧ currentRound m1 = currentRound m)) ∧
    (bothConfirmed v m = false →
     resultConfirmed m1 = <[teamId v := true]> (resultConfirmed m) ∧
     roundStatus m1 = roundStatus m ∧
     lastRoundResult m1 = lastRoundResult m ∧
     handleConfirmResult v1 = Some v1) ∧
    (∀ i v', perform i v = Some v' →
             ∃ m', myMatch v' = Some m' ∧ currentRound m' = currentRound m).
Proof.
  intros Hm. split; [by apply (clickConfirmResult_once v idx m)|].
  destruct (handleConfirmResult_spec v idx m Hm)
    as (v1 & m1 & Hv & Hm1 & _ & _ & _ & _ & _ & _ & Hcase).
  exists v1, m1. rewrite (myMatch_entry _ _ _ Hm1). split; [done|]. split; [done|].
  assert (Hothers : ∀ i v', perform i v = Some v' →
            ∃ m', myMatch v' = Some m' ∧ currentRound m' = currentRound m).
  { intros i v' Hi.
    destruct (perform_keeps_round i v v' idx m Hi Hm) as (m' & Hm' & Hcr).
    exists m'. by rewrite (myMatch_entry _ _ _ Hm'). }
  pose proof (handleConfirmResult_again v idx m v1 Hm Hv) as Hagain.
  unfold TOTAL_ROUNDS in *.
  destruct (bothConfirmed v m).
  - destruct Hcase as (Hcr & Hrs & Hrc & Hlr).
    split; [case_bool_decide; lia|].
    split.
    { case_bool_decide; (split; [intros; split; [done|lia] | intros [_ ?]; lia]). }
    split; [|done].
    intros _. split; [done|]. split; [done|].
    split; intros; case_bool_decide; try lia; done.
  - destruct Hcase as (Hcr & Hrs & Hrc & Hlr).
    split; [lia|]. split; [split; [lia | by intros [? _]]|].
    split; [done|]. split; [|done].
    intros _. split_and!; try done. by apply Hagain.
Qed.

Lemma resultShown_entry : myMatchEntry resultShown = Some (0%nat, resultMatch).
Proof. vm_compute. reflexivity. Defined.

Lemma C6_confirmation_gate_witness :
  let v := resultShown in
  let m := resultMatch in
  (∃ w, clickConfirmResult v = Some w ∧
     (w = v ∨
      (resultModalShown v = true ∧ truthy (resultConfirmed m) (teamId v) = false ∧
       handleConfirmResult v = Some w)) ∧
     ∀ u, room u = room w → teamId u = teamId v → clickConfirmResult u = Some u) ∧
  ∃ v1 m1,
    handleConfirmResult v = Some v1 ∧
    myMatch v1 = Some m1 ∧
    currentRound m ≤ currentRound m1 ≤ currentRound m + 1 ∧
    (currentRound m1 = currentRound m + 1 ↔
     bothConfirmed v m = true ∧ currentRound m < TOTAL_ROUNDS) ∧
    (bothConfirmed v m = true →
     resultConfirmed m1 = ∅ ∧ lastRoundResult m1 = None ∧
     (currentRound m < TOTAL_ROUNDS → roundStatus m1 = READY) ∧
     (currentRound m = TOTAL_ROUNDS →
      roundStatus m1 = FINISHED ∧ currentRound m1 = currentRound m)) ∧
    (bothConfirmed v m = false →
     resultConfirmed m1 = <[teamId v := true]> (resultConfirmed m) ∧
     roundStatus m1 = roundStatus m ∧
     lastRoundResult m1 = lastRoundResult m ∧
     handleConfirmResult v1 = Some v1) ∧
    (∀ i v', perform i v = Some v' →
             ∃ m', myMatch v' = Some m' ∧ currentRound m' = currentRound m).
Proof. exact (C6_confirmation_gate resultShown 0%nat resultMatch resultShown_entry). Defined.

Example resultShown_confirms :
  resultModalShown resultShown = true ∧
  bothConfirmed resultShown resultMatch = true ∧
  ∃ w m1, clickConfirmResult resultShown = Some w ∧ myMatch w = Some m1 ∧
    currentRound m1 = 2 ∧ roundStatus m1 = READY ∧ resultConfirmed m1 = ∅ ∧
    clickConfirmResult w = Some w.
Proof.
  split; [vm_compute; reflexivity|]. split; [vm_compute; reflexivity|].
  eexists _, _. split; [vm_compute; reflexivity|].
  split; [vm_compute; reflexivity|]. split; [vm_compute; reflexivity|].
  split; [vm_compute; reflexivity|]. split; vm_compute; reflexivity.
Qed.

(** ** Steal *)

Lemma stolenAmount_self cr i s : stolenAmount cr i s s = 0.
Proof.
  revert i. induction s as [|x s IH]; intros i; simpl; [done|].
  rewrite IH. case_decide; lia.
Qed.

(** One chip less at an index not below [currentRound] is one chip more
    stolen. *)
Lemma stolenAmount_minus cr k s temp n x y :
  s !! n = Some x → temp !! n = Some y → cr ≤ k + Z.of_nat n →
  stolenAmount cr k s (<[n := with_chips y (chips y - 1)]> temp)
  = stolenAmount cr k s temp + 1.
Proof.
  revert k temp n. induction s as [|a s IH]; intros k temp n Hx Hy Hge; [done|].
  destruct temp as [|b temp]; [done|].
  destruct n as [|n]; simplify_eq/=.
  - repeat case_decide; lia.
  - rewrite (IH (k + 1) temp n) by (done || lia). lia.
Qed.

(** Where the entries below [currentRound] are the stored ones, the stolen
    amount is what the scratch strategy is short of the stored one. *)
Lemma stolenAmount_sum cr k s temp :
  length temp = length s →
  (∀ i x y, s !! i = Some x → temp !! i = Some y → k + Z.of_nat i < cr → y = x) →
  stolenAmount cr k s temp = sum_chips s - sum_chips temp.
Proof.
  revert k temp. induction s as [|a s IH]; intros k [|b temp] Hlen Hpast;
    simplify_eq/=; [done|].
  rewrite !sum_chips_cons, (IH (k + 1) temp); [|done|].
  - case_decide as Hc; [lia|].
    rewrite (Hpast 0%nat a b) by (done || lia). lia.
  - intros i x y Hx Hy Hlt. apply (Hpast (S i)); [done..|lia].
Qed.

Lemma at_index_of_nat {A} (l : list A) (i : nat) : at_index l (Z.of_nat i) = l !! i.
Proof. unfold at_index. rewrite decide_True by lia. by rewrite Nat2Z.id. Qed.

(** A click on a [-1] button either does nothing or takes one chip from an
    entry past the current round that holds at least two, and only while
    the total stays within what is needed. *)
Lemma clickStealMinus_cases v idx m t s i :
  myMatchEntry v = Some (idx, m) → team v = Some t → strategy t = Some s →
  ∃ v', clickStealMinus v i = Some v' ∧
    (v' = v ∨
     ∃ y, tempStrategy v !! i = Some y ∧ currentRound m ≤ Z.of_nat i ∧ 2 ≤ chips y ∧
          v' = setTempStrategy v (<[i := with_chips y (chips y - 1)]> (tempStrategy v)) ∧
          (Qc_of_Z (stolenAmount (currentRound m) 0 s
                      (<[i := with_chips y (chips y - 1)]> (tempStrategy v)))
           ≤ neededChips v)%Qc).
Proof.
  intros Hm Ht Hs. unfold clickStealMinus.
  destruct (stealModalOpen v); simpl; [|eauto].
  destruct (tempStrategy v !! i) as [y|] eqn:Hy; [|eauto].
  rewrite (myMatch_entry _ _ _ Hm).
  case_decide as Hfut; [eauto|]. case_decide as Hone; [eauto|].
  unfold adjustTempChips. rewrite at_index_of_nat, Hy. simpl.
  rewrite (decide_False (P := chips y + -1 < 1)) by lia.
  rewrite Ht; simpl. rewrite Hs; simpl. rewrite Nat2Z.id.
  replace (chips y + -1) with (chips y - 1) by lia.
  assert (Hw : match s with
               | [] => Some 0
               | _ => m0 ← myMatch v;
                      Some (stolenAmount (currentRound m0) 0 s
                              (<[i := with_chips y (chips y - 1)]> (tempStrategy v)))
               end
               = Some (stolenAmount (currentRound m) 0 s
                         (<[i := with_chips y (chips y - 1)]> (tempStrategy v)))).
  { destruct s; [done|]. by rewrite (myMatch_entry _ _ _ Hm). }
  rewrite Hw. simpl.
  case_decide as Hover; [eauto|].
  eexists. split; [done|]. right. exists y.
  split_and!; [done|lia|lia|done|]. by apply Qcnot_lt_le.
Qed.

Lemma clickStealMinus_inv v idx m t s i :
  myMatchEntry v = Some (idx, m) → team v = Some t → strategy t = Some s →
  StealInv v (currentRound m) s →
  ∃ v', clickStealMinus v i = Some v' ∧
    room v' = room v ∧ teamId v' = teamId v ∧ neededChips v' = neededChips v ∧
    StealInv v' (currentRound m) s.
Proof.
  intros Hm Ht Hs Hinv.
  destruct (clickStealMinus_cases v idx m t s i Hm Ht Hs) as (v' & Hv & Hcase).
  exists v'. split; [done|].
  destruct Hcase as [->|(y & Hy & Hfut & Htwo & -> & Hst)]; [done|].
  split_and!; [done..|].
  destruct Hinv as [Hopen Hlen Hent _].
  split; simpl; [done|by rewrite length_insert| |done].
  intros j x z Hx Hz.
  destruct (decide (j = i)) as [->|Hne].
  - rewrite list_lookup_insert_eq in Hz by (by eapply lookup_lt_Some).
    simplify_eq/=. destruct (Hent i x y Hx Hy) as (? & ? & ? & ?).
    split_and!; [done|done|lia|lia|lia].
  - rewrite list_lookup_insert_ne in Hz by done. by apply Hent.
Qed.

Lemma stealClicks_inv v idx m t s idxs :
  myMatchEntry v = Some (idx, m) → team v = Some t → strategy t = Some s →
  StealInv v (currentRound m) s →
  ∃ v', stealClicks v idxs = Some v' ∧
    room v' = room v ∧ teamId v' = teamId v ∧ neededChips v' = neededChips v ∧
    StealInv v' (currentRound m) s.
Proof.
  revert v. induction idxs as [|i idxs IH]; intros v Hm Ht Hs Hinv; simpl;
    [by exists v|].
  destruct (clickStealMinus_inv v idx m t s i Hm Ht Hs Hinv)
    as (v1 & -> & Hr & Hi & Hn & Hinv1). simpl.
  destruct (IH v1) as (v' & Hv' & Hr' & Hi' & Hn' & Hinv');
    [unfold myMatchEntry; by rewrite Hr, Hi|unfold team; by rewrite Hr, Hi|done..|].
  exists v'. split; [done|]. split_and!; congruence.
Qed.

Lemma Seated_same_room v v' idx m t opp :
  room v' = room v → teamId v' = teamId v →
  Seated v idx m t opp → Seated v' idx m t opp.
Proof.
  intros Hr Hi [Hm Ht Ho Hd].
  split; [| | |done];
    unfold myMatchEntry, team, opponentTeam, myMatch, myMatchEntry, opponentId, isTeamA in *;
    by rewrite Hr, Hi.
Qed.

Lemma stolenTotal_is_Some cri k s temp :
  (length s ≤ length temp)%nat → is_Some (stolenTotal cri k s temp).
Proof.
  revert k temp. induction s as [|x s IH]; intros k temp Hlen; simpl; [eauto|].
  destruct temp as [|y temp]; simpl in *; [lia|].
  destruct (IH (k + 1) temp) as [r ->]; [lia|].
  case_decide; simpl; eauto.
Qed.

(** The session of the steal modal: an underfunded call opens it, and any
    clicks on its [-1] buttons keep the room and the invariant. *)
Lemma steal_session v idx m t opp s ms os idxs :
  Seated v idx m t opp →
  turnOwner m = Some (teamId v) →
  strategy t = Some s →
  Forall (λ x, 1 ≤ chips x) s →
  at_index s (currentRound m - 1) = Some ms →
  strat_at opp (currentRound m - 1) = Some os →
  (winnings t < Qc_of_Z (chips os - chips ms))%Qc →
  ∃ v0 v1,
    handleCall v = Some v0 ∧ stealClicks v0 idxs = Some v1 ∧
    room v0 = room v ∧ room v1 = room v ∧ teamId v1 = teamId v ∧
    neededChips v1 = (Qc_of_Z (chips os - chips ms) - winnings t)%Qc ∧
    StealInv v1 (currentRound m) s.
Proof.
  intros HS Hturn Hs Hfloor Hms Hos Hlt.
  rewrite (handleCall_underfunded v idx m t opp s ms os) by done.
  set (v0 := setStealModalOpen _ true).
  assert (HS0 : Seated v0 idx m t opp) by (by apply (Seated_same_room v)).
  assert (Hinv0 : StealInv v0 (currentRound m) s).
  { split; simpl; [done|done| |].
    - intros i x y Hx Hy. rewrite Hx in Hy. injection Hy as <-.
      assert (1 ≤ chips x) by (by eapply (Forall_lookup_1 _ _ _ _ Hfloor)).
      split_and!; [done|done|lia|lia|done].
    - rewrite stolenAmount_self, Z2Qc_inj_0.
      apply Qclt_le_weak. by apply Qclt_minus_iff in Hlt. }
  destruct (stealClicks_inv v0 idx m t s idxs) as (v1 & Hv1 & Hr & Hi & Hn & Hinv1);
    [apply HS0|apply HS0|done|done|].
  exists v0, v1. by split_and!.
Qed.

(** What the modal shows as stolen is the invariant's sum, and it is what
    the scratch strategy is short of the stored one. *)
Lemma currentStolen_sum v idx m t opp s :
  Seated v idx m t opp → strategy t = Some s →
  StealInv v (currentRound m) s →
  currentStolen v = stolenAmount (currentRound m) 0 s (tempStrategy v) ∧
  currentStolen v = sum_chips s - sum_chips (tempStrategy v).
Proof.
  intros [Hm Ht Ho Hd] Hs [_ Hlen Hent _].
  assert (Hc : currentStolen v = stolenAmount (currentRound m) 0 s (tempStrategy v)).
  { unfold currentStolen, calculateStolenAmount.
    rewrite Ht, (myMatch_entry _ _ _ Hm), Hs.
    case_decide as Hnil; [|done].
    destruct (tempStrategy v); [|done]. by destruct s. }
  split; [done|]. rewrite Hc. apply stolenAmount_sum; [done|].
  intros i x y Hx Hy Hlt. apply (Hent i x y Hx Hy). lia.
Qed.

Lemma confirmSteal_spec v idx m t opp s ms os :
  Seated v idx m t opp →
  strategy t = Some s →
  at_index s (currentRound m - 1) = Some ms →
  strat_at opp (currentRound m - 1) = Some os →
  StealInv v (currentRound m) s →
  ∃ v' m' t',
    confirmSteal v = Some v' ∧
    myMatchEntry v' = Some (idx, m') ∧
    team v' = Some t' ∧
    opponentTeam v' = Some opp ∧
    winnings t' = 0%Qc ∧
    strategy t' =
      Some (<[Z.to_nat (currentRound m - 1) :=
               with_chips ms (chips ms + (chips os - chips ms))]> (tempStrategy v)) ∧
    roundStatus m' = SHOWDOWN ∧
    turnOwner m' = None ∧
    currentRound m' = currentRound m ∧
    carryOver m' = carryOver m.
Proof.
  intros HS Hs Hms Hos [_ Hlen Hent _].
  destruct (Seated_ids _ _ _ _ _ HS) as (Hti & Hoi & Hne & Hfo).
  destruct HS as [Hm Ht Ho Hd].
  pose proof Hms as [Hge Hl]%at_index_Some.
  assert (Hcur : at_index (tempStrategy v) (currentRound m - 1) = Some ms).
  { apply at_index_Some. split; [done|].
    destruct (lookup_lt_is_Some_2 (tempStrategy v) (Z.to_nat (currentRound m - 1)))
      as [y Hy]; [rewrite Hlen; by eapply lookup_lt_Some|].
    rewrite Hy. f_equal. apply (Hent _ ms y Hl Hy). lia. }
  destruct (stolenTotal_is_Some (currentRound m - 1) 0 s (tempStrategy v))
    as [stolen Hstolen]; [lia|].
  unfold confirmSteal. rewrite (myMatch_entry _ _ _ Hm). simpl.
  rewrite Ht; simpl. rewrite Hs; simpl. rewrite Hstolen; simpl.
  rewrite Ho; simpl. rewrite Hos; simpl. rewrite Hms; simpl. rewrite Hcur; simpl.
  match goal with
  | |- context [updateTeamsAndMatch ?w ?ts ?us] =>
      destruct (updateTeamsAndMatch_spec w ts us idx m Hm)
        as (v' & -> & Hid & Hts & _ & _ & Hme)
  end.
  destruct (spread_ids m [SetRoundStatus SHOWDOWN; SetTurnOwner None]) as [Ha Hb].
  eexists v', _, _. split; [done|]. split; [exact Hme|].
  split.
  { rewrite (team_after v v' _ Hid Hts).
    eapply find_team_replace_eq; [exact Ht|done]. }
  split.
  { rewrite (opponentTeam_after v v' _ idx m _ Hid Hts Hme Ha Hb).
    rewrite find_team_replace_ne; [done|done|]. rewrite <- Hti, <- Hoi. congruence. }
  split; [done|]. split; [done|]. by destruct m.
Qed.



(** The steal of [C7_steal_witness], evaluated: two chips are needed, the
    clicks on rounds 4 and 5 take them, the click on round 6 is refused as
    one too many and the click on round 1 has no button; the confirmation
    is accepted and leaves team A without winnings, with 5, 2 and 2 chips
    in rounds 3, 4 and 5. *)
Example steal_scenarioA_short :
  ∃ v0 v1 v2 tA sA m2,
    handleCall scenarioA_short = Some v0 ∧
    stealClicks v0 [3; 4; 5; 0]%nat = Some v1 ∧
    neededChips v1 = Qc_of_Z 2 ∧ currentStolen v1 = 2 ∧
    chips <$> tempStrategy v1 = [3; 3; 2; 2; 2; 3; 3; 3; 3; 4] ∧
    clickStealConfirm v1 = Some v2 ∧
    team v2 = Some tA ∧ winnings tA = 0%Qc ∧
    strategy tA = Some sA ∧ chips <$> sA = [3; 3; 5; 2; 2; 3; 3; 3; 3; 4] ∧
    myMatch v2 = Some m2 ∧ roundStatus m2 = SHOWDOWN.
Proof.
  eexists _, _, _, _, _, _.
  split_and!; [reflexivity|reflexivity| |reflexivity..];
    by apply (bool_decide_unpack _).
Qed.

(** ** Conservation of a team's resources *)



(** ** Strategy submission *)

Lemma freshStrategy_inv : EditorInv freshStrategy.
Proof.
  split.
  - reflexivity.
  - intros i x Hx. apply list_elem_of_lookup_2 in Hx.
    unfold freshStrategy in Hx. apply list_elem_of_fmap in Hx as (n & -> & _).
    simpl. lia.
  - intros i x Hx. apply list_elem_of_lookup_2 in Hx.
    unfold freshStrategy in Hx. apply list_elem_of_fmap in Hx as (n & -> & _).
    by left.
  - intros i j x y Hx Hy _ Hne. apply list_elem_of_lookup_2 in Hx.
    unfold freshStrategy in Hx. apply list_elem_of_fmap in Hx as (n & -> & _).
    done.
Qed.

Lemma EditorInv_set_chips s i e c :
  EditorInv s → s !! i = Some e → 1 ≤ c →
  EditorInv (<[i := with_chips e c]> s).
Proof.
  intros [Hlen Hch Hca Hinj] He Hc.
  assert (Hlk : ∀ j x, <[i := with_chips e c]> s !! j = Some x →
                ∃ x0, s !! j = Some x0 ∧ card x = card x0 ∧
                      (1 ≤ chips x0 → 1 ≤ chips x)).
  { intros j x [(-> & <- & _)|[_ Hx]]%list_lookup_insert_Some.
    - exists e. split_and!; [done|done|]. simpl. lia.
    - exists x. by split_and!. }
  split.
  - by rewrite length_insert.
  - intros j x (x0 & H0 & _ & Himp)%Hlk. apply Himp. by eapply Hch.
  - intros j x (x0 & H0 & -> & _)%Hlk. by eapply Hca.
  - intros j k x y (x0 & Hx0 & -> & _)%Hlk (y0 & Hy0 & -> & _)%Hlk. by eapply Hinj.
Qed.

(** Putting a card on a slot: the empty card, or a card of the deck that
    no other slot holds. *)
Lemma EditorInv_set_card s i e c :
  EditorInv s → s !! i = Some e →
  (c = -1 ∨ (c ∈ CARDS ∧ ∀ j y, s !! j = Some y → j ≠ i → card y ≠ c)) →
  EditorInv (<[i := with_card e c]> s).
Proof.
  intros [Hlen Hch Hca Hinj] He Hc.
  assert (Hi : (i < length s)%nat) by (by eapply lookup_lt_Some).
  split.
  - by rewrite length_insert.
  - intros j x [(-> & <- & _)|[_ Hx]]%list_lookup_insert_Some; simpl; by eapply Hch.
  - intros j x [(-> & <- & _)|[_ Hx]]%list_lookup_insert_Some; simpl.
    + destruct Hc as [->|[? _]]; auto.
    + by eapply Hca.
  - intros j k x y [(-> & <- & _)|[Hj Hx]]%list_lookup_insert_Some
                 [(-> & <- & _)|[Hk Hy]]%list_lookup_insert_Some; simpl;
      intros Heq Hne; try done.
    + destruct Hc as [->|[_ Hfree]]; [done|]. by destruct (Hfree k y Hy).
    + destruct Hc as [->|[_ Hfree]]; [congruence|].
      destruct (Hfree j x Hx); [done|]. congruence.
    + by eapply Hinj.
Qed.

(** Exchanging the cards of two slots. *)
Lemma EditorInv_swap s i j a b :
  EditorInv s → s !! i = Some a → s !! j = Some b → i ≠ j →
  EditorInv (<[i := with_card a (card b)]> (<[j := with_card b (card a)]> s)).
Proof.
  intros [Hlen Hch Hca Hinj] Ha Hb Hij.
  assert (Hlk : ∀ p x,
    <[i := with_card a (card b)]> (<[j := with_card b (card a)]> s) !! p = Some x →
    (p = i ∧ x = with_card a (card b)) ∨
    (p = j ∧ x = with_card b (card a)) ∨
    (p ≠ i ∧ p ≠ j ∧ s !! p = Some x)).
  { intros p x [(-> & <- & _)|[Hp Hx]]%list_lookup_insert_Some; [by left|].
    apply list_lookup_insert_Some in Hx as [(-> & <- & _)|[Hp' Hx]]; [by right; left|].
    right; right. by split_and!. }
  split.
  - by rewrite !length_insert.
  - intros p x [(-> & ->)|[(-> & ->)|(_ & _ & Hx)]]%Hlk; simpl; by eapply Hch.
  - intros p x [(-> & ->)|[(-> & ->)|(_ & _ & Hx)]]%Hlk; simpl; by eapply Hca.
  - intros p q x y [(-> & ->)|[(-> & ->)|(Hpi & Hpj & Hx)]]%Hlk
                 [(-> & ->)|[(-> & ->)|(Hqi & Hqj & Hy)]]%Hlk; simpl;
      intros Heq Hne; try done.
    + destruct Hij. symmetry. by apply (Hinj j i b a).
    + destruct Hqj. symmetry. by apply (Hinj j q b y).
    + destruct Hij. by apply (Hinj i j a b).
    + destruct Hqi. symmetry. by apply (Hinj i q a y).
    + destruct Hpj. by apply (Hinj p j x b).
    + destruct Hpi. by apply (Hinj p i x a).
    + by apply (Hinj p q x y).
Qed.

Lemma handleSetChips_inv v i e d :
  EditorInv (st_strategy v) → st_strategy v !! i = Some e →
  ∃ v', handleSetChips v (Z.of_nat i) d = Some v' ∧ EditStep v v'.
Proof.
  intros Hinv He. unfold handleSetChips.
  destruct (editLocked v); [exists v; split; [done|by left]|].
  rewrite at_index_of_nat, He. simpl.
  case_decide as Hlow; [exists v; split; [done|by left]|].
  case_decide as Hcap; [exists v; split; [done|by left]|].
  rewrite Nat2Z.id. eexists. split; [done|]. right. eexists. split; [done|].
  apply EditorInv_set_chips; [done|done|lia].
Qed.

Lemma handleCardDoubleClick_inv v i e :
  EditorInv (st_strategy v) → st_strategy v !! i = Some e →
  ∃ v', handleCardDoubleClick v (Z.of_nat i) = Some v' ∧ EditStep v v'.
Proof.
  intros Hinv He. unfold handleCardDoubleClick.
  destruct (editLocked v); [exists v; split; [done|by left]|].
  rewrite at_index_of_nat, He. simpl. rewrite Nat2Z.id.
  eexists. split; [done|]. right. eexists. split; [done|].
  apply EditorInv_set_card; [done|done|by left].
Qed.

Lemma used_cards_free s c j y :
  c ∉ used_cards s → c ∈ CARDS → s !! j = Some y → card y ≠ c.
Proof.
  intros Hfree Hc Hy Heq. apply Hfree. unfold used_cards.
  apply list_elem_of_filter. split.
  - intros ->. revert Hc. by apply (bool_decide_unpack (-1 ∉ CARDS)).
  - apply list_elem_of_fmap. exists y. split; [done|]. by eapply list_elem_of_lookup_2.
Qed.

Lemma handleDrop_deck_inv v c target :
  EditorInv (st_strategy v) → c ∈ CARDS → c ∉ usedCards v →
  ∃ v', handleDrop v (handleDragStart v c Deck) (dropTarget v target) = Some v' ∧
        EditStep v v'.
Proof.
  intros Hinv Hc Hfree. unfold handleDrop, handleDragStart.
  destruct (editLocked v); [exists v; split; [done|by left]|].
  case_decide as Hm1; [exists v; split; [done|by left]|]. simpl.
  unfold dropTarget. destruct target as [i|]; [|exists v; split; [done|by left]].
  case_decide as Hi; [|exists v; split; [done|by left]].
  rewrite decide_False by lia.
  destruct (lookup_lt_is_Some_2 _ _ Hi) as [tgt Htgt].
  rewrite at_index_of_nat, Htgt. simpl. rewrite Nat2Z.id.
  eexists. split; [done|]. right. eexists. split; [done|].
  apply EditorInv_set_card; [done|done|]. right. split; [done|].
  intros j y Hy _. by eapply used_cards_free.
Qed.

Lemma handleDrop_round_inv v i r target :
  EditorInv (st_strategy v) → st_strategy v !! i = Some r →
  ∃ v', handleDrop v (handleDragStart v (card r) (FromRound (Z.of_nat i)))
          (dropTarget v target) = Some v' ∧
        EditStep v v'.
Proof.
  intros Hinv Hr. unfold handleDrop, handleDragStart.
  destruct (editLocked v); [exists v; split; [done|by left]|].
  case_decide as Hm1; [exists v; split; [done|by left]|]. simpl.
  unfold dropTarget. destruct target as [j|].
  - case_decide as Hj.
    + rewrite decide_False by lia.
      case_decide as Hij; [|exists v; split; [done|by left]].
      destruct (lookup_lt_is_Some_2 _ _ Hj) as [tgt Htgt].
      rewrite at_index_of_nat, Htgt. simpl.
      rewrite at_index_of_nat, !Nat2Z.id.
      rewrite list_lookup_insert_ne by lia. rewrite Hr. simpl.
      eexists. split; [done|]. right. eexists. split; [done|].
      apply EditorInv_swap; [done|done|done|lia].
    + rewrite decide_True by lia.
      rewrite at_index_of_nat, Hr. simpl. rewrite Nat2Z.id.
      eexists. split; [done|]. right. eexists. split; [done|].
      apply EditorInv_set_card; [done|done|by left].
  - rewrite decide_True by lia.
    rewrite at_index_of_nat, Hr. simpl. rewrite Nat2Z.id.
    eexists. split; [done|]. right. eexists. split; [done|].
    apply EditorInv_set_card; [done|done|by left].
Qed.

Lemma gesture_inv v g :
  EditorInv (st_strategy v) →
  ∃ v', gesture v g = Some v' ∧ EditStep v v'.
Proof.
  intros Hinv. unfold gesture.
  case_decide; [exists v; split; [done|by left]|].
  destruct g as [i plus|c target|i target|i].
  - destruct (st_strategy v !! i) as [e|] eqn:He; [|exists v; split; [done|by left]].
    destruct (readOnly v); [exists v; split; [done|by left]|].
    by eapply handleSetChips_inv.
  - destruct (readOnly v); [exists v; split; [done|by left]|].
    case_decide as Hc; [|exists v; split; [done|by left]].
    destruct Hc. by apply handleDrop_deck_inv.
  - destruct (st_strategy v !! i) as [r|] eqn:Hr; [|exists v; split; [done|by left]].
    destruct (negb (readOnly v) && bool_decide (card r ≠ -1));
      [|exists v; split; [done|by left]].
    by apply handleDrop_round_inv.
  - destruct (st_strategy v !! i) as [r|] eqn:Hr; [|exists v; split; [done|by left]].
    destruct (negb (readOnly v) && bool_decide (card r ≠ -1));
      [|exists v; split; [done|by left]].
    by eapply handleCardDoubleClick_inv.
Qed.

(** Any sequence of gestures runs through, keeps the invariant, and leaves
    everything of the view but the edited strategy as it was. *)
Lemma gestures_inv gs : ∀ v,
  EditorInv (st_strategy v) →
  ∃ v', gestures v gs = Some v' ∧ EditorInv (st_strategy v') ∧
        ∃ s', v' = setStrategy v s'.
Proof.
  induction gs as [|g gs IH]; intros v Hinv; simpl.
  - exists v. split_and!; [done..|]. exists (st_strategy v). by destruct v.
  - destruct (gesture_inv v g Hinv) as (v1 & -> & Hstep). simpl.
    destruct Hstep as [->|(s1 & -> & Hinv1)].
    + by apply IH.
    + destruct (IH (setStrategy v s1) Hinv1) as (v' & Hv' & Hinv' & s' & ->).
      exists (setStrategy (setStrategy v s1) s'). split_and!; [done..|].
      by exists s'.
Qed.

(** A strategy the editor can have built that passes the two tests is
    valid. *)
Lemma EditorInv_valid s :
  EditorInv s →
  Z.of_nat (length (used_cards s)) = 10 → sum_chips s = TOTAL_CHIPS →
  validStrategy s.
Proof.
  intros [Hlen Hch Hca Hinj] Hused Hsum.
  assert (Hall : ∀ c, c ∈ card <$> s → c ≠ -1).
  { intros c Hc Hm1.
    pose proof (length_filter_lt (λ c, c ≠ -1) (card <$> s) c Hc) as Hlt.
    unfold used_cards in Hused. rewrite length_fmap in Hlt. lia. }
  split_and!; [|done|].
  - apply submseteq_length_Permutation; [|by rewrite length_fmap, Hlen].
    apply NoDup_submseteq.
    + apply NoDup_alt. intros i j c (x & -> & Hx)%list_lookup_fmap_Some
                                    (y & Heq & Hy)%list_lookup_fmap_Some.
      apply (Hinj i j x y); [done..|].
      apply Hall, list_elem_of_fmap. exists x. split; [done|].
      by eapply list_elem_of_lookup_2.
    + intros c Hc. pose proof (Hall c Hc) as Hne.
      apply list_elem_of_fmap in Hc as (x & -> & Hx).
      apply list_elem_of_lookup_1 in Hx as [i Hi].
      destruct (Hca i x Hi); [done|done].
  - apply Forall_lookup. intros i x Hx. by eapply Hch.
Qed.

(** A valid strategy passes the two tests, however it was built. *)
Lemma valid_passesChecks v : validStrategy (st_strategy v) → passesChecks v.
Proof.
  intros (Hperm & Hsum & _). unfold passesChecks, remainingChips, usedChips, usedCards.
  split; [|lia]. unfold used_cards. by rewrite Hperm.
Qed.

Lemma handleSubmitStrategy_rejects v :
  isAdminMode v = false → ¬ passesChecks v →
  ∃ a, handleSubmitStrategy v = alert v a.
Proof.
  intros Hadm Hno. unfold handleSubmitStrategy. rewrite Hadm. simpl.
  case_decide; [by eexists|]. case_decide; [by eexists|].
  destruct Hno. split; lia.
Qed.

Lemma handleSubmitStrategy_accepts v :
  isAdminMode v = false → passesChecks v →
  handleSubmitStrategy v = setSubmitConfirmOpen v true.
Proof.
  intros Hadm [Hc Hr]. unfold handleSubmitStrategy. rewrite Hadm. simpl.
  rewrite decide_False by lia. by rewrite decide_False by lia.
Qed.

Lemma confirmSubmit_team v t :
  team v = Some t →
  team (confirmSubmit v) = Some (with_ready_strategy t (st_strategy v)).
Proof.
  intros Ht. unfold confirmSubmit, team. simpl.
  rewrite onUpdate_room, onUpdate_teamId. simpl.
  rewrite find_team_fmap by (intros; by case_decide).
  unfold team in Ht. rewrite Ht. simpl.
  apply find_team_id in Ht. by rewrite decide_True.
Qed.

(** C2, as stated, fails: the submission accepts a strategy that puts
    card 5 on all ten rounds (three chips each), and one that has no chip
    on the first round; neither is valid. *)
Lemma C2_counterexample :
  let dup := mkStrategy [(5,3);(5,3);(5,3);(5,3);(5,3);(5,3);(5,3);(5,3);(5,3);(5,3)] in
  let zero := mkStrategy [(0,0);(1,6);(2,3);(3,3);(4,3);(5,3);(6,3);(7,3);(8,3);(9,3)] in
  (∃ t', team (clickSubmitYes (handleSubmitStrategy (prepView dup))) = Some t' ∧
         isReady t' = true ∧ strategy t' = Some dup) ∧
  ¬ (card <$> dup ≡ₚ CARDS) ∧
  (∃ t', team (clickSubmitYes (handleSubmitStrategy (prepView zero))) = Some t' ∧
         isReady t' = true ∧ strategy t' = Some zero) ∧
  ¬ Forall (λ x, 1 ≤ chips x) zero.
Proof.
  split_and!.
  - eexists. split_and!; reflexivity.
  - by apply (bool_decide_unpack _).
  - eexists. split_and!; reflexivity.
  - by apply (bool_decide_unpack _).
Qed.

(** C2 (amended): outside admin mode the submission of a team that is not
    ready rejects, with an alert and with room, team and edited strategy
    as they were, every strategy in which fewer than ten rounds hold a card
    or whose chips do not sum to 30; every other strategy opens the
    confirmation, whose YES stores the strategy and sets isReady.  Every
    valid strategy (cards exactly 0 to 9, chips summing to 30, at least one
    chip per round) passes the two tests.  The handler tests neither for
    duplicate cards nor for rounds without chips: the editor does not
    produce them, and for a strategy built by the editor from the initial
    allocation passing the two tests is the same as being valid. *)
Theorem C2_submission v t :
  isAdminMode v = false →
  team v = Some t →
  isReady t = false →
  submitConfirmOpen v = false →
  let w := handleSubmitStrategy v in
  (¬ passesChecks v →
   room w = room v ∧ team w = Some t ∧ st_strategy w = st_strategy v ∧
   submitConfirmOpen w = false ∧ (∃ a, alerts w = alerts v ++ [a]) ∧
   clickSubmitYes w = w) ∧
  (passesChecks v →
   room w = room v ∧ submitConfirmOpen w = true ∧
   ∃ t', team (clickSubmitYes w) = Some t' ∧ isReady t' = true ∧
         strategy t' = Some (st_strategy v)) ∧
  (validStrategy (st_strategy v) → passesChecks v) ∧
  (∀ v0 gs, st_strategy v0 = freshStrategy → gestures v0 gs = Some v →
            (passesChecks v ↔ validStrategy (st_strategy v))).
Proof.
  intros Hadm Ht Hready Hclosed w. split_and!.
  - intros Hno. destruct (handleSubmitStrategy_rejects v Hadm Hno) as [a Ha].
    unfold w. rewrite Ha. unfold clickSubmitYes. simpl. rewrite Hclosed.
    split_and!; try done. by exists a.
  - intros Hyes. unfold w. rewrite (handleSubmitStrategy_accepts v Hadm Hyes).
    split_and!; [done..|]. unfold clickSubmitYes. simpl.
    eexists. split; [by apply confirmSubmit_team|]. done.
  - apply valid_passesChecks.
  - intros v0 gs Hfresh Hgs. split; [|apply valid_passesChecks].
    intros [Hc Hr].
    destruct (gestures_inv gs v0) as (v' & Hv' & Hinv & _);
      [rewrite Hfresh; apply freshStrategy_inv|].
    rewrite Hgs in Hv'. injection Hv' as <-.
    apply EditorInv_valid; [done|done|].
    unfold remainingChips, usedChips in Hr. lia.
Qed.

Lemma C2_submission_witness :
  let s := mkStrategy [(0,3);(1,3);(2,3);(3,3);(4,3);(5,3);(6,3);(7,3);(8,3);(9,3)] in
  let v := prepView s in
  let w := handleSubmitStrategy v in
  (¬ passesChecks v →
   room w = room v ∧ team w = Some (mkTeam "A" "A" false 0%Qc [] None) ∧
   st_strategy w = st_strategy v ∧
   submitConfirmOpen w = false ∧ (∃ a, alerts w = alerts v ++ [a]) ∧
   clickSubmitYes w = w) ∧
  (passesChecks v →
   room w = room v ∧ submitConfirmOpen w = true ∧
   ∃ t', team (clickSubmitYes w) = Some t' ∧ isReady t' = true ∧
         strategy t' = Some (st_strategy v)) ∧
  (validStrategy (st_strategy v) → passesChecks v) ∧
  (∀ v0 gs, st_strategy v0 = freshStrategy → gestures v0 gs = Some v →
            (passesChecks v ↔ validStrategy (st_strategy v))).
Proof.
  apply (C2_submission
           (prepView (mkStrategy [(0,3);(1,3);(2,3);(3,3);(4,3);(5,3);(6,3);(7,3);(8,3);(9,3)]))
           (mkTeam "A" "A" false 0%Qc [] None));
    reflexivity.
Defined.

Example editor_run_valid :
  ∃ v, gestures (prepView freshStrategy) editorRun = Some v ∧
       card <$> st_strategy v = CARDS ∧
       chips <$> st_strategy v = [3; 3; 3; 3; 3; 3; 3; 3; 3; 3] ∧
       validStrategy (st_strategy v) ∧
       submitConfirmOpen (handleSubmitStrategy v) = true.
Proof.
  eexists. split; [vm_compute; reflexivity|].
  split; [reflexivity|]. split; [reflexivity|].
  split; [|reflexivity].
  split_and!; [reflexivity|reflexivity|].
  repeat (constructor; [simpl; lia|]). constructor.
Qed.

(** * Properties of the game around the handlers *)

(** ** The match under the moves of its teams *)

Lemma roundsTo_succ n : 0 ≤ n → roundsTo (n + 1) = roundsTo n ++ [n + 1].
Proof.
  intros Hn. unfold roundsTo.
  replace (Z.to_nat (n + 1)) with (S (Z.to_nat n)) by lia.
  rewrite seq_S, fmap_app. simpl. do 3 f_equal. lia.
Qed.

Lemma elem_of_roundsTo n k : k ∈ roundsTo n ↔ 1 ≤ k ≤ n.
Proof.
  unfold roundsTo. rewrite list_elem_of_fmap. split.
  - intros (i & -> & Hi). apply elem_of_seq in Hi. lia.
  - intros Hk. exists (Z.to_nat (k - 1)). split; [lia|].
    apply elem_of_seq. lia.
Qed.

Lemma keeps_refl w : keeps w w.
Proof. split; [done|by left]. Qed.

Lemma keeps_update w ts us v' idx m :
  updateTeamsAndMatch w ts us = Some v' →
  myMatchEntry w = Some (idx, m) →
  (Booked m → Booked (spread m us)) →
  keeps w v'.
Proof.
  intros Hv Hm Hb.
  destruct (updateTeamsAndMatch_spec w ts us idx m Hm)
    as (v1 & Hv1 & Hid & _ & _ & Hms & _).
  rewrite Hv in Hv1. injection Hv1 as <-.
  split; [done|]. right. by exists idx, m, (spread m us).
Qed.

Lemma isMyTurn_owner v m :
  myMatch v = Some m → isMyTurn v = true → turnOwner m = Some (teamId v).
Proof.
  unfold isMyTurn. intros ->. by intros ?%bool_decide_eq_true.
Qed.

Lemma Booked_decision m o :
  Booked m → turnOwner m = Some o → roundStatus m = DECISION.
Proof. intros Hb Ho. apply (bk_turn _ Hb). by rewrite Ho. Qed.

Lemma countResult_snoc c h x :
  countResult c (h ++ [x]) = countResult c h + (if decide (result x = c) then 1 else 0).
Proof.
  unfold countResult. rewrite filter_app, length_app, filter_cons, filter_nil.
  case_decide; simpl; lia.
Qed.

Lemma Booked_resolved m m' item :
  Booked m → resolvedRounds m = currentRound m - 1 →
  currentRound m' = currentRound m → roundStatus m' = RESULT →
  turnOwner m' = None → history m' = history m ++ [item] →
  r_round item = currentRound m →
  pot m' = 0 →
  teamAScore m' = teamAScore m + (if decide (result item = A_WON) then 1 else 0) →
  teamBScore m' = teamBScore m + (if decide (result item = B_WON) then 1 else 0) →
  Booked m'.
Proof.
  intros [Hr Ht Hh _ Hp HsA HsB] Hres Hcr Hrs Hto Hhi Hit Hpot HA HB.
  constructor.
  - by rewrite Hcr.
  - rewrite Hto. by intros [? ?].
  - rewrite Hhi, fmap_app, Hh, Hres. unfold resolvedRounds. rewrite Hrs, Hcr.
    replace (currentRound m) with (currentRound m - 1 + 1) at 2 by lia.
    rewrite roundsTo_succ by lia. simpl. rewrite Hit. do 2 f_equal. lia.
  - by rewrite Hrs.
  - done.
  - rewrite Hhi, countResult_snoc. congruence.
  - rewrite Hhi, countResult_snoc. congruence.
Qed.

(** A transition that keeps the round, its history, its pot, its scores
    and the number of resolved rounds, names a turn owner only in DECISION
    and does not finish the match. *)
Lemma Booked_same m m' :
  Booked m →
  currentRound m' = currentRound m → history m' = history m →
  pot m' = pot m → teamAScore m' = teamAScore m → teamBScore m' = teamBScore m →
  resolvedRounds m' = resolvedRounds m →
  roundStatus m' ≠ FINISHED →
  (is_Some (turnOwner m') → roundStatus m' = DECISION) →
  Booked m'.
Proof.
  intros [Hr Ht Hh _ Hp HsA HsB] Hcr Hhi Hpot HA HB Hres Hnf Hto.
  constructor; [by rewrite Hcr|done|by rewrite Hhi, Hres|done|congruence..].
Qed.

Lemma readyEffect_keeps w w' : readyEffect w = Some w' → keeps w w'.
Proof.
  intros H. unfold readyEffect in H.
  destruct (myMatchEntry w) as [[idx m]|] eqn:Hm.
  2:{ unfold myMatch in H. rewrite Hm in H. simpl in H.
      destruct (decide _); injection H as <-; apply keeps_refl. }
  rewrite (myMatch_entry _ _ _ Hm) in H.
  along H; try (injection H as <-; apply keeps_refl);
    (eapply keeps_update; [exact H|exact Hm|]).
  - clear H. intros Hb. pose proof (bk_turn _ Hb) as Ht.
    apply (Booked_same m); [done|by destruct m..| |by destruct m|].
    + unfold resolvedRounds. replace (roundStatus m) with READY. by destruct m.
    + replace (turnOwner (spread _ _)) with (turnOwner m) by (by destruct m).
      intros Hs. specialize (Ht Hs). congruence.
  - clear H. intros Hb.
    apply (Booked_same m); [done|by destruct m..| |by destruct m|by destruct m].
    unfold resolvedRounds. replace (roundStatus m) with READY. by destruct m.
Qed.

Lemma handleFold_keeps w w' : handleFold w = Some w' → keeps w w'.
Proof.
  intros H. unfold handleFold in H.
  destruct (isMyTurn w) eqn:Hturn; simpl in H;
    [|injection H as <-; apply keeps_refl].
  destruct (myMatchEntry w) as [[idx m]|] eqn:Hm.
  2:{ unfold myMatch in H. by rewrite Hm in H. }
  pose proof (isMyTurn_owner _ _ (myMatch_entry _ _ _ Hm) Hturn) as Hown.
  rewrite (myMatch_entry _ _ _ Hm) in H. simpl in H.
  along H. eapply keeps_update; [exact H|exact Hm|].
  clear H. intros Hb. pose proof (Booked_decision _ _ Hb Hown) as Hrs.
  eapply Booked_resolved; [exact Hb|..]; try (by destruct m);
    [unfold resolvedRounds; by rewrite Hrs
    |rewrite <- (bk_pot _ Hb); by destruct m|..];
    destruct (isTeamA w m); destruct m; simpl; lia.
Qed.

Lemma handleShowdown_keeps w w' : handleShowdown w = Some w' → keeps w w'.
Proof.
  intros H. unfold handleShowdown in H.
  destruct (myMatchEntry w) as [[idx m]|] eqn:Hm.
  2:{ unfold myMatch in H. by rewrite Hm in H. }
  rewrite (myMatch_entry _ _ _ Hm) in H. simpl in H.
  destruct (decide (roundStatus m ≠ SHOWDOWN)) as [|Hrs];
    [injection H as <-; apply keeps_refl|].
  apply dec_stable in Hrs.
  along H.
  eapply keeps_update; [exact H|exact Hm|].
  clear H. intros Hb.
  eapply Booked_resolved; [exact Hb|..]; try (by destruct m).
  - unfold resolvedRounds. by rewrite Hrs.
  - clear -Heqp. repeat case_decide; simplify_eq; destruct m; simpl;
      repeat case_decide; try done; lia.
  - clear -Heqp. repeat case_decide; simplify_eq; destruct m; simpl;
      repeat case_decide; try done; lia.
Qed.

Lemma keeps_updateMatchState w us v' idx m :
  updateMatchState w us = Some v' →
  myMatchEntry w = Some (idx, m) →
  (Booked m → Booked (spread m us)) →
  keeps w v'.
Proof. apply (keeps_update w (teams (room w))). Qed.

Lemma clickConfirmResult_keeps w w' : clickConfirmResult w = Some w' → keeps w w'.
Proof.
  intros H. unfold clickConfirmResult, resultModalShown in H.
  destruct (myMatchEntry w) as [[idx m]|] eqn:Hm.
  2:{ unfold myMatch in H. rewrite Hm in H. injection H as <-. apply keeps_refl. }
  rewrite (myMatch_entry _ _ _ Hm) in H. simpl in H.
  destruct (bool_decide_reflect (roundStatus m = RESULT)) as [Hrs|];
    [|injection H as <-; apply keeps_refl].
  simpl in H.
  destruct (_ && _); [|injection H as <-; apply keeps_refl].
  unfold handleConfirmResult in H.
  rewrite (myMatch_entry _ _ _ Hm) in H. simpl in H.
  destruct (_ && _).
  - eapply keeps_updateMatchState; [exact H|exact Hm|].
    clear H. intros [Hr Ht Hh _ Hp HsA HsB]. unfold TOTAL_ROUNDS in *.
    case_bool_decide.
    + constructor; [by destruct m| | | |by destruct m..].
      { intros Hs. specialize (Ht ltac:(by destruct m)). congruence. }
      { replace (r_round <$> history _) with (r_round <$> history m) by (by destruct m).
        rewrite Hh. f_equal. unfold resolvedRounds. rewrite Hrs. by destruct m. }
      intros _. destruct m; unfold TOTAL_ROUNDS; simpl in *; lia.
    + constructor; [destruct m; unfold TOTAL_ROUNDS; simpl in *; lia| | | |by destruct m..].
      * intros Hs. specialize (Ht ltac:(by destruct m)). congruence.
      * replace (r_round <$> history _) with (r_round <$> history m) by (by destruct m).
        rewrite Hh. f_equal. unfold resolvedRounds. rewrite Hrs.
        destruct m; simpl. lia.
      * by destruct m.
  - eapply keeps_updateMatchState; [exact H|exact Hm|].
    clear H. intros Hb.
    apply (Booked_same m); [done|by destruct m..| |].
    + replace (roundStatus _) with (roundStatus m) by (by destruct m). by rewrite Hrs.
    + destruct Hb as [_ Ht _ _ _ _ _]. by destruct m.
Qed.

Lemma updateTeamsAndMatch_modal w ts us v' :
  updateTeamsAndMatch w ts us = Some v' → stealModalOpen v' = stealModalOpen w.
Proof.
  unfold updateTeamsAndMatch. intros H. along H. simpl in H. injection H as <-.
  unfold onUpdate. by rewrite (proj1 (proj2 (proj2 (syncStrategy_cells _)))).
Qed.

Lemma clickStealMinus_room v i v' :
  clickStealMinus v i = Some v' →
  room v' = room v ∧ teamId v' = teamId v ∧ stealModalOpen v' = stealModalOpen v.
Proof.
  intros H. unfold clickStealMinus, adjustTempChips in H.
  along H; by injection H as <-.
Qed.

Lemma stealClicks_room idxs : ∀ v v',
  stealClicks v idxs = Some v' →
  room v' = room v ∧ teamId v' = teamId v ∧ stealModalOpen v' = stealModalOpen v.
Proof.
  induction idxs as [|i idxs IH]; intros v v' H; simpl in H.
  - by injection H as <-.
  - destruct (clickStealMinus v i) as [v1|] eqn:H1; [|done]. simpl in H.
    apply clickStealMinus_room in H1 as (Hr & Hi & Ho).
    apply IH in H as (Hr' & Hi' & Ho'). split_and!; congruence.
Qed.

(** A call changes the room only through a funded call; otherwise it
    leaves the room alone, and opens the steal modal only for the turn
    owner. *)
Lemma handleCall_cases w v1 :
  handleCall w = Some v1 →
  (keeps w v1 ∧ stealModalOpen v1 = stealModalOpen w) ∨
  (room v1 = room w ∧ teamId v1 = teamId w ∧ isMyTurn w = true).
Proof.
  intros H. unfold handleCall in H.
  destruct (isMyTurn w) eqn:Hturn; simpl in H;
    [|injection H as <-; left; split; [apply keeps_refl|done]].
  destruct (myMatchEntry w) as [[idx m]|] eqn:Hm.
  2:{ unfold myMatch in H. by rewrite Hm in H. }
  pose proof (isMyTurn_owner _ _ (myMatch_entry _ _ _ Hm) Hturn) as Hown.
  rewrite (myMatch_entry _ _ _ Hm) in H. simpl in H.
  along H.
  - left. split; [|by eapply updateTeamsAndMatch_modal].
    eapply keeps_update; [exact H|exact Hm|].
    clear H. intros Hb. pose proof (Booked_decision _ _ Hb Hown) as Hrs.
    apply (Booked_same m);
      [done|by destruct m..| |by destruct m|by destruct m; intros [? ?]].
    unfold resolvedRounds. rewrite Hrs. by destruct m.
  - right. by injection H as <-.
Qed.

Lemma clickStealConfirm_cases v v' :
  clickStealConfirm v = Some v' →
  v' = v ∨
  (stealModalOpen v = true ∧ teamId v' = teamId v ∧
   ∃ i m, myMatchEntry v = Some (i, m) ∧
     matches (room v') =
       <[i := spread m [SetRoundStatus SHOWDOWN; SetTurnOwner None]]> (matches (room v))).
Proof.
  intros H. unfold clickStealConfirm in H.
  destruct (stealModalOpen v) eqn:Hopen; simpl in H; [|injection H as <-; by left].
  destruct (canConfirmSteal v); [|injection H as <-; by left].
  right. split; [done|].
  unfold confirmSteal in H.
  destruct (myMatchEntry v) as [[idx m]|] eqn:Hm.
  2:{ unfold myMatch in H. by rewrite Hm in H. }
  rewrite (myMatch_entry _ _ _ Hm) in H. simpl in H.
  along H.
  match type of H with updateTeamsAndMatch ?w ?ts ?us = _ =>
    destruct (updateTeamsAndMatch_spec w ts us idx m Hm)
      as (v1 & Hv1 & Hid & _ & _ & Hms & _) end.
  rewrite H in Hv1. injection Hv1 as <-.
  split; [done|]. by exists idx, m.
Qed.

Lemma callSession_keeps w idxs w' :
  stealModalOpen w = false → callSession w idxs = Some w' → keeps w w'.
Proof.
  intros Hclosed H. unfold callSession in H.
  destruct (handleCall w) as [v1|] eqn:H1; [|done]. simpl in H.
  destruct (stealClicks v1 idxs) as [v2|] eqn:H2; [|done]. simpl in H.
  destruct (clickStealConfirm v2) as [v3|] eqn:H3; [|done]. simpl in H.
  injection H as <-.
  apply stealClicks_room in H2 as (Hr2 & Hi2 & Ho2).
  assert (Hcancel : room (clickStealCancel v3) = room v3 ∧
                    teamId (clickStealCancel v3) = teamId v3).
  { unfold clickStealCancel. by destruct (stealModalOpen v3). }
  destruct Hcancel as [Hrc Hic].
  apply clickStealConfirm_cases in H3.
  apply handleCall_cases in H1 as [[[Hid Hk] Ho1]|(Hr1 & Hi1 & Hturn)].
  - destruct H3 as [->|[Hopen _]]; [|congruence].
    split; [congruence|]. rewrite Hrc, Hr2. exact Hk.
  - destruct H3 as [->|(_ & Hi3 & i & m & Hm & Hms)].
    + split; [congruence|]. left. congruence.
    + split; [congruence|]. right.
      rewrite (myMatchEntry_same w v2) in Hm by congruence.
      exists i, m, (spread m [SetRoundStatus SHOWDOWN; SetTurnOwner None]).
      split; [done|]. split; [rewrite Hrc, Hms; congruence|].
      intros Hb.
      pose proof (isMyTurn_owner _ _ (myMatch_entry _ _ _ Hm) Hturn) as Hown.
      pose proof (Booked_decision _ _ Hb Hown) as Hrs.
      apply (Booked_same m);
        [done|by destruct m..| |by destruct m|by destruct m; intros [? ?]].
      unfold resolvedRounds. rewrite Hrs. by destruct m.
Qed.

Lemma move_keeps mv w w' :
  stealModalOpen w = false → move mv w = Some w' → keeps w w'.
Proof.
  intros Hclosed H. destruct mv; simpl in H.
  - by apply readyEffect_keeps.
  - by apply handleFold_keeps.
  - by eapply callSession_keeps.
  - by apply handleShowdown_keeps.
  - by apply clickConfirmResult_keeps.
Qed.

(** The matches of a room after a step: each is where it was, and booked
    if it was. *)
Lemma step_Booked r r' idx m :
  step r r' → matches r !! idx = Some m → Booked m →
  ∃ m', matches r' !! idx = Some m' ∧ Booked m'.
Proof.
  intros [w mv w' <- Hclosed Hmv] Hidx Hb.
  destruct (move_keeps mv w w' Hclosed Hmv) as [_ [->|(i & m0 & m' & Hm & Hms & Hk)]].
  { by exists m. }
  rewrite Hms.
  destruct (decide (i = idx)) as [->|Hne].
  - apply list_find_Some in Hm as (Hl & _).
    rewrite Hidx in Hl. injection Hl as <-.
    exists m'. split; [|by apply Hk].
    apply list_lookup_insert_eq. by eapply lookup_lt_Some.
  - exists m. by rewrite list_lookup_insert_ne.
Qed.

Lemma FreshMatch_Booked m : FreshMatch m → Booked m.
Proof.
  intros (Hcr & Hrs & Hh & Hto & Hp & HA & HB).
  constructor.
  - rewrite Hcr. unfold TOTAL_ROUNDS. lia.
  - rewrite Hto. by intros [? ?].
  - rewrite Hh. unfold resolvedRounds. by rewrite Hrs, Hcr.
  - by rewrite Hrs.
  - done.
  - by rewrite HA, Hh.
  - by rewrite HB, Hh.
Qed.

Lemma reach_Booked r0 r idx m0 :
  rtc step r0 r → matches r0 !! idx = Some m0 → Booked m0 →
  ∃ m, matches r !! idx = Some m ∧ Booked m.
Proof.
  intros Hreach. revert m0.
  induction Hreach as [r|r r1 r2 Hstep _ IH]; intros m0 Hidx Hb.
  - by exists m0.
  - destruct (step_Booked _ _ _ _ Hstep Hidx Hb) as (m1 & Hidx1 & Hb1).
    by apply (IH m1).
Qed.

Lemma play_reach mvs : ∀ r r', play r mvs = Some r' → rtc step r r'.
Proof.
  induction mvs as [|[who mv] mvs IH]; intros r r' H; simpl in H.
  - injection H as <-. apply rtc_refl.
  - destruct (move mv (viewOf r who)) as [w|] eqn:Hw; [|done]. simpl in H.
    eapply rtc_l; [|by apply IH].
    by apply (step_move r (viewOf r who) mv w).
Qed.

Example fullGame_finishes :
  ∃ r m, play freshGame fullGame = Some r ∧ matches r !! 0%nat = Some m ∧
    roundStatus m = FINISHED ∧ currentRound m = 10 ∧
    result <$> history m =
      [B_WON; B_WON; B_WON; B_WON; A_FOLDED; DRAW; A_WON; A_WON; A_WON; B_FOLDED].
Proof. vm_compute. eexists _, _. split; [reflexivity|]. split; [reflexivity|]. done. Qed.



Lemma stealClicks_closed idxs : ∀ v,
  stealModalOpen v = false → stealClicks v idxs = Some v.
Proof.
  induction idxs as [|i idxs IH]; intros v Hc; simpl; [done|].
  unfold clickStealMinus. rewrite Hc. simpl. by apply IH.
Qed.

(** X2: a finished match is final.  In a room a fresh match has come to by
    moves of the teams, no move of a team whose match is FINISHED changes
    the room. *)
Theorem finished_is_final r0 r idx m0 w m mv w' :
  matches r0 !! idx = Some m0 → FreshMatch m0 → rtc step r0 r →
  room w = r → stealModalOpen w = false →
  myMatchEntry w = Some (idx, m) → roundStatus m = FINISHED →
  move mv w = Some w' →
  room w' = room w.
Proof.
  intros Hidx Hfresh Hreach Hr Hclosed Hm Hfin Hmv. subst r.
  destruct (reach_Booked r0 _ idx m0 Hreach Hidx (FreshMatch_Booked _ Hfresh))
    as (m' & Hm' & [_ Ht _ _ _ _ _]).
  pose proof Hm as (Hl & _)%list_find_Some.
  rewrite Hl in Hm'. injection Hm' as <-.
  assert (Hto : turnOwner m = None).
  { destruct (turnOwner m) as [o|] eqn:Ho; [|done].
    specialize (Ht ltac:(by eexists)). congruence. }
  assert (Hturn : isMyTurn w = false).
  { unfold isMyTurn. rewrite (myMatch_entry _ _ _ Hm), Hto.
    by apply bool_decide_eq_false_2. }
  destruct mv; simpl in Hmv.
  - unfold readyEffect in Hmv. rewrite (myMatch_entry _ _ _ Hm) in Hmv.
    along Hmv; try (by injection Hmv as <-); congruence.
  - unfold handleFold in Hmv. rewrite Hturn in Hmv. by injection Hmv as <-.
  - unfold callSession, handleCall in Hmv. rewrite Hturn in Hmv. simpl in Hmv.
    rewrite stealClicks_closed in Hmv by done. simpl in Hmv.
    unfold clickStealConfirm, clickStealCancel in Hmv. rewrite Hclosed in Hmv.
    simpl in Hmv. rewrite Hclosed in Hmv. by injection Hmv as <-.
  - unfold handleShowdown in Hmv. rewrite (myMatch_entry _ _ _ Hm) in Hmv.
    simpl in Hmv. rewrite decide_True in Hmv by congruence. by injection Hmv as <-.
  - rewrite (clickConfirmResult_gate w m) in Hmv;
      [by injection Hmv as <-|exact (myMatch_entry _ _ _ Hm)|left; congruence].
Qed.

Lemma finished_is_final_witness :
  let w := viewOf finishedGame "B" in
  move (MCall [9%nat]) w = Some w ∧ room w = finishedGame.
Proof.
  assert (Hmv : move (MCall [9%nat]) (viewOf finishedGame "B")
                = Some (viewOf finishedGame "B")) by (vm_compute; reflexivity).
  split; [exact Hmv|].
  apply (finished_is_final freshGame finishedGame 0 (exMatch 1 READY None 0 ∅)
           (viewOf finishedGame "B")
           (default (exMatch 1 READY None 0 ∅) (matches finishedGame !! 0%nat))
           (MCall [9%nat]) (viewOf finishedGame "B")).
  - reflexivity.
  - repeat split; reflexivity.
  - apply (play_reach fullGame). vm_compute. reflexivity.
  - reflexivity.
  - reflexivity.
  - vm_compute. reflexivity.
  - vm_compute. reflexivity.
  - exact Hmv.
Defined.

Lemma revealedRounds_Booked m k :
  Booked m → roundStatus m ≠ FINISHED → 1 ≤ k →
  (k ∈ revealedRounds m ↔
   if decide (roundStatus m = READY ∨ roundStatus m = DECISION)
   then k < currentRound m else k ≤ currentRound m).
Proof.
  intros [Hr Ht Hh _] Hnf Hk. unfold revealedRounds. rewrite Hh.
  unfold resolvedRounds.
  destruct (roundStatus m) eqn:Hrs; try done; simpl;
    rewrite ?bool_decide_eq_true_2 by lia; simpl.
  - rewrite elem_of_roundsTo. lia.
  - rewrite elem_of_roundsTo. lia.
  - rewrite (bool_decide_eq_false_2 (_ ∈ _)) by (rewrite elem_of_roundsTo; lia).
    simpl. rewrite elem_of_app, elem_of_roundsTo, list_elem_of_singleton. lia.
  - rewrite elem_of_roundsTo. lia.
Qed.



(** ** The editor and the submission *)

Lemma sum_chips_lower s :
  (∀ i x, s !! i = Some x → 1 ≤ chips x) → Z.of_nat (length s) ≤ sum_chips s.
Proof.
  induction s as [|x s IH]; intros H; [done|].
  rewrite sum_chips_cons. simpl length.
  pose proof (H 0%nat x eq_refl).
  assert (Z.of_nat (length s) ≤ sum_chips s).
  { apply IH. intros i y Hy. by apply (H (S i)). }
  lia.
Qed.

Lemma sum_chips_fmap s s' : chips <$> s' = chips <$> s → sum_chips s' = sum_chips s.
Proof.
  revert s'. induction s as [|x s IH]; intros [|y s'] H; try done.
  injection H as Hxy H. rewrite !sum_chips_cons, (IH s') by done. lia.
Qed.

Lemma fmap_chips_insert_card l z x c :
  at_index l z = Some x →
  chips <$> <[Z.to_nat z := with_card x c]> l = chips <$> l.
Proof.
  intros [_ Hx]%at_index_Some. rewrite list_fmap_insert. simpl.
  apply list_insert_id. by rewrite list_lookup_fmap, Hx.
Qed.

(** Dropping a card and taking one off the board leave every chip where
    it is. *)
Lemma handleDrop_chips v item dz v' :
  handleDrop v item dz = Some v' →
  chips <$> st_strategy v' = chips <$> st_strategy v.
Proof.
  intros H. unfold handleDrop in H.
  destruct (editLocked v); [by injection H as <-|].
  destruct item as [[c src]|]; [|by injection H as <-]. simpl in H.
  destruct dz as [z|].
  - destruct (decide (z = -1)); [by injection H as <-|].
    destruct src as [|k].
    + along H. injection H as <-. simpl. by apply fmap_chips_insert_card.
    + destruct (decide _); [|by injection H as <-].
      along H. injection H as <-. simpl.
      rewrite fmap_chips_insert_card by done. by apply fmap_chips_insert_card.
  - destruct src as [|k]; [by injection H as <-|].
    destruct (decide _); [|by injection H as <-].
    along H. injection H as <-. simpl. by apply fmap_chips_insert_card.
Qed.

Lemma handleCardDoubleClick_chips v z v' :
  handleCardDoubleClick v z = Some v' →
  chips <$> st_strategy v' = chips <$> st_strategy v.
Proof.
  intros H. unfold handleCardDoubleClick in H.
  destruct (editLocked v); [by injection H as <-|].
  along H. injection H as <-. simpl. by apply fmap_chips_insert_card.
Qed.

(** What a gesture does to the chips on the board: nothing, or one chip
    more on a round while the total is below the budget, or one chip
    less. *)
Lemma gesture_chips v g v' :
  gesture v g = Some v' →
  sum_chips (st_strategy v') = sum_chips (st_strategy v) ∨
  (sum_chips (st_strategy v') = sum_chips (st_strategy v) + 1 ∧
   sum_chips (st_strategy v) < TOTAL_CHIPS) ∨
  sum_chips (st_strategy v') = sum_chips (st_strategy v) - 1.
Proof.
  intros H. unfold gesture in H.
  destruct (decide (status (room v) ≠ PREPARING)); [injection H as <-; by left|].
  destruct g as [i plus|c target|i target|i].
  - destruct (st_strategy v !! i) as [e|] eqn:He; [|injection H as <-; by left].
    destruct (readOnly v); [injection H as <-; by left|].
    unfold handleSetChips in H.
    destruct (editLocked v); [injection H as <-; by left|].
    rewrite at_index_of_nat, He in H. simpl in H.
    destruct (decide (chips e + _ < 1)); [injection H as <-; by left|].
    destruct (decide (0 < _ ∧ _)) as [|Hcap]; [injection H as <-; by left|].
    injection H as <-. simpl. rewrite Nat2Z.id.
    rewrite (sum_chips_insert _ _ e) by done. simpl.
    destruct plus; [right; left; split; lia|right; right; lia].
  - left. apply sum_chips_fmap.
    along H; try (by injection H as <-); by eapply handleDrop_chips.
  - left. apply sum_chips_fmap.
    along H; try (by injection H as <-); by eapply handleDrop_chips.
  - left. apply sum_chips_fmap.
    along H; try (by injection H as <-); by eapply handleCardDoubleClick_chips.
Qed.

(** X4: the editor never overdraws the budget.  From a strategy the editor
    can hold whose chips are within the budget, every sequence of
    gestures runs through and leaves the remaining budget between 0 and
    20: no round is ever below one chip and the total never above 30. *)
Theorem editor_budget gs : ∀ v,
  EditorInv (st_strategy v) → 0 ≤ remainingChips v →
  ∃ v', gestures v gs = Some v' ∧ 0 ≤ remainingChips v' ≤ 20.
Proof.
  assert (Hlow : ∀ v, EditorInv (st_strategy v) → remainingChips v ≤ 20).
  { intros v [Hlen Hchips _ _]. pose proof (sum_chips_lower _ Hchips) as Hs.
    rewrite Hlen in Hs. unfold remainingChips, usedChips, TOTAL_CHIPS. lia. }
  induction gs as [|g gs IH]; intros v Hinv Hrem; simpl.
  - exists v. split; [done|]. split; [done|by apply Hlow].
  - destruct (gesture_inv v g Hinv) as (v1 & Hg & Hstep). rewrite Hg. simpl.
    apply IH.
    + destruct Hstep as [->|(s1 & -> & Hinv1)]; done.
    + pose proof (gesture_chips v g v1 Hg) as Hc.
      unfold remainingChips, usedChips in *. lia.
Qed.

Lemma editor_budget_witness :
  ∃ v', gestures (prepView freshStrategy) editorRun = Some v' ∧
        0 ≤ remainingChips v' ≤ 20.
Proof.
  apply (editor_budget editorRun (prepView freshStrategy)).
  - apply freshStrategy_inv.
  - vm_compute. discriminate.
Defined.

Lemma setStrategy_back v s : setStrategy (setStrategy v s) (st_strategy v) = v.
Proof. by destruct v. Qed.

(** X5: a drag between two rounds swaps their cards and can be undone.
    While editing is open, dragging the card of round [i] onto another
    round [j] of the board puts it there and the card (or the empty slot)
    of [j] on [i], with every chip where it was; dragging the card back
    from [j] onto [i] restores the view. *)
Theorem drag_between_rounds v (i j : nat) a b :
  editLocked v = false →
  st_strategy v !! i = Some a → st_strategy v !! j = Some b →
  i ≠ j → card a ≠ -1 →
  ∃ v',
    handleDrop v (handleDragStart v (card a) (FromRound (Z.of_nat i)))
      (Some (Z.of_nat j)) = Some v' ∧
    st_strategy v' =
      <[i := with_card a (card b)]> (<[j := with_card b (card a)]> (st_strategy v)) ∧
    chips <$> st_strategy v' = chips <$> st_strategy v ∧
    handleDrop v' (handleDragStart v' (card a) (FromRound (Z.of_nat j)))
      (Some (Z.of_nat i)) = Some v.
Proof.
  intros Hopen Ha Hb Hij Hcard.
  assert (Hfwd : handleDrop v (handleDragStart v (card a) (FromRound (Z.of_nat i)))
                   (Some (Z.of_nat j))
                 = Some (setStrategy v (<[i := with_card a (card b)]>
                                          (<[j := with_card b (card a)]> (st_strategy v))))).
  { unfold handleDrop, handleDragStart. rewrite Hopen.
    rewrite (decide_False (P := card a = -1)) by done. simpl.
    rewrite decide_False by lia. rewrite decide_True by lia.
    rewrite at_index_of_nat, Hb. simpl.
    rewrite at_index_of_nat, !Nat2Z.id.
    rewrite list_lookup_insert_ne by done. rewrite Ha. done. }
  eexists. split; [exact Hfwd|]. split; [done|].
  split; [by eapply handleDrop_chips|].
  set (s' := <[i := _]> _).
  assert (Hlock : editLocked (setStrategy v s') = false) by done.
  assert (Hj' : s' !! j = Some (with_card b (card a))).
  { unfold s'. rewrite list_lookup_insert_ne by done.
    apply list_lookup_insert_eq. by eapply lookup_lt_Some. }
  assert (Hi' : s' !! i = Some (with_card a (card b))).
  { unfold s'. apply list_lookup_insert_eq. rewrite length_insert.
    by eapply lookup_lt_Some. }
  unfold handleDrop, handleDragStart. rewrite Hlock.
  rewrite (decide_False (P := card a = -1)) by done. simpl.
  rewrite decide_False by lia. rewrite decide_True by lia.
  rewrite at_index_of_nat, Hi'. simpl.
  rewrite at_index_of_nat, !Nat2Z.id.
  rewrite list_lookup_insert_ne by done. rewrite Hj'. simpl.
  f_equal. rewrite <- (setStrategy_back v s') at 2. simpl. f_equal.
  unfold s'. apply list_eq. intros k.
  destruct (decide (k = j)) as [->|Hkj].
  - rewrite list_lookup_insert_eq.
    + rewrite Hb. by destruct b.
    + rewrite !length_insert. by eapply lookup_lt_Some.
  - rewrite list_lookup_insert_ne by done.
    destruct (decide (k = i)) as [->|Hki].
    + rewrite list_lookup_insert_eq.
      * rewrite Ha. by destruct a.
      * rewrite !length_insert. by eapply lookup_lt_Some.
    + by rewrite !list_lookup_insert_ne by done.
Qed.

Lemma drag_between_rounds_witness :
  let s := mkStrategy [(4,3);(7,2);(-1,1)] in
  ∃ v',
    handleDrop (prepView s) (handleDragStart (prepView s) 4 (FromRound 0))
      (Some 2) = Some v' ∧
    st_strategy v' = mkStrategy [(-1,3);(7,2);(4,1)] ∧
    chips <$> st_strategy v' = [3; 2; 1] ∧
    handleDrop v' (handleDragStart v' 4 (FromRound 2)) (Some 0) = Some (prepView s).
Proof.
  apply (drag_between_rounds (prepView (mkStrategy [(4,3);(7,2);(-1,1)])) 0 2
           (mkRoundStrategy 1 4 3) (mkRoundStrategy 3 (-1) 1));
    [reflexivity|reflexivity|reflexivity|lia|simpl; lia].
Defined.

Lemma elem_of_used_cards s c :
  c ∈ used_cards s ↔ c ≠ -1 ∧ ∃ k y, s !! k = Some y ∧ card y = c.
Proof.
  unfold used_cards. rewrite list_elem_of_filter, list_elem_of_fmap.
  split.
  - intros [Hc (y & -> & Hy)]. split; [done|].
    apply list_elem_of_lookup_1 in Hy as [k Hk]. by exists k, y.
  - intros [Hc (k & y & Hk & <-)]. split; [done|].
    exists y. split; [done|]. by eapply list_elem_of_lookup_2.
Qed.

(** X6: a card taken off the board is back in the deck.  On a board the
    editor can hold, a double click on the card of a round, and a drag of
    it dropped outside the board, both empty the round; the deck then
    counts as used exactly the cards it counted before but this one, and
    every chip is where it was. *)
Theorem card_off_board v (i : nat) e :
  editLocked v = false → EditorInv (st_strategy v) →
  st_strategy v !! i = Some e → card e ≠ -1 →
  ∃ v',
    handleCardDoubleClick v (Z.of_nat i) = Some v' ∧
    handleDrop v (handleDragStart v (card e) (FromRound (Z.of_nat i))) None = Some v' ∧
    st_strategy v' = <[i := with_card e (-1)]> (st_strategy v) ∧
    (∀ c, c ∈ usedCards v' ↔ c ∈ usedCards v ∧ c ≠ card e) ∧
    chips <$> st_strategy v' = chips <$> st_strategy v.
Proof.
  intros Hopen Hinv He Hcard.
  assert (Hdc : handleCardDoubleClick v (Z.of_nat i)
                = Some (setStrategy v (<[i := with_card e (-1)]> (st_strategy v)))).
  { unfold handleCardDoubleClick. rewrite Hopen, at_index_of_nat, He. simpl.
    by rewrite Nat2Z.id. }
  eexists. split; [exact Hdc|]. split.
  { unfold handleDrop, handleDragStart. rewrite Hopen.
    rewrite (decide_False (P := card e = -1)) by done. simpl.
    rewrite decide_True by lia. rewrite at_index_of_nat, He. simpl.
    by rewrite Nat2Z.id. }
  split; [done|]. split; [|by eapply handleCardDoubleClick_chips].
  intros c. unfold usedCards. simpl. rewrite !elem_of_used_cards. split.
  - intros [Hc (k & y & Hk & Hy)].
    destruct (decide (k = i)) as [->|Hki].
    + rewrite list_lookup_insert_eq in Hk by (by eapply lookup_lt_Some).
      injection Hk as <-. simpl in Hy. congruence.
    + rewrite list_lookup_insert_ne in Hk by done.
      split; [split; [done|by exists k, y]|].
      intros ->. apply Hki.
      apply (ei_inj _ Hinv k i y e); [done|done|done|congruence].
  - intros [[Hc (k & y & Hk & Hy)] Hne]. split; [done|].
    exists k, y. split; [|done].
    rewrite list_lookup_insert_ne; [done|]. intros <-. congruence.
Qed.

Lemma card_off_board_witness :
  let s := mkStrategy [(4,3);(7,2);(-1,1);(0,1);(1,1);(2,1);(3,1);(5,1);(6,1);(8,1)] in
  ∃ v',
    handleCardDoubleClick (prepView s) 1 = Some v' ∧
    handleDrop (prepView s) (handleDragStart (prepView s) 7 (FromRound 1)) None = Some v' ∧
    st_strategy v' = <[1%nat := mkRoundStrategy 2 (-1) 2]> s ∧
    (∀ c, c ∈ usedCards v' ↔ c ∈ usedCards (prepView s) ∧ c ≠ 7) ∧
    chips <$> st_strategy v' = chips <$> s.
Proof.
  apply (card_off_board
           (prepView (mkStrategy [(4,3);(7,2);(-1,1);(0,1);(1,1);(2,1);(3,1);(5,1);(6,1);(8,1)]))
           1 (mkRoundStrategy 2 7 2)).
  - reflexivity.
  - split.
    + reflexivity.
    + intros i x Hx.
      do 10 (destruct i as [|i]; [injection Hx as <-; simpl; lia|]). done.
    + intros i x Hx.
      do 10 (destruct i as [|i];
             [injection Hx as <-; simpl;
              first [by left | right; by apply (bool_decide_unpack _)]|]).
      done.
    + intros i j x y Hx Hy Hxy Hne.
      do 10 (destruct i as [|i];
        [injection Hx as <-;
         do 10 (destruct j as [|j]; [injection Hy as <-; simpl in *; first [done|lia]|]);
         done|]).
      done.
  - reflexivity.
  - simpl. lia.
Defined.

Lemma readOnly_gesture v g : readOnly v = true → gesture v g = Some v.
Proof.
  intros Hro. unfold gesture. rewrite Hro. simpl.
  case_decide; [done|]. destruct g; by repeat case_match.
Qed.

Lemma confirmSubmit_cells v :
  isAdminMode (confirmSubmit v) = isAdminMode v ∧
  alerts (confirmSubmit v) = alerts v ∧
  status (room (confirmSubmit v)) = status (room v) ∧
  matches (room (confirmSubmit v)) = matches (room v).
Proof.
  unfold confirmSubmit. simpl. rewrite onUpdate_room. simpl.
  unfold onUpdate.
  destruct (syncStrategy_cells
              (mkView (mkRoom (r_id (room v)) (status (room v))
                         ((λ t, if decide (t_id t = teamId v)
                                then with_ready_strategy t (st_strategy v) else t)
                            <$> teams (room v)) (matches (room v)))
                 (teamId v) (isAdminMode v) (st_strategy v) (neededChips v)
                 (submitConfirmOpen v) (stealModalOpen v) (tempStrategy v) (alerts v)))
    as (_ & _ & _ & _ & Hal & Had).
  by rewrite Hal, Had.
Qed.

Lemma confirmSubmit_others v j :
  j ≠ teamId v →
  find_team (teams (room (confirmSubmit v))) j = find_team (teams (room v)) j.
Proof.
  intros Hj. unfold confirmSubmit. simpl. rewrite onUpdate_room. simpl.
  rewrite find_team_fmap by (intros; by case_decide).
  destruct (find_team (teams (room v)) j) as [t|] eqn:Ht; [|done]. simpl.
  apply find_team_id in Ht. rewrite decide_False; [done|congruence].
Qed.

(** X7: a submitted strategy is locked.  Outside admin mode, once the
    submission has passed the two tests and YES is clicked, the team is
    ready and every sequence of gestures on board and deck leaves the view
    exactly as it is. *)
Theorem submitted_is_locked v t gs :
  isAdminMode v = false → team v = Some t → passesChecks v →
  let w := clickSubmitYes (handleSubmitStrategy v) in
  (∃ t', team w = Some t' ∧ isReady t' = true) ∧ gestures w gs = Some w.
Proof.
  intros Hadm Ht Hpass w.
  assert (Hw : w = confirmSubmit (setSubmitConfirmOpen v true)).
  { unfold w. by rewrite (handleSubmitStrategy_accepts v Hadm Hpass). }
  assert (Hteam : team w = Some (with_ready_strategy t (st_strategy v))).
  { rewrite Hw. by apply (confirmSubmit_team (setSubmitConfirmOpen v true) t). }
  split; [by eexists|].
  assert (Hro : readOnly w = true).
  { unfold readOnly. rewrite Hteam. simpl.
    rewrite Hw, (proj1 (confirmSubmit_cells _)). simpl. by rewrite Hadm. }
  clearbody w. induction gs as [|g gs IH]; simpl; [done|].
  by rewrite readOnly_gesture.
Qed.

Lemma submitted_is_locked_witness :
  let s := mkStrategy [(0,3);(1,3);(2,3);(3,3);(4,3);(5,3);(6,3);(7,3);(8,3);(9,3)] in
  let w := clickSubmitYes (handleSubmitStrategy (prepView s)) in
  (∃ t', team w = Some t' ∧ isReady t' = true) ∧ gestures w editorRun = Some w.
Proof.
  apply (submitted_is_locked
           (prepView (mkStrategy [(0,3);(1,3);(2,3);(3,3);(4,3);(5,3);(6,3);(7,3);(8,3);(9,3)]))
           (mkTeam "A" "A" false 0%Qc [] None) editorRun).
  - reflexivity.
  - reflexivity.
  - split; reflexivity.
Defined.

(** X8: the admin bypass.  In admin mode the submission runs neither test
    and asks for no confirmation: whatever the editor holds is stored as
    the strategy of the team, which is set ready, without an alert; the
    other teams, the matches and the status of the room are as before. *)
Theorem admin_submission_unchecked v t :
  isAdminMode v = true → team v = Some t →
  let w := handleSubmitStrategy v in
  team w = Some (with_ready_strategy t (st_strategy v)) ∧
  alerts w = alerts v ∧
  status (room w) = status (room v) ∧
  matches (room w) = matches (room v) ∧
  ∀ j, j ≠ teamId v → find_team (teams (room w)) j = find_team (teams (room v)) j.
Proof.
  intros Hadm Ht w. unfold w, handleSubmitStrategy. rewrite Hadm. simpl.
  destruct (confirmSubmit_cells v) as (_ & Hal & Hst & Hms).
  split; [by apply confirmSubmit_team|]. split; [done|]. split; [done|].
  split; [done|]. intros j Hj. by apply confirmSubmit_others.
Qed.

Lemma admin_submission_unchecked_witness :
  let w := handleSubmitStrategy adminView in
  team w = Some (mkTeam "A" "A" true 0%Qc [] (Some freshStrategy)) ∧
  alerts w = [] ∧
  status (room w) = PREPARING ∧
  matches (room w) = [] ∧
  ∀ j, j ≠ "A" → find_team (teams (room w)) j = find_team (teams (room adminView)) j.
Proof.
  apply (admin_submission_unchecked adminView (mkTeam "A" "A" false 0%Qc [] None));
    reflexivity.
Defined.

(** ** The dashboard *)

Lemma insertByWinnings_perm x l : insertByWinnings x l ≡ₚ x :: l.
Proof.
  induction l as [|y l IH]; simpl; [done|].
  case_decide; [done|]. rewrite IH. apply Permutation_swap.
Qed.

Lemma sortByWinnings_perm l : sortByWinnings l ≡ₚ l.
Proof.
  induction l as [|x l IH]; simpl; [done|].
  by rewrite insertByWinnings_perm, IH.
Qed.

Lemma insertByWinnings_sorted x l :
  StronglySorted byWinnings l → StronglySorted byWinnings (insertByWinnings x l).
Proof.
  induction 1 as [|y l Hl IH Hy]; simpl.
  - by repeat constructor.
  - case_decide as Hxy.
    + constructor; [by constructor|].
      constructor; [done|].
      eapply Forall_impl; [exact Hy|]. intros z Hz. unfold byWinnings in *.
      by eapply Qcle_trans.
    + constructor; [done|].
      rewrite insertByWinnings_perm. constructor; [|done].
      unfold byWinnings. apply Qclt_le_weak. by apply Qcnot_le_lt.
Qed.

Lemma sortByWinnings_sorted l : StronglySorted byWinnings (sortByWinnings l).
Proof.
  induction l as [|x l IH]; simpl; [constructor|].
  by apply insertByWinnings_sorted.
Qed.

Lemma StronglySorted_lookup {A} (R : relation A) l (i j : nat) x y :
  StronglySorted R l → l !! i = Some x → l !! j = Some y → (i < j)%nat → R x y.
Proof.
  intros Hl. revert i j. induction Hl as [|z l Hl IH Hz]; intros i j Hi Hj Hij; [done|].
  destruct i as [|i], j as [|j]; try lia; simpl in *.
  - injection Hi as <-. rewrite Forall_forall in Hz. apply Hz.
    by eapply list_elem_of_lookup_2.
  - apply (IH i j); [done|done|lia].
Qed.

(** Where [insertByWinnings] puts a team: at some index [k], behind teams
    with more winnings and in front of a first team with no more. *)
Lemma insertByWinnings_split x l :
  ∃ k : nat, insertByWinnings x l = take k l ++ x :: drop k l ∧
    ∀ i y, (k ≤ i)%nat → StronglySorted byWinnings l → l !! i = Some y →
           (winnings y ≤ winnings x)%Qc.
Proof.
  induction l as [|z l (k & Hk & Hafter)]; simpl.
  - exists 0%nat. split; [done|]. by intros i y.
  - case_decide as Hzx.
    + exists 0%nat. split; [done|].
      intros i y _ Hs Hy. destruct i as [|i]; simpl in Hy.
      * by injection Hy as <-.
      * apply StronglySorted_inv in Hs as [_ Hz]. rewrite Forall_forall in Hz.
        eapply Qcle_trans; [|exact Hzx]. apply Hz. by eapply list_elem_of_lookup_2.
    + exists (S k). split; [by rewrite Hk|].
      intros i y Hi Hs Hy. destruct i as [|i]; [lia|]. simpl in Hy.
      apply StronglySorted_inv in Hs as [Hs _].
      apply (Hafter i); [lia|done|done].
Qed.

Lemma lookup_insert_at {A} (l : list A) (k : nat) z (i : nat) :
  (k ≤ length l)%nat →
  (take k l ++ z :: drop k l) !! (if decide (i < k)%nat then i else S i) = l !! i.
Proof.
  intros Hk. case_decide as Hik.
  - rewrite lookup_app_l by (rewrite length_take; lia).
    by rewrite lookup_take_lt.
  - rewrite lookup_app_r by (rewrite length_take; lia).
    rewrite length_take. replace (S i - k `min` length l)%nat with (S (i - k)) by lia.
    simpl. rewrite lookup_drop. f_equal. lia.
Qed.

Lemma before_insertByWinnings x y z l :
  before x y l → before x y (insertByWinnings z l).
Proof.
  intros (i & j & Hij & Hi & Hj).
  destruct (insertByWinnings_split z l) as (k & -> & _).
  destruct (decide (k ≤ length l)%nat) as [Hk|Hk].
  - exists (if decide (i < k)%nat then i else S i),
           (if decide (j < k)%nat then j else S j).
    rewrite !lookup_insert_at by done. split; [|done].
    repeat case_decide; lia.
  - rewrite take_ge, drop_ge by lia.
    exists i, j. split; [done|].
    split; apply lookup_app_l_Some; done.
Qed.

Lemma before_insertByWinnings_new x y l :
  StronglySorted byWinnings l → y ∈ l → (winnings y ≤ winnings x)%Qc →
  before x y (insertByWinnings x l).
Proof.
  intros Hs Hy Hw.
  apply list_elem_of_lookup_1 in Hy as [j Hj].
  induction Hs as [|z l Hs IH Hz] in j, Hj |- *; [done|]. simpl.
  case_decide as Hzx.
  - exists 0%nat, (S j). split; [lia|done].
  - destruct j as [|j]; simpl in Hj.
    + injection Hj as ->. done.
    + destruct (IH j Hj) as (a & b & Hab & Ha & Hb).
      exists (S a), (S b). split; [lia|done].
Qed.

(** The sort is stable. *)
Lemma sortByWinnings_stable x y l :
  before x y l → (winnings y ≤ winnings x)%Qc → before x y (sortByWinnings l).
Proof.
  intros (i & j & Hij & Hi & Hj) Hw.
  induction l as [|z l IH] in i, j, Hij, Hi, Hj |- *; [done|]. simpl.
  destruct j as [|j]; [lia|]. simpl in Hj.
  destruct i as [|i]; simpl in Hi.
  - injection Hi as ->.
    apply before_insertByWinnings_new; [apply sortByWinnings_sorted| |done].
    rewrite sortByWinnings_perm. by eapply list_elem_of_lookup_2.
  - apply before_insertByWinnings. apply (IH i j); [lia|done|done].
Qed.

Lemma NoDup_id_eq l x y :
  NoDup (t_id <$> l) → x ∈ l → y ∈ l → t_id x = t_id y → x = y.
Proof.
  intros Hnd [i Hi]%list_elem_of_lookup_1 [j Hj]%list_elem_of_lookup_1 Hxy.
  assert (i = j) as ->.
  { apply (NoDup_lookup _ i j (t_id x) Hnd); rewrite list_lookup_fmap.
    - by rewrite Hi.
    - by rewrite Hj, Hxy. }
  congruence.
Qed.

(** With ids that are unique, the rank of a team of the room is one more
    than its index among the sorted teams. *)
Lemma getTeamRank_index r t :
  NoDup (t_id <$> teams r) → t ∈ teams r →
  ∃ k : nat, sortByWinnings (teams r) !! k = Some t ∧
             getTeamRank r (t_id t) = Z.of_nat k + 1.
Proof.
  intros Hnd Ht. unfold getTeamRank.
  assert (Hin : t ∈ sortByWinnings (teams r)) by (by rewrite sortByWinnings_perm).
  destruct (list_find_elem_of (λ t', t_id t' = t_id t) _ t Hin eq_refl) as [[k t'] Hk].
  rewrite Hk. exists k. split; [|done].
  apply list_find_Some in Hk as (Hl & Hid & _). rewrite Hl. f_equal.
  apply (NoDup_id_eq (teams r)); [done| |done|done].
  rewrite <- sortByWinnings_perm. by eapply list_elem_of_lookup_2.
Qed.

Lemma sorted_index_unique r t (i j : nat) :
  NoDup (t_id <$> teams r) →
  sortByWinnings (teams r) !! i = Some t → sortByWinnings (teams r) !! j = Some t →
  i = j.
Proof.
  intros Hnd. apply NoDup_lookup.
  rewrite sortByWinnings_perm. by eapply NoDup_fmap_1.
Qed.

(** X9: the rank of the dashboard.  In a room whose teams have different
    ids, the rank of a team is between 1 and the number of teams, no two
    teams share a rank, a team with more winnings ranks ahead of one with
    less, and of two teams with the same winnings the one listed first in
    the room ranks ahead.  An id that no team has gets rank 0. *)
Theorem team_rank r t1 t2 :
  NoDup (t_id <$> teams r) → t1 ∈ teams r → t2 ∈ teams r →
  1 ≤ getTeamRank r (t_id t1) ≤ Z.of_nat (length (teams r)) ∧
  (getTeamRank r (t_id t1) = getTeamRank r (t_id t2) → t1 = t2) ∧
  ((winnings t2 < winnings t1)%Qc →
   getTeamRank r (t_id t1) < getTeamRank r (t_id t2)) ∧
  (winnings t1 = winnings t2 → before t1 t2 (teams r) →
   getTeamRank r (t_id t1) < getTeamRank r (t_id t2)) ∧
  (∀ i, i ∉ t_id <$> teams r → getTeamRank r i = 0).
Proof.
  intros Hnd H1 H2.
  destruct (getTeamRank_index r t1 Hnd H1) as (k1 & Hk1 & ->).
  destruct (getTeamRank_index r t2 Hnd H2) as (k2 & Hk2 & ->).
  split_and!.
  - lia.
  - apply lookup_lt_Some in Hk1.
    rewrite (Permutation_length (sortByWinnings_perm (teams r))) in Hk1. lia.
  - intros Heq. assert (k1 = k2) as -> by lia. congruence.
  - intros Hlt.
    destruct (decide (k1 < k2)%nat) as [|Hge]; [lia|]. exfalso.
    destruct (decide (k1 = k2)) as [->|Hne].
    + assert (t1 = t2) as -> by congruence. by apply Qclt_not_le in Hlt.
    + pose proof (StronglySorted_lookup byWinnings _ k2 k1 t2 t1
                    (sortByWinnings_sorted _) Hk2 Hk1 ltac:(lia)) as Hle.
      unfold byWinnings in Hle. by apply Qclt_not_le in Hlt.
  - intros Heq Hbefore.
    destruct (sortByWinnings_stable t1 t2 (teams r) Hbefore) as (i & j & Hij & Hi & Hj).
    { rewrite Heq. apply Qcle_refl. }
    rewrite (sorted_index_unique r t1 k1 i Hnd Hk1 Hi).
    rewrite (sorted_index_unique r t2 k2 j Hnd Hk2 Hj). lia.
  - intros i Hi. unfold getTeamRank.
    destruct (list_find _ _) as [[k t]|] eqn:Hk; [|done].
    apply list_find_Some in Hk as (Hl & Hid & _). destruct Hi.
    apply list_elem_of_fmap. exists t. split; [done|].
    rewrite <- sortByWinnings_perm. by eapply list_elem_of_lookup_2.
Qed.

Example rankRoom_ranks :
  getTeamRank rankRoom "B" = 1 ∧ getTeamRank rankRoom "A" = 2 ∧
  getTeamRank rankRoom "C" = 3 ∧ getTeamRank rankRoom "D" = 0.
Proof. vm_compute. done. Qed.

Lemma team_rank_witness :
  let t1 := rankTeam "A" 5 in
  let t2 := rankTeam "C" 5 in
  1 ≤ getTeamRank rankRoom "A" ≤ 3 ∧
  (getTeamRank rankRoom "A" = getTeamRank rankRoom "C" → t1 = t2) ∧
  ((winnings t2 < winnings t1)%Qc →
   getTeamRank rankRoom "A" < getTeamRank rankRoom "C") ∧
  (winnings t1 = winnings t2 → before t1 t2 (teams rankRoom) →
   getTeamRank rankRoom "A" < getTeamRank rankRoom "C") ∧
  (∀ i, i ∉ t_id <$> teams rankRoom → getTeamRank rankRoom i = 0).
Proof.
  apply (team_rank rankRoom (rankTeam "A" 5) (rankTeam "C" 5)).
  - by apply (bool_decide_unpack _).
  - repeat constructor.
  - repeat constructor.
Defined.

Lemma mjoin_only {A B} (f : A → list B) (l : list A) (idx : nat) x :
  l !! idx = Some x →
  (∀ i y, l !! i = Some y → i ≠ idx → f y = []) →
  mjoin (f <$> l) = f x.
Proof.
  revert idx. induction l as [|z l IH]; intros idx Hx Hothers; [done|].
  csimpl. destruct idx as [|idx]; simpl in Hx.
  - injection Hx as ->.
    assert (mjoin (f <$> l) = []) as ->; [|by rewrite app_nil_r].
    clear IH. induction l as [|y l IH]; [done|]. csimpl.
    rewrite (Hothers 1%nat y) by done. simpl. apply IH.
    intros i y' Hy' Hi. destruct i as [|i]; [done|].
    apply (Hothers (S (S i)) y'); [done|lia].
  - rewrite (Hothers 0%nat z) by done. simpl.
    apply (IH idx); [done|]. intros i y Hy Hi. apply (Hothers (S i) y); [done|lia].
Qed.

Lemma wonRounds_sides (h : list RoundResult) :
  (r_round <$> filter (λ x, teamWon true false x = true) h)
  ++ (r_round <$> filter (λ x, teamWon false true x = true) h)
  ≡ₚ r_round <$> filter (λ x, result x ≠ DRAW) h.
Proof.
  induction h as [|x h IH]; [done|].
  assert (Hx : (teamWon true false x = true ∧ teamWon false true x = false ∧
                result x ≠ DRAW) ∨
               (teamWon true false x = false ∧ teamWon false true x = true ∧
                result x ≠ DRAW) ∨
               (teamWon true false x = false ∧ teamWon false true x = false ∧
                result x = DRAW)).
  { unfold teamWon. destruct (result x); simpl; auto. }
  rewrite !filter_cons.
  destruct Hx as [(H1 & H2 & H3)|[(H1 & H2 & H3)|(H1 & H2 & H3)]];
    repeat case_decide; try congruence; csimpl.
  - by rewrite IH.
  - by rewrite <- Permutation_middle, IH.
Qed.

Lemma teamWon_sideA x :
  teamWon true false x = true ↔ result x = A_WON ∨ result x = B_FOLDED.
Proof. unfold teamWon. destruct (result x); simpl; intuition congruence. Qed.

Lemma teamWon_sideB x :
  teamWon false true x = true ↔ result x = B_WON ∨ result x = A_FOLDED.
Proof. unfold teamWon. destruct (result x); simpl; intuition congruence. Qed.

(** X10: the rounds won of the dashboard.  For a match between two
    different teams, neither of which sits in another match of the room,
    the rounds counted for the team on the A side are those of the history
    that ended A_WON or B_FOLDED, the rounds counted for the team on the B
    side those that ended B_WON or A_FOLDED; so every round that was not
    drawn is counted for exactly one of the two teams and a drawn round for
    neither.  The rounds come in ascending order and the count is their
    number. *)
Theorem rounds_won_partition r idx m :
  matches r !! idx = Some m → teamAId m ≠ teamBId m →
  (∀ i m', matches r !! i = Some m' → i ≠ idx →
     teamAId m' ≠ teamAId m ∧ teamBId m' ≠ teamAId m ∧
     teamAId m' ≠ teamBId m ∧ teamBId m' ≠ teamBId m) →
  let a := getTeamRoundsWon r (teamAId m) in
  let b := getTeamRoundsWon r (teamBId m) in
  a.1 = length a.2 ∧ b.1 = length b.2 ∧
  Sorted Z.le a.2 ∧ Sorted Z.le b.2 ∧
  a.2 ≡ₚ r_round <$> filter (λ h, result h = A_WON ∨ result h = B_FOLDED) (history m) ∧
  b.2 ≡ₚ r_round <$> filter (λ h, result h = B_WON ∨ result h = A_FOLDED) (history m) ∧
  a.2 ++ b.2 ≡ₚ r_round <$> filter (λ h, result h ≠ DRAW) (history m) ∧
  (a.1 + b.1)%nat = length (filter (λ h, result h ≠ DRAW) (history m)).
Proof.
  intros Hm Hab Hothers a b.
  assert (Ha : mjoin (wonRoundsIn (teamAId m) <$> matches r)
               = r_round <$> filter (λ x, teamWon true false x = true) (history m)).
  { rewrite (mjoin_only _ _ idx m Hm).
    - unfold wonRoundsIn. rewrite bool_decide_eq_true_2 by done.
      by rewrite bool_decide_eq_false_2 by done.
    - intros i m' Hm' Hi. destruct (Hothers i m' Hm' Hi) as (?&?&?&?).
      unfold wonRoundsIn. by rewrite !bool_decide_eq_false_2 by done. }
  assert (Hb : mjoin (wonRoundsIn (teamBId m) <$> matches r)
               = r_round <$> filter (λ x, teamWon false true x = true) (history m)).
  { rewrite (mjoin_only _ _ idx m Hm).
    - unfold wonRoundsIn. rewrite bool_decide_eq_false_2 by done.
      by rewrite bool_decide_eq_true_2 by done.
    - intros i m' Hm' Hi. destruct (Hothers i m' Hm' Hi) as (?&?&?&?).
      unfold wonRoundsIn. by rewrite !bool_decide_eq_false_2 by done. }
  unfold a, b, getTeamRoundsWon. simpl. rewrite Ha, Hb.
  split_and!.
  - by rewrite merge_sort_Permutation.
  - by rewrite merge_sort_Permutation.
  - apply Sorted_merge_sort. intros x y. lia.
  - apply Sorted_merge_sort. intros x y. lia.
  - rewrite merge_sort_Permutation.
    by rewrite (list_filter_iff _ _ _ teamWon_sideA).
  - rewrite merge_sort_Permutation.
    by rewrite (list_filter_iff _ _ _ teamWon_sideB).
  - rewrite !merge_sort_Permutation. apply wonRounds_sides.
  - rewrite <- length_app, wonRounds_sides. by rewrite length_fmap.
Qed.

Lemma rounds_won_partition_witness :
  let a := getTeamRoundsWon rankRoom "A" in
  let b := getTeamRoundsWon rankRoom "B" in
  a.1 = length a.2 ∧ b.1 = length b.2 ∧
  Sorted Z.le a.2 ∧ Sorted Z.le b.2 ∧
  a.2 ≡ₚ r_round <$> filter (λ h, result h = A_WON ∨ result h = B_FOLDED)
                       (history rankMatch) ∧
  b.2 ≡ₚ r_round <$> filter (λ h, result h = B_WON ∨ result h = A_FOLDED)
                       (history rankMatch) ∧
  a.2 ++ b.2 ≡ₚ r_round <$> filter (λ h, result h ≠ DRAW) (history rankMatch) ∧
  (a.1 + b.1)%nat = length (filter (λ h, result h ≠ DRAW) (history rankMatch)).
Proof.
  apply (rounds_won_partition rankRoom 0 rankMatch).
  - reflexivity.
  - done.
  - intros [|i] m' Hm' Hi; [done|]. destruct i; done.
Defined.

Example rankRoom_rounds :
  getTeamRoundsWon rankRoom "A" = (3%nat, [3; 5; 6]) ∧
  getTeamRoundsWon rankRoom "B" = (2%nat, [1; 4]) ∧
  getTeamRoundsWon rankRoom "C" = (0%nat, []).
Proof. vm_compute. done. Qed.

(** ** The match maker *)

Lemma array_get_set {A} (l : list (option A)) i x :
  array_get (array_set l i x) i = Some x.
Proof.
  unfold array_get, array_set. case_decide as Hi.
  - by rewrite list_lookup_insert_eq.
  - rewrite lookup_app_r by lia.
    rewrite lookup_app_r by (rewrite length_replicate; lia).
    rewrite length_replicate. by replace (i - length l - (i - length l))%nat with 0%nat by lia.
Qed.

Lemma array_get_set_ne {A} (l : list (option A)) i j x :
  i ≠ j → array_get (array_set l i x) j = array_get l j.
Proof.
  intros Hij. unfold array_get, array_set. case_decide as Hi.
  - by rewrite list_lookup_insert_ne.
  - destruct (decide (j < length l)%nat) as [Hj|Hj].
    + by rewrite lookup_app_l.
    + rewrite (lookup_ge_None_2 l j) by lia. simpl.
      rewrite lookup_app_r by lia.
      destruct (decide (j - length l < i - length l)%nat) as [Hlt|Hge].
      * rewrite lookup_app_l by (rewrite length_replicate; lia).
        by rewrite lookup_replicate_2.
      * rewrite lookup_app_r by (rewrite length_replicate; lia).
        rewrite length_replicate.
        destruct (j - length l - (i - length l))%nat as [|k] eqn:Hk; [lia|done].
Qed.

Lemma array_get_fmap {A B} (f : A → B) (l : list (option A)) i :
  array_get ((λ slot : option A, f <$> slot) <$> l) i = f <$> array_get l i.
Proof.
  unfold array_get. rewrite list_lookup_fmap.
  by destruct (l !! i) as [[?|]|].
Qed.

Lemma array_get_insert {A} (l : list (option A)) i x y :
  array_get l i = Some y → array_get (<[i := Some x]> l) i = Some x.
Proof.
  unfold array_get. intros H.
  rewrite list_lookup_insert_eq; [done|].
  apply lookup_lt_is_Some. destruct (l !! i); [by eexists|done].
Qed.

Lemma array_get_insert_ne {A} (l : list (option A)) i j x :
  i ≠ j → array_get (<[i := x]> l) j = array_get l j.
Proof. intros. unfold array_get. by rewrite list_lookup_insert_ne. Qed.

Lemma seat_unseat teamId m q :
  teamId ≠ "" →
  match q with PosA => teamAId (unseat teamId m) | PosB => teamBId (unseat teamId m) end
  = vacate teamId (match q with PosA => teamAId m | PosB => teamBId m end).
Proof.
  intros Hne. unfold unseat, vacate.
  destruct q; repeat case_decide; simpl in *; try done; intuition congruence.
Qed.

Lemma forallb_present_gap (ms ms0 : list (option Match)) idx x :
  (is_Some (array_get ms idx) ∧ ms0 = ms) ∨
  (array_get ms idx = None ∧ ms0 = array_set ms idx x) →
  forallb (λ slot, bool_decide (is_Some slot)) (take (length ms) ms0) = true
  ↔ ¬ gapBeside ms idx.
Proof.
  intros Hms0. rewrite <- Is_true_true, forallb_True, Forall_lookup.
  unfold gapBeside. split.
  - intros Hall (i & Hi & Hgap).
    assert (Hlt : (i < length ms)%nat) by (by eapply lookup_lt_Some).
    assert (H0 : ms0 !! i = Some None).
    { destruct Hms0 as [[_ ->]|[_ ->]]; [done|]. unfold array_set. case_decide.
      - by rewrite list_lookup_insert_ne.
      - by rewrite lookup_app_l. }
    specialize (Hall i None). rewrite lookup_take_lt in Hall by done.
    specialize (Hall H0). apply bool_decide_unpack in Hall. by destruct Hall.
  - intros Hno i slot Hi. apply bool_decide_pack.
    apply lookup_take_Some in Hi as [Hi Hlt].
    destruct slot as [m|]; [by eexists|]. exfalso.
    destruct Hms0 as [[Hsome ->]|[Hnone ->]].
    + destruct (decide (i = idx)) as [->|Hne]; [|apply Hno; by exists i].
      unfold array_get in Hsome. rewrite Hi in Hsome. by destruct Hsome.
    + unfold array_set in Hi. case_decide as Hidx.
      * destruct (decide (i = idx)) as [->|Hne].
        -- by rewrite list_lookup_insert_eq in Hi.
        -- rewrite list_lookup_insert_ne in Hi by done. apply Hno. by exists i.
      * rewrite lookup_app_l in Hi by done. apply Hno. exists i. split; [lia|done].
Qed.

Lemma forallb_absent_gap (ms ms0 : list (option Match)) idx x :
  (is_Some (array_get ms idx) ∧ ms0 = ms) ∨
  (array_get ms idx = None ∧ ms0 = array_set ms idx x) →
  forallb (λ slot, bool_decide (is_Some slot)) (take (length ms) ms0) = false →
  gapBeside ms idx.
Proof.
  intros Hms0 Hf.
  assert (Hex : Exists (λ slot : option Match, ¬ is_Some slot) (take (length ms) ms0)).
  { apply not_Forall_Exists; [apply _|]. intros Hall.
    assert (forallb (λ slot : option Match, bool_decide (is_Some slot))
              (take (length ms) ms0) = true); [|congruence].
    apply Is_true_true, forallb_True. eapply Forall_impl; [exact Hall|].
    intros slot Hs. by apply bool_decide_pack. }
  apply Exists_exists in Hex as (slot & Hin & Hslot).
  apply list_elem_of_lookup_1 in Hin as [i Hi].
  apply lookup_take_Some in Hi as [Hi Hlt].
  destruct slot as [m|]; [destruct Hslot; by eexists|].
  assert (Hne : i ≠ idx).
  { intros ->. destruct Hms0 as [[Hsome ->]|[_ ->]].
    - unfold array_get in Hsome. rewrite Hi in Hsome. by destruct Hsome.
    - unfold array_set in Hi. rewrite decide_True in Hi by done.
      by rewrite list_lookup_insert_eq in Hi. }
  exists i. split; [done|].
  destruct Hms0 as [[_ ->]|[_ ->]]; [done|].
  unfold array_set in Hi. case_decide.
  - by rewrite list_lookup_insert_ne in Hi.
  - by rewrite lookup_app_l in Hi.
Qed.

(** The seats after an [assignTeam] that did not throw. *)
Lemma seat_assignTeam now ms teamId idx pos ms' j q :
  assignTeam now ms teamId idx pos = Some ms' →
  seat ms' j q =
  if decide (j = idx ∧ q = pos) then Some teamId
  else vacate teamId <$>
         (if decide (j = idx) then Some (default "" (seat ms j q)) else seat ms j q).
Proof.
  unfold assignTeam.
  set (ms0 := match array_get ms idx with Some _ => ms | None => _ end).
  assert (H0 : ∀ j q, seat ms0 j q =
            if decide (j = idx) then Some (default "" (seat ms j q)) else seat ms j q).
  { intros j' q'. unfold ms0, seat.
    destruct (array_get ms idx) as [m|] eqn:Hm.
    - case_decide as Hj; [|done]. subst j'. by rewrite Hm.
    - case_decide as Hj.
      + subst j'. rewrite array_get_set, Hm. simpl. by destruct q'.
      + by rewrite array_get_set_ne. }
  assert (Hp0 : is_Some (array_get ms0 idx)).
  { unfold ms0. destruct (array_get ms idx) as [m|] eqn:Hm; [by rewrite Hm|].
    rewrite array_get_set. by eexists. }
  intros H.
  destruct (decide (teamId ≠ "")) as [Hne|Hempty].
  - destruct (forallb _ _); [|done]. simpl in H.
    rewrite array_get_fmap in H. destruct Hp0 as [m0 Hm0]. rewrite Hm0 in H.
    simpl in H. injection H as <-.
    set (ms1 := (λ slot : option Match, unseat teamId <$> slot) <$> ms0).
    assert (H1 : ∀ j q, seat ms1 j q = vacate teamId <$> seat ms0 j q).
    { intros j' q'. unfold ms1, seat.
      rewrite array_get_fmap. destruct (array_get ms0 j') as [m|]; [|done]. simpl.
      by rewrite seat_unseat. }
    assert (Hm1 : array_get ms1 idx = Some (unseat teamId m0)).
    { unfold ms1. by rewrite array_get_fmap, Hm0. }
    case_decide as Hjq.
    + destruct Hjq as [-> ->]. unfold seat.
      rewrite (array_get_insert _ _ _ _ Hm1). simpl. by destruct pos.
    + rewrite <- H0, <- H1.
      destruct (decide (j = idx)) as [->|Hj].
      * unfold seat. rewrite (array_get_insert _ _ _ _ Hm1), Hm1. simpl.
        destruct q, pos; try done; intuition congruence.
      * unfold seat. by rewrite array_get_insert_ne.
  - simpl in H. destruct Hp0 as [m0 Hm0]. rewrite Hm0 in H.
    simpl in H. injection H as <-.
    assert (Hv : ∀ o : option string, vacate teamId <$> o = o).
    { intros [s|]; [|done]. simpl. unfold vacate.
      rewrite decide_False; [done|]. by intros [? _]. }
    rewrite Hv, <- H0.
    case_decide as Hjq.
    + destruct Hjq as [-> ->]. unfold seat.
      rewrite (array_get_insert _ _ _ _ Hm0). simpl. by destruct pos.
    + destruct (decide (j = idx)) as [->|Hj].
      * unfold seat. rewrite (array_get_insert _ _ _ _ Hm0), Hm0. simpl.
        destruct q, pos; try done; intuition congruence.
      * unfold seat. by rewrite array_get_insert_ne.
Qed.

(** When [assignTeam] throws: for a team that is not empty, at a gap of
    the array beside the index assigned. *)
Lemma assignTeam_throws now ms teamId idx pos :
  assignTeam now ms teamId idx pos = None ↔ teamId ≠ "" ∧ gapBeside ms idx.
Proof.
  unfold assignTeam.
  set (x := newMatch _ "" "").
  set (ms0 := match array_get ms idx with Some _ => ms | None => _ end).
  assert (Hms0 : (is_Some (array_get ms idx) ∧ ms0 = ms) ∨
                 (array_get ms idx = None ∧ ms0 = array_set ms idx x)).
  { unfold ms0. destruct (array_get ms idx) eqn:Hm; [left|right]; by eauto. }
  assert (Hp0 : is_Some (array_get ms0 idx)).
  { destruct Hms0 as [[? ->]|[_ ->]]; [done|]. rewrite array_get_set. by eexists. }
  pose proof (forallb_present_gap ms ms0 idx x Hms0) as Hgap.
  pose proof (forallb_absent_gap ms ms0 idx x Hms0) as Hgap'.
  destruct Hp0 as [m0 Hm0].
  destruct (decide (teamId ≠ "")) as [Hne|Hempty].
  - destruct (forallb _ _); simpl.
    + rewrite array_get_fmap, Hm0. simpl. split; [done|].
      intros [_ Hg]. by destruct (proj1 Hgap eq_refl).
    + split; [|done]. intros _. split; [done|]. by apply Hgap'.
  - simpl. rewrite Hm0. simpl. split; [done|]. by intros [? _].
Qed.

Lemma assignTeam_length now ms teamId idx pos ms' :
  assignTeam now ms teamId idx pos = Some ms' →
  length ms' = (length ms `max` S idx)%nat.
Proof.
  unfold assignTeam.
  set (ms0 := match array_get ms idx with Some _ => ms | None => _ end).
  assert (H0 : length ms0 = (length ms `max` S idx)%nat).
  { unfold ms0. destruct (array_get ms idx) as [m|] eqn:Hm.
    - unfold array_get in Hm.
      assert (idx < length ms)%nat; [|lia].
      apply lookup_lt_is_Some. destruct (ms !! idx); [by eexists|done].
    - unfold array_set. case_decide.
      + rewrite length_insert. lia.
      + rewrite !length_app, length_replicate. simpl. lia. }
  intros H. along H. simpl in H. along H. injection H as <-.
  rewrite length_insert. rewrite <- H0.
  along Heqo; try done; injection Heqo as <-; by rewrite ?length_fmap.
Qed.

(** X11: the match maker seats a team once, or throws at a gap.
    [assignTeam] throws exactly when a team is being seated and the array
    has a gap beside the index assigned.  Otherwise the team sits in the
    chosen seat and, unless the seat was being emptied, in no other seat of
    any match; every other team sits exactly in the seats it sat in before,
    but for the chosen seat, which its occupant loses; so if no team sat in
    two seats before, none does after.  An index past the end grows the
    array to that index. *)
Theorem assignTeam_seats_once now ms teamId idx pos :
  match assignTeam now ms teamId idx pos with
  | Some ms' =>
      (teamId = "" ∨ ¬ gapBeside ms idx) ∧
      seat ms' idx pos = Some teamId ∧
      (∀ j q, teamId ≠ "" → seat ms' j q = Some teamId → j = idx ∧ q = pos) ∧
      (∀ j q id, id ≠ "" → id ≠ teamId →
                 (seat ms' j q = Some id ↔
                  seat ms j q = Some id ∧ (j ≠ idx ∨ q ≠ pos))) ∧
      (SeatedOnce ms → SeatedOnce ms') ∧
      length ms' = (length ms `max` S idx)%nat
  | None => teamId ≠ "" ∧ gapBeside ms idx
  end.
Proof.
  destruct (assignTeam now ms teamId idx pos) as [ms'|] eqn:Hms';
    [|by apply (assignTeam_throws now ms teamId idx pos)].
  pose proof (seat_assignTeam now ms teamId idx pos ms') as Hs.
  assert (Hseat : seat ms' idx pos = Some teamId).
  { rewrite Hs by done. by rewrite decide_True. }
  assert (Hown : ∀ j q, teamId ≠ "" → seat ms' j q = Some teamId → j = idx ∧ q = pos).
  { intros j q Hne Hjq. rewrite Hs in Hjq by done.
    case_decide as Hd; [done|]. exfalso.
    apply fmap_Some in Hjq as (s & _ & Hv). unfold vacate in Hv.
    case_decide as Hv'; [congruence|]. apply Hv'. by split. }
  assert (Hother : ∀ j q id, id ≠ "" → id ≠ teamId →
            (seat ms' j q = Some id ↔ seat ms j q = Some id ∧ (j ≠ idx ∨ q ≠ pos))).
  { intros j q id Hid Hne. rewrite Hs by done. split.
    - intros Hjq. case_decide as Hd; [congruence|].
      apply fmap_Some in Hjq as (s & Hsj & Hv). unfold vacate in Hv.
      case_decide; [congruence|]. subst s.
      split; [|destruct (decide (j = idx)), (decide (q = pos)); tauto].
      case_decide; [|done]. injection Hsj as Hsj.
      destruct (seat ms j q); simpl in Hsj; congruence.
    - intros [Hjq Hnot]. rewrite decide_False by tauto. rewrite Hjq. simpl.
      assert (vacate teamId id = id) as Hv.
      { unfold vacate. rewrite decide_False; [done|]. intros [_ ?]. congruence. }
      case_decide; simpl; by rewrite Hv. }
  split.
  { destruct (decide (teamId = "")) as [|Hne]; [by left|right].
    intros Hgap.
    assert (assignTeam now ms teamId idx pos = None) by (by apply assignTeam_throws).
    congruence. }
  split; [done|]. split; [done|]. split; [done|].
  split; [|by eapply assignTeam_length].
  intros Honce i p j q id Hi Hj Hid.
  destruct (decide (id = teamId)) as [->|Hne].
  - destruct (Hown i p Hid Hi) as [-> ->]. by destruct (Hown j q Hid Hj) as [-> ->].
  - apply (Hother i p id Hid Hne) in Hi as [Hi' _].
    apply (Hother j q id Hid Hne) in Hj as [Hj' _].
    by apply (Honce i p j q id).
Qed.

Example assignTeam_moves :
  let ms := [Some (newMatch "m0" "t1" "t2"); None; Some (newMatch "m2" "t3" "")] in
  assignTeam 1700 ms "t1" 1 PosB =
    Some [Some (newMatch "m0" "" "t2"); Some (newMatch "m_1700_1" "" "t1");
          Some (newMatch "m2" "t3" "")] ∧
  assignTeam 1700 [] "t1" 2 PosA = Some [None; None; Some (newMatch "m_1700_2" "t1" "")] ∧
  assignTeam 1700 ms "" 0 PosA =
    Some [Some (newMatch "m0" "" "t2"); None; Some (newMatch "m2" "t3" "")] ∧
  assignTeam 1700 ms "t1" 2 PosB = None.
Proof. vm_compute. done. Qed.

Lemma pairUp_spec now (n : nat) : ∀ i l, (length l ≤ n)%nat →
  length (pairUp now i l) = (length l / 2)%nat ∧
  seats (pairUp now i l) `sublist_of` (t_id <$> l) ∧
  Forall FreshMatch (pairUp now i l).
Proof.
  induction n as [|n IH]; intros i l Hn.
  - destruct l; [|simpl in Hn; lia]. simpl. split_and!; [done|done|constructor].
  - destruct l as [|a [|b rest]].
    + simpl. split_and!; [done|done|constructor].
    + simpl. split_and!; [done|by apply sublist_cons|constructor].
    + destruct (IH (i + 2)%nat rest) as (Hlen & Hsub & Hfresh); [simpl in Hn; lia|].
      simpl pairUp. split_and!.
      * simpl length. rewrite Hlen.
        replace (S (S (length rest))) with (length rest + 1 * 2)%nat by lia.
        rewrite Nat.div_add by done. lia.
      * unfold seats in *. csimpl. by do 2 apply sublist_skip.
      * constructor; [done|done].
Qed.

(** X12: the automatic pairing.  Whatever arrangement of the teams the
    shuffle produces, [autoMatch] makes one match for every two teams,
    leaving a last team out when their number is odd; the seats hold ids of
    teams of the room, no team in two seats when the ids are unique; and
    every match starts fresh: round 1 in READY with no history and no turn
    owner. *)
Theorem autoMatch_pairs now (teams shuffled : list Team) :
  shuffled ≡ₚ teams → NoDup (t_id <$> teams) →
  let ms := autoMatch now shuffled in
  length ms = (length teams / 2)%nat ∧
  NoDup (seats ms) ∧
  (∀ s, s ∈ seats ms → s ∈ t_id <$> teams) ∧
  Forall FreshMatch ms ∧
  Forall (λ m, teamAId m ≠ teamBId m) ms.
Proof.
  intros Hperm Hnd ms.
  destruct (pairUp_spec now (length shuffled) 0 shuffled (le_n _))
    as (Hlen & Hsub & Hfresh).
  assert (Hnd' : NoDup (seats ms)).
  { eapply sublist_NoDup; [|exact Hsub]. by rewrite Hperm. }
  split_and!.
  - unfold ms, autoMatch. by rewrite Hlen, Hperm.
  - done.
  - intros s Hs. rewrite <- Hperm. by eapply elem_of_sublist.
  - done.
  - apply Forall_forall. intros m Hm Heq.
    apply list_elem_of_lookup_1 in Hm as [k Hk].
    apply take_drop_middle in Hk. unfold seats in Hnd'. rewrite <- Hk in Hnd'.
    rewrite bind_app in Hnd'. apply NoDup_app in Hnd' as (_ & _ & Hnd').
    csimpl in Hnd'. rewrite Heq in Hnd'.
    apply NoDup_cons in Hnd' as [Hnotin _]. apply Hnotin. by left.
Qed.

Lemma autoMatch_pairs_witness :
  let ms := autoMatch (λ _, 1700) [rankTeam "C" 5; rankTeam "A" 5; rankTeam "B" 10] in
  length ms = (3 / 2)%nat ∧
  NoDup (seats ms) ∧
  (∀ s, s ∈ seats ms → s ∈ t_id <$> teams rankRoom) ∧
  Forall FreshMatch ms ∧
  Forall (λ m, teamAId m ≠ teamBId m) ms.
Proof.
  apply (autoMatch_pairs (λ _, 1700) (teams rankRoom)
           [rankTeam "C" 5; rankTeam "A" 5; rankTeam "B" 10]).
  - apply (Permutation_cons_append [rankTeam "A" 5; rankTeam "B" 10]).
  - by apply (bool_decide_unpack _).
Defined.

Example autoMatch_five :
  autoMatch (λ i, 1700 + Z.of_nat i)
    [rankTeam "C" 5; rankTeam "A" 5; rankTeam "B" 10; rankTeam "E" 0; rankTeam "D" 0]
  = [newMatch "m_1700_0" "C" "A"; newMatch "m_1702_2" "B" "E"].
Proof. vm_compute. done. Qed.

(** ** The earlier showdown *)

(** X13: the earlier showdown splits the pot of a drawn last round.  In
    the earlier copy of the view, a showdown in round 10 between equal
    cards adds half of the pot (the chips of both teams in the round and
    the carry-over) to the winnings of each team, records a DRAW with
    potWon 0 and finishes the match at once. *)
Theorem Legacy_final_draw_splits_pot v idx m tA tB sA sB :
  Seats v idx m tA tB sA sB →
  roundStatus m = SHOWDOWN → currentRound m = TOTAL_ROUNDS → card sA = card sB →
  ∃ v' m' tA' tB' res,
    Legacy.handleShowdown v = Some v' ∧
    myMatchEntry v' = Some (idx, m') ∧
    find_team (teams (room v')) (teamAId m) = Some tA' ∧
    find_team (teams (room v')) (teamBId m) = Some tB' ∧
    winnings tA' = (winnings tA + Qc_of_Z (pot_of sA sB m) / 2)%Qc ∧
    winnings tB' = (winnings tB + Qc_of_Z (pot_of sA sB m) / 2)%Qc ∧
    roundStatus m' = FINISHED ∧ currentRound m' = TOTAL_ROUNDS ∧ carryOver m' = 0 ∧
    history m' = history m ++ [res] ∧
    result res = DRAW ∧ potWon res = 0.
Proof.
  intros [Hm HA HB Hd HsA HsB] Hst Hlast Hcards.
  unfold Legacy.handleShowdown. rewrite (myMatch_entry _ _ _ Hm). simpl.
  rewrite decide_False by (by intros []).
  rewrite HA; simpl. rewrite HB; simpl. rewrite HsA; simpl. rewrite HsB; simpl.
  rewrite !decide_False by lia. rewrite decide_True by done. simpl.
  match goal with
  | |- context [fmap (λ t, if decide (t_id t = t_id tA) then ?a
                           else if decide (t_id t = t_id tB) then ?b else t) _] =>
      destruct (find_showdown_teams (teams (room v)) tA tB a b _ _
                  HA HB Hd eq_refl eq_refl) as [HfA HfB]
  end.
  edestruct (updateTeamsAndMatch_spec v) as (v' & -> & Hid & Hts & _ & _ & Hme);
    [exact Hm|].
  eexists v', _, _, _, _.
  split; [done|]. split; [exact Hme|].
  rewrite Hts. split; [exact HfA|]. split; [exact HfB|].
  rewrite Hlast. unfold pot_of. by destruct m.
Qed.

Lemma Legacy_final_draw_splits_pot_witness :
  let m := exMatch 10 SHOWDOWN None 0 ∅ in
  let sA := mkRoundStrategy 10 7 3 in
  let sB := mkRoundStrategy 10 7 5 in
  ∃ v' m' tA' tB' res,
    Legacy.handleShowdown unevenFinalDraw = Some v' ∧
    myMatchEntry v' = Some (0%nat, m') ∧
    find_team (teams (room v')) "A" = Some tA' ∧
    find_team (teams (room v')) "B" = Some tB' ∧
    winnings tA' = (0 + Qc_of_Z (pot_of sA sB m) / 2)%Qc ∧
    winnings tB' = (0 + Qc_of_Z (pot_of sA sB m) / 2)%Qc ∧
    roundStatus m' = FINISHED ∧ currentRound m' = TOTAL_ROUNDS ∧ carryOver m' = 0 ∧
    history m' = [] ++ [res] ∧
    result res = DRAW ∧ potWon res = 0.
Proof.
  apply (Legacy_final_draw_splits_pot unevenFinalDraw 0%nat _ _ _ _ _
           (finalDraw_Seats 3 5 0));
    reflexivity.
Defined.

(** ** AI help and the room list *)

(** X14: AI help is capped at three.  With nothing loading, a help that
    the advisor answers raises the count of the team by one, to at most
    three, and leaves the counts of the other teams, the teams, every
    other field of the match and the alerts alone; when the advisor fails,
    the failure is alerted and nothing else changes; at a count of three
    or while a request is loading the view stays as it is. *)
Theorem ai_help_capped v idx m aiLoading advice :
  myMatchEntry v = Some (idx, m) →
  ∃ v' m',
    handleAIHelp v aiLoading advice = Some v' ∧
    myMatchEntry v' = Some (idx, m') ∧
    teams (room v') = teams (room v) ∧
    (aiCount m (teamId v) ≤ 3 → aiCount m' (teamId v) ≤ 3) ∧
    (∀ j, j ≠ teamId v → aiHelps m' !! j = aiHelps m !! j) ∧
    (if aiLoading || bool_decide (3 ≤ aiCount m (teamId v))
     then v' = v ∧ m' = m
     else match advice with
          | Some _ =>
              aiCount m' (teamId v) = aiCount m (teamId v) + 1 ∧
              m' = with_aiHelps m (aiHelps m') ∧
              alerts v' = alerts v
          | None =>
              v' = alert v AlertAIFailed ∧ m' = m ∧
              alerts v' = alerts v ++ [AlertAIFailed]
          end).
Proof.
  intros Hm. unfold handleAIHelp. rewrite (myMatch_entry _ _ _ Hm). simpl.
  destruct aiLoading; simpl.
  { exists v, m. by split_and!. }
  case_bool_decide as Hcap; simpl.
  { exists v, m. by split_and!. }
  destruct advice as [a|]; simpl.
  2:{ exists (alert v AlertAIFailed), m. by split_and!. }
  rewrite Hm. simpl.
  set (m' := with_aiHelps m _).
  exists (onUpdate v (mkRoom (r_id (room v)) (status (room v)) (teams (room v))
                        (<[idx := m']> (matches (room v))))), m'.
  split; [done|]. split.
  { unfold myMatchEntry. rewrite onUpdate_room, onUpdate_teamId. simpl.
    apply list_find_insert_Some. right; left.
    pose proof Hm as (Hl & HP & Hleast)%list_find_Some.
    split_and!; [done|done|by eapply lookup_lt_Some|done|].
    intros i' z ??. by eapply Hleast. }
  rewrite onUpdate_room. simpl. split; [done|].
  assert (Hc : aiCount m' (teamId v) = aiCount m (teamId v) + 1).
  { unfold aiCount at 1. unfold m'. simpl. by rewrite lookup_insert_eq. }
  split; [lia|]. split.
  { intros j Hj. unfold m'. simpl. by rewrite lookup_insert_ne. }
  split; [done|]. split; [by destruct m|].
  unfold onUpdate. by rewrite (proj1 (proj2 (proj2 (proj2 (proj2 (syncStrategy_cells _)))))).
Qed.

Lemma ai_help_capped_witness :
  let m := exMatch 5 DECISION (Some "A") 1 ∅ in
  ∃ v' m',
    handleAIHelp scenarioC false None = Some v' ∧
    myMatchEntry v' = Some (0%nat, m') ∧
    teams (room v') = teams (room scenarioC) ∧
    (aiCount m "A" ≤ 3 → aiCount m' "A" ≤ 3) ∧
    (∀ j, j ≠ "A" → aiHelps m' !! j = aiHelps m !! j) ∧
    (if false || bool_decide (3 ≤ aiCount m "A")
     then v' = scenarioC ∧ m' = m
     else v' = alert scenarioC AlertAIFailed ∧ m' = m ∧
          alerts v' = alerts scenarioC ++ [AlertAIFailed]).
Proof.
  apply (ai_help_capped scenarioC 0 (exMatch 5 DECISION (Some "A") 1 ∅) false None).
  reflexivity.
Defined.

Example ai_help_answered :
  ∃ v' m',
    handleAIHelp scenarioC false (Some "fold") = Some v' ∧
    myMatch v' = Some m' ∧ aiCount m' "A" = 1 ∧ aiCount m' "B" = 0 ∧
    alerts v' = [].
Proof. eexists _, _. split_and!; reflexivity. Qed.

Lemma find_room_cons r rooms i :
  find_room (r :: rooms) i = if decide (r_id r = i) then Some r else find_room rooms i.
Proof.
  unfold find_room. simpl. case_decide; [done|].
  by destruct (list_find _ rooms) as [[??]|].
Qed.

Lemma find_room_None rooms i :
  find_room rooms i = None ↔ ∀ r, r ∈ rooms → r_id r ≠ i.
Proof.
  induction rooms as [|r rooms IH]; [by split; [intros _ ? ?%elem_of_nil|]|].
  rewrite find_room_cons. case_decide as Hr.
  - split; [done|]. intros H. destruct (H r); [left|done].
  - rewrite IH. split.
    + intros H r' [->|?]%elem_of_cons; [done|by apply H].
    + intros H r' ?. apply H. by right.
Qed.

Lemma updateRoom_absent rooms u :
  find_room rooms (r_id u) = None → updateRoom rooms u = rooms.
Proof.
  rewrite find_room_None. intros H. unfold updateRoom.
  rewrite <- (list_fmap_id rooms) at 2. apply list_fmap_ext.
  intros k r Hr. rewrite decide_False; [done|].
  apply H. by eapply list_elem_of_lookup_2.
Qed.

Lemma find_room_filter_ne rooms i j :
  i ≠ j → find_room (filter (λ r, r_id r ≠ j) rooms) i = find_room rooms i.
Proof.
  intros Hi. induction rooms as [|r rooms IH]; [done|].
  rewrite filter_cons, (find_room_cons r rooms).
  destruct (decide (r_id r ≠ j)) as [Hr|Hr].
  - by rewrite find_room_cons, IH.
  - apply dec_stable in Hr. by rewrite decide_False by congruence.
Qed.

(** X15: an update of a room reaches the room with its id, and nothing
    else.  [updateRoom] keeps the length of the list; afterwards the room
    found under the id of the update is the update if a room had that id
    and none otherwise, and every other id finds what it found before; an
    update for an id the list does not hold leaves the list as it is. *)
Theorem updateRoom_lookup rooms u i :
  length (updateRoom rooms u) = length rooms ∧
  find_room (updateRoom rooms u) i =
    (if decide (i = r_id u)
     then match find_room rooms i with Some _ => Some u | None => None end
     else find_room rooms i) ∧
  (find_room rooms (r_id u) = None → updateRoom rooms u = rooms).
Proof.
  split; [apply length_fmap|]. split; [|apply updateRoom_absent].
  induction rooms as [|r rooms IH]; [by case_decide|].
  unfold updateRoom in *. rewrite fmap_cons, !find_room_cons, IH.
  repeat case_decide; subst; try done; congruence.
Qed.

(** X16: a room deleted from a list stays deleted.  Once the deletion is
    confirmed, no room of the list has the id, the other ids find what
    they found before, the current room is no longer the deleted one, and
    an update for the deleted room leaves the list as it is; a deletion
    that is not confirmed changes nothing. *)
Theorem deleteRoom_final rooms cur u i :
  let res := deleteRoom rooms cur (r_id u) true in
  find_room res.1 (r_id u) = None ∧
  (i ≠ r_id u → find_room res.1 i = find_room rooms i) ∧
  res.2 ≠ Some (r_id u) ∧
  updateRoom res.1 u = res.1 ∧
  deleteRoom rooms cur (r_id u) false = (rooms, cur).
Proof.
  simpl.
  assert (Hnone : find_room (filter (λ r, r_id r ≠ r_id u) rooms) (r_id u) = None).
  { apply find_room_None. by intros r [? _]%list_elem_of_filter. }
  split; [done|]. split; [by apply find_room_filter_ne|].
  split; [by case_decide|]. split; [|done].
  by apply updateRoom_absent.
Qed.

(** ** Joining a team *)

Lemma find_room_fmap (f : Room → Room) rooms j :
  (∀ r, r_id (f r) = r_id r) →
  find_room (f <$> rooms) j = f <$> find_room rooms j.
Proof.
  intros Hf. induction rooms as [|r rooms IH]; [done|].
  rewrite fmap_cons, !find_room_cons, Hf, IH. by case_decide.
Qed.

Lemma find_room_id rooms i r : find_room rooms i = Some r → r_id r = i.
Proof.
  unfold find_room. intros ([k r']&H&->)%fmap_Some.
  by apply list_find_Some in H as (_&?&_).
Qed.

Lemma truthyId_Some o s : truthyId o = Some s ↔ o = Some s ∧ s ≠ "".
Proof.
  unfold truthyId. destruct o as [s'|]; [|by split; [|intros [? _]]].
  case_decide; split; try done.
  - intros [[= ->] ?]. done.
  - by intros [= ->].
  - by intros [[= ->] _].
Qed.

(** X17: joining a team is idempotent.  With a name that is not blank and
    a room and a team that exist, [confirmJoin] enters the game view of
    the team; the name is among the members of the team afterwards, added
    at the end if it was not there and not added again if it was; and a
    second [confirmJoin] changes nothing at all. *)
Theorem confirmJoin_idempotent trim ok a rid tid room team :
  trim (joinName a) ≠ "" →
  truthyId (currentRoomId a) = Some rid → truthyId (pendingTeamId a) = Some tid →
  find_room (rooms a) rid = Some room → find_team (teams room) tid = Some team →
  let a1 := confirmJoin trim ok a in
  view a1 = USER_GAME ∧ currentTeamId a1 = Some tid ∧ showNameModal a1 = false ∧
  (∃ room1 team1,
     find_room (rooms a1) rid = Some room1 ∧
     find_team (teams room1) tid = Some team1 ∧
     members team1 = (if decide (joinName a ∈ members team) then members team
                      else members team ++ [joinName a])) ∧
  confirmJoin trim ok a1 = a1.
Proof.
  intros Hname Hrid Htid Hroom Hteam a1.
  pose proof (proj1 (truthyId_Some _ _) Htid) as [Hpend _].
  assert (Ha1 : a1 = mkApp USER_GAME
            (if decide (joinName a ∈ members team) then rooms a
             else (λ r, if decide (r_id r = rid)
                        then with_teams r (replace_team (t_id team)
                               (add_member team (joinName a)) (teams r))
                        else r) <$> rooms a)
            (currentRoomId a) (pendingTeamId a) false (pendingTeamId a) (joinName a)
            false (if ok then Some (mkSession rid tid (joinName a)) else userSession a)
            (nameAlerts a)).
  { unfold a1, confirmJoin. rewrite decide_False by done.
    by rewrite Hrid, Htid, Hroom, Hteam. }
  assert (Hfound : ∃ room1 team1,
     find_room (rooms a1) rid = Some room1 ∧
     find_team (teams room1) tid = Some team1 ∧
     members team1 = (if decide (joinName a ∈ members team) then members team
                      else members team ++ [joinName a])).
  { rewrite Ha1. simpl. case_decide as Hin.
    - by exists room, team.
    - exists (with_teams room (replace_team (t_id team)
                (add_member team (joinName a)) (teams room))),
             (add_member team (joinName a)).
      split; [|split; [|done]].
      + rewrite find_room_fmap by (intros; by case_decide).
        rewrite Hroom. simpl. by rewrite decide_True by (by eapply find_room_id).
      + simpl. pose proof (find_team_id _ _ _ Hteam) as Hid.
        rewrite Hid. by apply (find_team_replace_eq _ _ _ team). }
  split; [by rewrite Ha1|]. split; [by rewrite Ha1|]. split; [by rewrite Ha1|].
  split; [exact Hfound|].
  destruct Hfound as (room1 & team1 & Hroom1 & Hteam1 & Hmem).
  assert (Hin1 : joinName a ∈ members team1).
  { rewrite Hmem. case_decide; [done|]. apply elem_of_app. right. by left. }
  unfold confirmJoin at 1.
  replace (joinName a1) with (joinName a) by (by rewrite Ha1).
  replace (currentRoomId a1) with (currentRoomId a) by (by rewrite Ha1).
  replace (pendingTeamId a1) with (pendingTeamId a) by (by rewrite Ha1).
  rewrite decide_False by done.
  rewrite Hrid, Htid, Hroom1, Hteam1. rewrite decide_True by done.
  rewrite Ha1. simpl. by destruct ok.
Qed.

Lemma confirmJoin_idempotent_witness :
  let a1 := confirmJoin (λ s, s) true (joining "Kim") in
  view a1 = USER_GAME ∧ currentTeamId a1 = Some "A" ∧ showNameModal a1 = false ∧
  (∃ room1 team1,
     find_room (rooms a1) "r" = Some room1 ∧
     find_team (teams room1) "A" = Some team1 ∧
     members team1 = (if decide ("Kim" ∈ []) then [] else [] ++ ["Kim"])) ∧
  confirmJoin (λ s, s) true a1 = a1.
Proof.
  apply (confirmJoin_idempotent (λ s, s) true (joining "Kim") "r" "A"
           (room (prepView freshStrategy)) (mkTeam "A" "A" false 0%Qc [] None));
    [done|reflexivity..].
Defined.

(** ** Showdown and READY evaluation at the edges *)

(** X18: the higher card wins the showdown.  A showdown records the cards
    and the chips of both teams for the current round, appends the record
    to the history and shows it as the last result, with no confirmation
    yet; the result is A_WON exactly when team A's card is the higher one,
    B_WON exactly when team B's is, DRAW exactly when the cards are equal;
    the winner's score goes up by one and no other score moves. *)
Theorem showdown_higher_card_wins v idx m tA tB sA sB :
  Seats v idx m tA tB sA sB → roundStatus m = SHOWDOWN →
  ∃ v' m' res,
    handleShowdown v = Some v' ∧ myMatchEntry v' = Some (idx, m') ∧
    roundStatus m' = RESULT ∧ resultConfirmed m' = ∅ ∧
    lastRoundResult m' = Some res ∧ history m' = history m ++ [res] ∧
    r_round res = currentRound m ∧
    teamACard res = card sA ∧ teamBCard res = card sB ∧
    teamAChips res = chips sA ∧ teamBChips res = chips sB ∧
    (result res = A_WON ↔ card sB < card sA) ∧
    (result res = B_WON ↔ card sA < card sB) ∧
    (result res = DRAW ↔ card sA = card sB) ∧
    teamAScore m' = teamAScore m + (if decide (card sB < card sA) then 1 else 0) ∧
    teamBScore m' = teamBScore m + (if decide (card sA < card sB) then 1 else 0).
Proof.
  intros Hseats Hst.
  destruct (handleShowdown_spec v idx m tA tB sA sB Hseats Hst)
    as (v' & m' & tA' & tB' & res & Hv & Hm' & _ & _ & _ & _ & Hrs & _ & Hlr & Hh
        & Hrc & _ & Hrr & HcA & HcB & HkA & HkB & Hout).
  exists v', m', res.
  do 11 (split; [done|]).
  unfold showdownOutcome in Hout.
  destruct (decide (card sB < card sA)) as [HA|HnA].
  { injection Hout as -> _ _ _ _ -> ->. rewrite decide_False by lia.
    split_and!; try lia; split; try done; lia. }
  destruct (decide (card sA < card sB)) as [HB|HnB].
  { injection Hout as -> _ _ _ _ -> ->.
    split_and!; try lia; split; try done; lia. }
  destruct (decide (currentRound m = TOTAL_ROUNDS));
    injection Hout as -> _ _ _ _ -> ->;
    split_and!; try lia; split; try done; lia.
Qed.

Lemma showdown_higher_card_wins_witness :
  let m := exMatch 10 SHOWDOWN None 2 ∅ in
  ∃ v' m' res,
    handleShowdown scenarioB = Some v' ∧ myMatchEntry v' = Some (0%nat, m') ∧
    roundStatus m' = RESULT ∧ resultConfirmed m' = ∅ ∧
    lastRoundResult m' = Some res ∧ history m' = history m ++ [res] ∧
    r_round res = currentRound m ∧
    teamACard res = 7 ∧ teamBCard res = 7 ∧
    teamAChips res = 4 ∧ teamBChips res = 4 ∧
    (result res = A_WON ↔ 7 < 7) ∧
    (result res = B_WON ↔ 7 < 7) ∧
    (result res = DRAW ↔ 7 = 7) ∧
    teamAScore m' = teamAScore m + (if decide (7 < 7) then 1 else 0) ∧
    teamBScore m' = teamBScore m + (if decide (7 < 7) then 1 else 0).
Proof.
  apply (showdown_higher_card_wins scenarioB 0%nat _ _ _ _ _ (finalDraw_Seats 4 4 2)).
  reflexivity.
Defined.

(** X19: the READY evaluation needs both strategies.  In a playing room,
    the effect in the view of the team on the A side of a match throws
    when that team or its opponent has no stored strategy, in every round
    status; with both strategies stored it throws in READY exactly when one
    of them has no entry for the current round, and outside READY it does
    nothing. *)
Theorem ready_needs_strategies v m t opp :
  status (room v) = PLAYING → myMatch v = Some m →
  team v = Some t → opponentTeam v = Some opp → isTeamA v m = true →
  (strategy t = None ∨ strategy opp = None → readyEffect v = None) ∧
  (∀ ms os, strategy t = Some ms → strategy opp = Some os →
     (roundStatus m ≠ READY → readyEffect v = Some v) ∧
     (roundStatus m = READY →
      (readyEffect v = None ↔
       at_index ms (currentRound m - 1) = None ∨
       at_index os (currentRound m - 1) = None))).
Proof.
  intros Hst Hm Ht Ho HA. unfold readyEffect.
  rewrite decide_False by (by rewrite Hst; intros []).
  rewrite Hm, Ht, Ho, HA. simpl. split.
  - intros [->| ->]; [done|]. by destruct (strategy t).
  - intros ms os -> ->. simpl. split.
    + intros Hne. by rewrite decide_False.
    + intros Hr. rewrite decide_True by done.
      destruct (at_index ms _) as [myStrat|]; simpl; [|by split; [left|]].
      destruct (at_index os _) as [oppStrat|]; simpl; [|by split; [right|]].
      destruct (myMatchEntry v) as [[idx m0]|] eqn:Hme.
      2:{ unfold myMatch in Hm. by rewrite Hme in Hm. }
      case_decide.
      * destruct (updateMatchState_spec v [SetRoundStatus SHOWDOWN] idx m0 Hme)
          as (v' & -> & _). split; [done|by intros [|]].
      * match goal with |- context [updateMatchState v ?us] =>
          destruct (updateMatchState_spec v us idx m0 Hme) as (v' & -> & _) end.
        split; [done|by intros [|]].
Qed.

Lemma ready_needs_strategies_witness :
  let v := unpreparedView in
  let m := newMatch "m" "A" "B" in
  let t := mkTeam "A" "A" false 0%Qc [] None in
  let opp := mkTeam "B" "B" false 0%Qc [] None in
  (strategy t = None ∨ strategy opp = None → readyEffect v = None) ∧
  (∀ ms os, strategy t = Some ms → strategy opp = Some os →
     (roundStatus m ≠ READY → readyEffect v = Some v) ∧
     (roundStatus m = READY →
      (readyEffect v = None ↔
       at_index ms (currentRound m - 1) = None ∨
       at_index os (currentRound m - 1) = None))).
Proof.
  apply (ready_needs_strategies unpreparedView (newMatch "m" "A" "B")
           (mkTeam "A" "A" false 0%Qc [] None) (mkTeam "B" "B" false 0%Qc [] None));
    reflexivity.
Defined.

(** ** The match in play *)

Ltac open_sound H :=
  destruct H as [Hpl Hmt Hsd Hd Hon H1 H2 Hs1 Hs2 Hk1 Hk2 Hl1 Hl2 Hc1 Hc2 Hw1 Hw2
                 Hco Hbk Hst].

Lemma Sound_swap r idx A B flip m t1 t2 s1 s2 k1 k2 :
  Sound r idx A B flip m t1 t2 s1 s2 k1 k2 →
  Sound r idx B A (negb flip) m t2 t1 s2 s1 k2 k1.
Proof.
  intros HS. open_sound HS.
  constructor; try done.
  - by destruct flip.
  - intros i m' Hi Hne. destruct (Hon i m' Hi Hne) as (?&?&?&?). done.
  - unfold stakes in *. destruct (roundStatus m); try done.
    + destruct Hst as (a & b & Ha & Hb & Hor).
      exists b, a. split_and!; [done..|]. tauto.
    + destruct Hst as (a & b & Ha & Hb & Hor).
      exists b, a. by split_and!.
Qed.

Lemma Advanced_swap r idx A B flip k1 k2 m :
  Advanced r idx B A (negb flip) k2 k1 m → Advanced r idx A B flip k1 k2 m.
Proof.
  intros (m' & t1 & t2 & s1 & s2 & HS & Hp).
  exists m', t2, t1, s2, s1. split; [|done].
  apply Sound_swap in HS. by rewrite negb_involutive in HS.
Qed.

Lemma Kickoff_Sound r idx m tA tB sA sB :
  Kickoff r idx m tA tB sA sB →
  Sound r idx (teamAId m) (teamBId m) false m tA tB sA sB (plan sA) (plan sB).
Proof.
  intros [Hpl Hmt Hf Hco Hd Hon HA HB HsA HsB HlA HlB HcA HcB HwA HwB].
  constructor; try done.
  - by apply FreshMatch_Booked.
  - unfold stakes. destruct Hf as (_&->&_). done.
Qed.

(** The view of team [A] of a sound room. *)
Lemma Sound_view w idx A B flip m t1 t2 s1 s2 k1 k2 :
  Sound (room w) idx A B flip m t1 t2 s1 s2 k1 k2 → teamId w = A →
  myMatchEntry w = Some (idx, m) ∧ team w = Some t1 ∧ opponentTeam w = Some t2 ∧
  isTeamA w m = negb flip ∧ opponentId w m = B ∧ t_id t1 = A ∧ t_id t2 = B ∧
  ∃ a b, at_index s1 (currentRound m - 1) = Some a ∧
         at_index s2 (currentRound m - 1) = Some b ∧
         1 ≤ chips a ∧ 1 ≤ chips b.
Proof.
  intros HS Hid. open_sound HS.
  assert (Hm : myMatchEntry w = Some (idx, m)).
  { apply list_find_Some. split; [done|]. split.
    - rewrite Hid. destruct flip; tauto.
    - intros j mj Hj Hlt. rewrite Hid.
      destruct (Hon j mj Hj ltac:(lia)) as (?&?&?&?). tauto. }
  assert (HA : isTeamA w m = negb flip).
  { unfold isTeamA. rewrite Hid. destruct flip; simpl.
    - apply bool_decide_eq_false_2. destruct Hsd. congruence.
    - apply bool_decide_eq_true_2. tauto. }
  assert (Ho : opponentId w m = B).
  { unfold opponentId. rewrite HA. destruct flip; simpl; tauto. }
  split; [done|]. split; [unfold team; by rewrite Hid|].
  split. { unfold opponentTeam. rewrite (myMatch_entry _ _ _ Hm). simpl. by rewrite Ho. }
  split; [done|]. split; [done|].
  split; [by eapply find_team_id|]. split; [by eapply find_team_id|].
  destruct Hbk as [Hr _ _ _ _ _ _]. unfold TOTAL_ROUNDS in Hr.
  destruct (lookup_lt_is_Some_2 s1 (Z.to_nat (currentRound m - 1))) as [a Ha]; [lia|].
  destruct (lookup_lt_is_Some_2 s2 (Z.to_nat (currentRound m - 1))) as [b Hb]; [lia|].
  exists a, b. rewrite !at_index_Some. split_and!; [lia|done|lia|done|..].
  - by eapply (Forall_lookup_1 _ _ _ _ Hc1).
  - by eapply (Forall_lookup_1 _ _ _ _ Hc2).
Qed.

Lemma plan_length s s' : plan s' = plan s → length s' = length s.
Proof. intros H. apply (f_equal length) in H. unfold plan in H. by rewrite !length_fmap in H. Qed.

(** A sound room after its match and its two teams are replaced. *)
Lemma Sound_update r r' idx A B flip m m' t1 t2 t1' t2' s1 s2 s1' s2' k1 k2 :
  Sound r idx A B flip m t1 t2 s1 s2 k1 k2 →
  status r' = status r →
  matches r' = <[idx := m']> (matches r) →
  teamAId m' = teamAId m → teamBId m' = teamBId m →
  find_team (teams r') A = Some t1' → find_team (teams r') B = Some t2' →
  strategy t1' = Some s1' → strategy t2' = Some s2' →
  plan s1' = plan s1 → plan s2' = plan s2 →
  Forall (λ x, 1 ≤ chips x) s1' → Forall (λ x, 1 ≤ chips x) s2' →
  (0 ≤ winnings t1')%Qc → (0 ≤ winnings t2')%Qc →
  0 ≤ carryOver m' → Booked m' → stakes m' A B s1' s2' →
  Sound r' idx A B flip m' t1' t2' s1' s2' k1 k2.
Proof.
  intros HS Hst' Hms HA HB H1' H2' Hs1' Hs2' Hp1 Hp2 Hc1' Hc2' Hw1' Hw2' Hco' Hbk' Hstk.
  open_sound HS.
  constructor; try done.
  - congruence.
  - rewrite Hms. apply list_lookup_insert_eq. by eapply lookup_lt_Some.
  - by rewrite HA, HB.
  - intros i mi Hi Hne. rewrite Hms, list_lookup_insert_ne in Hi by done. by eapply Hon.
  - congruence.
  - congruence.
  - rewrite (plan_length _ _ Hp1). done.
  - rewrite (plan_length _ _ Hp2). done.
Qed.

(** The same with the teams left alone. *)
Lemma Sound_match r r' idx A B flip m m' t1 t2 s1 s2 k1 k2 :
  Sound r idx A B flip m t1 t2 s1 s2 k1 k2 →
  status r' = status r → teams r' = teams r →
  matches r' = <[idx := m']> (matches r) →
  teamAId m' = teamAId m → teamBId m' = teamBId m →
  carryOver m' = carryOver m → Booked m' → stakes m' A B s1 s2 →
  Sound r' idx A B flip m' t1 t2 s1 s2 k1 k2.
Proof.
  intros HS Hst' Hts Hms HA HB Hco' Hbk' Hstk.
  pose proof HS as HS'. open_sound HS'.
  apply (Sound_update r r' idx A B flip m m' t1 t2 t1 t2 s1 s2 s1 s2 k1 k2);
    rewrite ?Hts, ?Hco'; done.
Qed.

Lemma Qc_of_Z_nonneg z : 0 ≤ z → (0 ≤ Qc_of_Z z)%Qc.
Proof. intros H. apply Z2Qc_inj_le in H. by rewrite Z2Qc_inj_0 in H. Qed.

Lemma Qc_half_nonneg z : 0 ≤ z → (0 ≤ Qc_of_Z z / 2)%Qc.
Proof.
  intros H. unfold Qcdiv. apply Qcmult_nonneg_nonneg; [by apply Qc_of_Z_nonneg|done].
Qed.

Lemma Booked_phase m m' :
  Booked m →
  currentRound m' = currentRound m → history m' = history m →
  pot m' = pot m → teamAScore m' = teamAScore m → teamBScore m' = teamBScore m →
  inPlay (roundStatus m) → inPlay (roundStatus m') →
  (is_Some (turnOwner m') → roundStatus m' = DECISION) →
  Booked m'.
Proof.
  intros Hb Hcr Hh Hp HA HB Hin Hin' Hto.
  apply (Booked_same m); try done.
  - unfold resolvedRounds. rewrite Hcr.
    destruct Hin as [->|[->| ->]], Hin' as [->|[->| ->]]; done.
  - destruct Hin' as [->|[->| ->]]; done.
Qed.

Lemma returns {X} (o : option X) (P : X → Prop) :
  match o with Some x => P x | None => False end → ∃ x, o = Some x ∧ P x.
Proof. destruct o as [x|]; [|done]. by exists x. Qed.

(** The READY effect in the view of team [A]. *)
Lemma ready_forward w idx A B flip m t1 t2 s1 s2 k1 k2 :
  Sound (room w) idx A B flip m t1 t2 s1 s2 k1 k2 → teamId w = A →
  ∃ w', readyEffect w = Some w' ∧
    if decide (flip = false ∧ roundStatus m = READY)
    then Advanced (room w') idx A B flip k1 k2 m
    else room w' = room w.
Proof.
  intros HS Hid.
  destruct (Sound_view _ _ _ _ _ _ _ _ _ _ _ _ HS Hid)
    as (Hm & Ht & Ho & HA & Hoi & Hi1 & Hi2 & a & b & Ha & Hb & Hca & Hcb).
  pose proof HS as HS'. open_sound HS'.
  destruct (decide (flip = false ∧ roundStatus m = READY)) as [[-> Hr]|Hn];
    apply returns; unfold readyEffect; rewrite decide_False by (by intros []);
    rewrite (myMatch_entry _ _ _ Hm), Ht, Ho, HA; simpl.
  2:{ destruct flip; simpl; [done|]. rewrite Hs1, Hs2; simpl.
      rewrite decide_False by tauto. done. }
  rewrite Hs1, Hs2; simpl. rewrite decide_True by done. rewrite Ha, Hb; simpl.
  destruct (decide (chips a = chips b)) as [Heq|Hne].
  - destruct (updateMatchState_spec w [SetRoundStatus SHOWDOWN] idx m Hm)
      as (v' & -> & _ & Hts & Hst' & Hms & _).
    exists (spread m [SetRoundStatus SHOWDOWN]), t1, t2, s1, s2. split.
    + apply (Sound_match (room w) _ _ _ _ _ m); try done; try (by destruct m).
      * apply (Booked_phase m); try done; try (by destruct m).
        -- rewrite Hr. by left.
        -- right; right. by destruct m.
        -- intros Hto. destruct Hbk as [_ Hturn _ _ _ _ _].
           assert (is_Some (turnOwner m)) as Hx%Hturn by (by destruct m). congruence.
      * unfold stakes.
        replace (roundStatus (spread m _)) with SHOWDOWN by (by destruct m).
        replace (currentRound (spread m _)) with (currentRound m) by (by destruct m).
        by exists a, b.
    + unfold progress. rewrite Hr.
      replace (roundStatus (spread m _)) with SHOWDOWN by (by destruct m).
      replace (currentRound (spread m _)) with (currentRound m) by (by destruct m).
      lia.
  - match goal with |- context [updateMatchState w ?us] =>
      destruct (updateMatchState_spec w us idx m Hm)
        as (v' & -> & _ & Hts & Hst' & Hms & _);
      exists (spread m us), t1, t2, s1, s2 end.
    split.
    + apply (Sound_match (room w) _ _ _ _ _ m); try done; try (by destruct m).
      * apply (Booked_phase m); try done; try (by destruct m).
        -- rewrite Hr. by left.
        -- right; left. by destruct m.
      * unfold stakes.
        replace (roundStatus (spread m _)) with DECISION by (by destruct m).
        replace (currentRound (spread m _)) with (currentRound m) by (by destruct m).
        exists a, b. split; [done|]. split; [done|].
        destruct (decide (chips a < chips b)); [left|right];
          (split; [lia|]); destruct m; simpl; congruence.
    + unfold progress. rewrite Hr.
      replace (roundStatus (spread m _)) with DECISION by (by destruct m).
      replace (currentRound (spread m _)) with (currentRound m) by (by destruct m).
      lia.
Qed.

Lemma confirmations_bounds m : 0 ≤ confirmations m ≤ 2.
Proof. unfold confirmations. repeat case_match; lia. Qed.

Lemma progress_result m m' :
  currentRound m' = currentRound m → inPlay (roundStatus m) →
  roundStatus m' = RESULT → progress m < progress m'.
Proof.
  intros Hcr Hin Hrs. unfold progress. rewrite Hcr, Hrs.
  pose proof (confirmations_bounds m').
  destruct Hin as [->|[->| ->]]; lia.
Qed.

(** The fold button in the view of team [A]. *)
Lemma fold_forward w idx A B flip m t1 t2 s1 s2 k1 k2 :
  Sound (room w) idx A B flip m t1 t2 s1 s2 k1 k2 → teamId w = A →
  ∃ w', handleFold w = Some w' ∧
    if decide (turnOwner m = Some A)
    then Advanced (room w') idx A B flip k1 k2 m
    else room w' = room w.
Proof.
  intros HS Hid.
  destruct (Sound_view _ _ _ _ _ _ _ _ _ _ _ _ HS Hid)
    as (Hm & Ht & Ho & HA & Hoi & Hi1 & Hi2 & a & b & Ha & Hb & Hca & Hcb).
  pose proof HS as HS'. open_sound HS'.
  destruct (decide (turnOwner m = Some A)) as [Hown|Hown];
    apply returns; unfold handleFold, isMyTurn;
    rewrite (myMatch_entry _ _ _ Hm), Hid.
  2:{ by rewrite bool_decide_eq_false_2 by done. }
  rewrite bool_decide_eq_true_2 by done. simpl.
  pose proof (Booked_decision _ _ Hbk Hown) as Hrs.
  rewrite Ht; simpl. unfold strat_at. rewrite Hs1; simpl. rewrite Ha; simpl.
  rewrite Ho; simpl. rewrite Hs2; simpl. rewrite Hb; simpl.
  match goal with |- context [updateTeamsAndMatch w ?ts ?us] =>
    destruct (updateTeamsAndMatch_spec w ts us idx m Hm)
      as (v' & -> & _ & Hts & Hst' & Hms & _);
    exists (spread m us), t1,
      (with_winnings t2 (winnings t2 + Qc_of_Z (chips a + chips b + carryOver m))%Qc), s1, s2
  end.
  assert (Hbk' : Booked (spread m
    [SetRoundStatus RESULT; SetTurnOwner None; SetLastAction (Some (A, FOLD));
     SetLastRoundResult (Some (foldResult w m a b)); SetResultConfirmed ∅;
     SetHistory (history m ++ [foldResult w m a b])])).
  { eapply Booked_resolved; [exact Hbk|..]; try (by destruct m);
      [unfold resolvedRounds; by rewrite Hrs
      |rewrite <- (bk_pot _ Hbk); by destruct m|..];
      unfold foldResult, pot_of; destruct (isTeamA w m); destruct m; simpl; lia. }
  rewrite Hi2 in Hts.
  split.
  - apply (Sound_update (room w) _ _ _ _ _ m _ t1 t2 _ _ s1 s2); try done;
      try (by destruct m).
    + rewrite Hts, find_team_replace_ne; [done|done|congruence].
    + rewrite Hts. by eapply find_team_replace_eq.
    + simpl. apply Qcplus_nonneg_nonneg; [done|]. apply Qc_of_Z_nonneg. lia.
  - apply progress_result; [by destruct m| |by destruct m].
    rewrite Hrs. right; by left.
Qed.

Lemma Sound_entries r idx A B flip m t1 t2 s1 s2 k1 k2 :
  Sound r idx A B flip m t1 t2 s1 s2 k1 k2 →
  ∃ a b, at_index s1 (currentRound m - 1) = Some a ∧
         at_index s2 (currentRound m - 1) = Some b ∧
         1 ≤ chips a ∧ 1 ≤ chips b.
Proof.
  intros HS. open_sound HS.
  destruct Hbk as [Hr _ _ _ _ _ _]. unfold TOTAL_ROUNDS in Hr.
  destruct (lookup_lt_is_Some_2 s1 (Z.to_nat (currentRound m - 1))) as [a Ha]; [lia|].
  destruct (lookup_lt_is_Some_2 s2 (Z.to_nat (currentRound m - 1))) as [b Hb]; [lia|].
  exists a, b. rewrite !at_index_Some. split_and!; [lia|done|lia|done|..].
  - by eapply (Forall_lookup_1 _ _ _ _ Hc1).
  - by eapply (Forall_lookup_1 _ _ _ _ Hc2).
Qed.

(** The showdown button in a view of the match, with [A] on the A seat. *)
Lemma showdown_seatA w idx A B m t1 t2 s1 s2 k1 k2 :
  Sound (room w) idx A B false m t1 t2 s1 s2 k1 k2 →
  myMatchEntry w = Some (idx, m) →
  ∃ w', handleShowdown w = Some w' ∧
    if decide (roundStatus m = SHOWDOWN)
    then Advanced (room w') idx A B false k1 k2 m
    else room w' = room w.
Proof.
  intros HS Hm.
  destruct (Sound_entries _ _ _ _ _ _ _ _ _ _ _ _ HS) as (a & b & Ha & Hb & Hca & Hcb).
  pose proof HS as HS'. open_sound HS'.
  destruct (decide (roundStatus m = SHOWDOWN)) as [Hrs|Hrs];
    apply returns; unfold handleShowdown; rewrite (myMatch_entry _ _ _ Hm); simpl.
  2:{ by rewrite decide_True by done. }
  rewrite decide_False by (by intros []).
  destruct Hsd as [HsA HsB]. rewrite HsA, HsB, H1; simpl. rewrite H2; simpl.
  unfold strat_at. rewrite Hs1; simpl. rewrite Ha; simpl.
  rewrite Hs2; simpl. rewrite Hb; simpl.
  pose proof (Qc_half_nonneg _ Hco) as Hhalf.
  pose proof (Qc_of_Z_nonneg (chips a) ltac:(lia)) as Hqa.
  pose proof (Qc_of_Z_nonneg (chips b) ltac:(lia)) as Hqb.
  pose proof (Qc_of_Z_nonneg (chips a + chips b + carryOver m) ltac:(lia)) as Hqp.
  destruct (decide (card b < card a));
    [|destruct (decide (card a < card b));
      [|destruct (decide (currentRound m = TOTAL_ROUNDS))]];
    match goal with
    | |- context [fmap (λ t, if decide (t_id t = t_id t1) then ?x
                             else if decide (t_id t = t_id t2) then ?y else t) _] =>
        destruct (find_showdown_teams (teams (room w)) t1 t2 x y A B
                    H1 H2 Hd eq_refl eq_refl) as [HfA HfB];
        match goal with |- context [updateTeamsAndMatch w ?ts ?us] =>
          destruct (updateTeamsAndMatch_spec w ts us idx m Hm)
            as (v' & -> & _ & Hts & Hst' & Hms & _);
          exists (spread m us), x, y, s1, s2
        end
    end;
    (split; [|apply progress_result;
               [by destruct m|rewrite Hrs; right; by right|by destruct m]]);
    (apply (Sound_update (room w) _ _ _ _ _ m _ t1 t2 _ _ s1 s2); try done;
     try (by destruct m); try (by rewrite Hts);
     try (destruct m; simpl in *; lia);
     try (simpl; repeat apply Qcplus_nonneg_nonneg; done)).
  all: eapply Booked_resolved; [exact Hbk|..]; try (by destruct m);
    try (unfold resolvedRounds; by rewrite Hrs);
    try (rewrite <- (bk_pot _ Hbk); by destruct m);
    destruct m; simpl; repeat case_decide; try done; lia.
Qed.

(** The showdown button in the view of team [A]. *)
Lemma showdown_forward w idx A B flip m t1 t2 s1 s2 k1 k2 :
  Sound (room w) idx A B flip m t1 t2 s1 s2 k1 k2 → teamId w = A →
  ∃ w', handleShowdown w = Some w' ∧
    if decide (roundStatus m = SHOWDOWN)
    then Advanced (room w') idx A B flip k1 k2 m
    else room w' = room w.
Proof.
  intros HS Hid.
  destruct (Sound_view _ _ _ _ _ _ _ _ _ _ _ _ HS Hid) as (Hm & _).
  destruct flip.
  - apply Sound_swap in HS.
    destruct (showdown_seatA _ _ _ _ _ _ _ _ _ _ _ HS Hm) as (w' & Hw & Hcase).
    exists w'. split; [done|]. case_decide; [|done]. by apply Advanced_swap.
  - by apply (showdown_seatA _ _ _ _ _ _ _ _ _ _ _ HS Hm).
Qed.

Lemma Booked_next m :
  Booked m → roundStatus m = RESULT →
  Booked (spread m
    [SetCurrentRound (if bool_decide (TOTAL_ROUNDS < currentRound m + 1)
                      then currentRound m else currentRound m + 1);
     SetRoundStatus (if bool_decide (TOTAL_ROUNDS < currentRound m + 1)
                     then FINISHED else READY);
     SetResultConfirmed ∅; SetLastRoundResult None; SetLastAction None]).
Proof.
  intros [Hr Ht Hh _ Hp HsA HsB] Hrs. unfold TOTAL_ROUNDS in *.
  case_bool_decide.
  - constructor; [by destruct m| | | |by destruct m..].
    { intros Hs. specialize (Ht ltac:(by destruct m)). congruence. }
    { replace (r_round <$> history _) with (r_round <$> history m) by (by destruct m).
      rewrite Hh. f_equal. unfold resolvedRounds. rewrite Hrs. by destruct m. }
    intros _. destruct m; unfold TOTAL_ROUNDS; simpl in *; lia.
  - constructor; [destruct m; unfold TOTAL_ROUNDS; simpl in *; lia| | | |by destruct m..].
    + intros Hs. specialize (Ht ltac:(by destruct m)). congruence.
    + replace (r_round <$> history _) with (r_round <$> history m) by (by destruct m).
      rewrite Hh. f_equal. unfold resolvedRounds. rewrite Hrs.
      destruct m; simpl. lia.
    + by destruct m.
Qed.

Lemma Booked_confirmed m c :
  Booked m → Booked (spread m [SetResultConfirmed c]).
Proof.
  intros Hb. pose proof Hb as [_ Ht _ Hf _ _ _].
  constructor; try (destruct Hb; by destruct m).
Qed.

(** The confirm button of the result modal in the view of team [A]. *)
Lemma confirm_forward w idx A B flip m t1 t2 s1 s2 k1 k2 :
  Sound (room w) idx A B flip m t1 t2 s1 s2 k1 k2 → teamId w = A →
  ∃ w', clickConfirmResult w = Some w' ∧
    if decide (roundStatus m = RESULT ∧ truthy (resultConfirmed m) A = false)
    then Advanced (room w') idx A B flip k1 k2 m
    else room w' = room w.
Proof.
  intros HS Hid.
  destruct (Sound_view _ _ _ _ _ _ _ _ _ _ _ _ HS Hid) as (Hm & _).
  pose proof HS as HS'. open_sound HS'.
  destruct (decide (roundStatus m = RESULT ∧ truthy (resultConfirmed m) A = false))
    as [[Hrs HnA]|Hn];
    apply returns; unfold clickConfirmResult, resultModalShown;
    rewrite (myMatch_entry _ _ _ Hm), Hid.
  2:{ destruct (bool_decide_reflect (roundStatus m = RESULT)); simpl; [|done].
      destruct (truthy (resultConfirmed m) A) eqn:E; [by rewrite andb_false_r|tauto]. }
  unfold stakes in Hst. rewrite Hrs in Hst. destruct Hst as [Hlr Hnb].
  rewrite !bool_decide_eq_true_2 by done. rewrite HnA. simpl.
  unfold handleConfirmResult. rewrite (myMatch_entry _ _ _ Hm), Hid. simpl.
  assert (HcA : truthy (<[A := true]> (resultConfirmed m)) A = true).
  { unfold truthy. by rewrite lookup_insert_eq. }
  assert (HcB : truthy (<[A := true]> (resultConfirmed m)) B
                = truthy (resultConfirmed m) B).
  { unfold truthy. by rewrite lookup_insert_ne. }
  assert (Hboth : truthy (<[A := true]> (resultConfirmed m)) (teamAId m)
                  && truthy (<[A := true]> (resultConfirmed m)) (teamBId m)
                  = truthy (resultConfirmed m) B).
  { destruct flip, Hsd as [-> ->]; rewrite HcA, HcB; by rewrite ?andb_true_r. }
  assert (Hconf : confirmations m = if truthy (resultConfirmed m) B then 1 else 0).
  { unfold confirmations. destruct flip, Hsd as [-> ->]; rewrite HnA; lia. }
  rewrite Hboth. destruct (truthy (resultConfirmed m) B) eqn:HB.
  - match goal with |- context [updateMatchState w ?us] =>
      destruct (updateMatchState_spec w us idx m Hm)
        as (v' & -> & _ & Hts & Hst' & Hms & _);
      exists (spread m us), t1, t2, s1, s2 end.
    split.
    + apply (Sound_match (room w) _ _ _ _ _ m); try done; try (by destruct m).
      * by apply Booked_next.
      * unfold stakes. case_bool_decide; by destruct m.
    + destruct Hbk as [Hr _ _ _ _ _ _]. unfold progress. rewrite Hrs, Hconf.
      unfold TOTAL_ROUNDS in *. case_bool_decide; destruct m; simpl in *; lia.
  - match goal with |- context [updateMatchState w ?us] =>
      destruct (updateMatchState_spec w us idx m Hm)
        as (v' & -> & _ & Hts & Hst' & Hms & _);
      exists (spread m us), t1, t2, s1, s2 end.
    split.
    + apply (Sound_match (room w) _ _ _ _ _ m); try done; try (by destruct m).
      * by apply Booked_confirmed.
      * unfold stakes.
        replace (roundStatus (spread m _)) with RESULT by (by destruct m).
        replace (lastRoundResult (spread m _)) with (lastRoundResult m) by (by destruct m).
        split; [done|].
        replace (resultConfirmed (spread m _)) with (<[A := true]> (resultConfirmed m))
          by (by destruct m).
        replace (teamAId (spread m _)) with (teamAId m) by (by destruct m).
        replace (teamBId (spread m _)) with (teamBId m) by (by destruct m).
        done.
    + unfold progress.
      replace (roundStatus (spread m _)) with RESULT by (by destruct m).
      replace (currentRound (spread m _)) with (currentRound m) by (by destruct m).
      rewrite Hrs, Hconf. unfold confirmations.
      replace (resultConfirmed (spread m _)) with (<[A := true]> (resultConfirmed m))
        by (by destruct m).
      replace (teamAId (spread m _)) with (teamAId m) by (by destruct m).
      replace (teamBId (spread m _)) with (teamBId m) by (by destruct m).
      destruct flip, Hsd as [-> ->]; rewrite HcA, HcB; lia.
Qed.

Lemma plan_insert s n x y :
  s !! n = Some x → round y = round x → card y = card x →
  plan (<[n := y]> s) = plan s.
Proof.
  intros Hx Hr Hc. unfold plan. rewrite list_fmap_insert.
  apply list_insert_id. rewrite list_lookup_fmap, Hx. simpl. by rewrite Hr, Hc.
Qed.

Lemma StealInv_plan v cr s : StealInv v cr s → plan (tempStrategy v) = plan s.
Proof.
  intros [_ Hlen Hent _]. unfold plan. apply list_eq. intros i.
  rewrite !list_lookup_fmap.
  destruct (s !! i) as [x|] eqn:Hx.
  - destruct (lookup_lt_is_Some_2 (tempStrategy v) i) as [y Hy];
      [rewrite Hlen; by eapply lookup_lt_Some|].
    rewrite Hy. simpl. destruct (Hent i x y Hx Hy) as (-> & -> & _). done.
  - rewrite (lookup_ge_None_2 (tempStrategy v) i); [done|].
    rewrite Hlen. by apply lookup_ge_None.
Qed.

Lemma StealInv_chips v cr s :
  StealInv v cr s → Forall (λ x, 1 ≤ chips x) (tempStrategy v).
Proof.
  intros [_ Hlen Hent _]. apply Forall_lookup. intros i y Hy.
  destruct (lookup_lt_is_Some_2 s i) as [x Hx];
    [rewrite <- Hlen; by eapply lookup_lt_Some|].
  destruct (Hent i x y Hx Hy) as (_ & _ & ? & _). lia.
Qed.

Lemma StealInv_current v cr s x :
  StealInv v cr s → at_index s (cr - 1) = Some x →
  at_index (tempStrategy v) (cr - 1) = Some x.
Proof.
  intros [_ Hlen Hent _] [Hge Hx]%at_index_Some. apply at_index_Some. split; [done|].
  destruct (lookup_lt_is_Some_2 (tempStrategy v) (Z.to_nat (cr - 1))) as [y Hy];
    [rewrite Hlen; by eapply lookup_lt_Some|].
  rewrite Hy. f_equal. apply (Hent _ x y Hx Hy). lia.
Qed.

Lemma stakes_showdown m m' A B s1 s2 a b :
  roundStatus m' = SHOWDOWN → currentRound m' = currentRound m →
  at_index s1 (currentRound m - 1) = Some a →
  at_index s2 (currentRound m - 1) = Some b →
  chips a = chips b →
  stakes m' A B s1 s2.
Proof. intros Hrs Hcr Ha Hb Heq. unfold stakes. rewrite Hrs, Hcr. by exists a, b. Qed.

Lemma Booked_called m us :
  Booked m → roundStatus m = DECISION →
  currentRound (spread m us) = currentRound m → history (spread m us) = history m →
  pot (spread m us) = pot m → teamAScore (spread m us) = teamAScore m →
  teamBScore (spread m us) = teamBScore m →
  roundStatus (spread m us) = SHOWDOWN → turnOwner (spread m us) = None →
  Booked (spread m us).
Proof.
  intros Hbk Hrs Hcr Hh Hp HA HB Hrs' Hto.
  apply (Booked_phase m); try done.
  - rewrite Hrs. right; by left.
  - rewrite Hrs'. right; by right.
  - rewrite Hto. by intros [? ?].
Qed.

Lemma progress_called m m' :
  roundStatus m = DECISION → roundStatus m' = SHOWDOWN →
  currentRound m' = currentRound m → progress m < progress m'.
Proof. intros Hrs Hrs' Hcr. unfold progress. rewrite Hrs, Hrs', Hcr. lia. Qed.

(** The call button in the view of team [A], with the session of the steal
    modal that follows an underfunded call. *)
Lemma call_forward w idxs idx A B flip m t1 t2 s1 s2 k1 k2 :
  Sound (room w) idx A B flip m t1 t2 s1 s2 k1 k2 → teamId w = A →
  stealModalOpen w = false →
  ∃ w', callSession w idxs = Some w' ∧
    (room w' = room w ∨ Advanced (room w') idx A B flip k1 k2 m).
Proof.
  intros HS Hid Hclosed.
  destruct (Sound_view _ _ _ _ _ _ _ _ _ _ _ _ HS Hid)
    as (Hm & Ht & Ho & HA & Hoi & Hi1 & Hi2 & a & b & Ha & Hb & Hca & Hcb).
  pose proof HS as HS'. open_sound HS'.
  assert (Hcancel : ∀ v, room (clickStealCancel v) = room v).
  { intros v. unfold clickStealCancel. by destruct (stealModalOpen v). }
  assert (Hquiet : ∀ v, stealModalOpen v = false →
            (v' ← stealClicks v idxs; v3 ← clickStealConfirm v'; Some (clickStealCancel v3))
            = Some v).
  { intros v Hc. rewrite stealClicks_closed by done. simpl.
    unfold clickStealConfirm. rewrite Hc. simpl.
    unfold clickStealCancel. by rewrite Hc. }
  unfold callSession.
  destruct (decide (turnOwner m = Some A)) as [Hown|Hown].
  2:{ exists w. split; [|by left].
      assert (handleCall w = Some w) as ->.
      { unfold handleCall, isMyTurn. rewrite (myMatch_entry _ _ _ Hm), Hid.
        by rewrite bool_decide_eq_false_2 by done. }
      simpl. by apply Hquiet. }
  pose proof (Booked_decision _ _ Hbk Hown) as Hrs.
  assert (Hlt : chips a < chips b).
  { unfold stakes in Hst. rewrite Hrs in Hst.
    destruct Hst as (a' & b' & Ha' & Hb' & [[? _]|[_ ?]]); [|congruence].
    congruence. }
  assert (HSeat : Seated w idx m t1 t2).
  { split; try done. destruct flip, Hsd as [-> ->]; congruence. }
  assert (Hsb : strat_at t2 (currentRound m - 1) = Some b).
  { unfold strat_at. by rewrite Hs2. }
  rewrite <- Hid in Hown.
  destruct (decide (Qc_of_Z (chips b - chips a) ≤ winnings t1)%Qc) as [Hfund|Hshort].
  - (* a funded call *)
    assert (Hcall : ∃ v', handleCall w = Some v' ∧ stealModalOpen v' = false ∧
              Advanced (room v') idx A B flip k1 k2 m).
    { apply returns. unfold handleCall, isMyTurn. rewrite (myMatch_entry _ _ _ Hm).
      rewrite bool_decide_eq_true_2 by done. simpl.
      rewrite Ht; simpl. unfold strat_at. rewrite Hs1; simpl. rewrite Ha; simpl.
      rewrite Ho; simpl. rewrite Hs2; simpl. rewrite Hb; simpl.
      rewrite decide_True by done. simpl.
      pose proof Ha as [Hge Hla]%at_index_Some.
      assert (Hadd : add_chips_at s1 (currentRound m - 1) (chips b - chips a)
                = <[Z.to_nat (currentRound m - 1) :=
                      with_chips a (chips a + (chips b - chips a))]> s1).
      { rewrite <- (Z2Nat.id (currentRound m - 1)) at 1 by done.
        by apply add_chips_at_insert. }
      rewrite Hadd.
      match goal with |- context [updateTeamsAndMatch w ?ts ?us] =>
        pose proof (updateTeamsAndMatch_modal w ts us) as Hmodal;
        destruct (updateTeamsAndMatch_spec w ts us idx m Hm)
          as (v' & Hv' & _ & Hts & Hst' & Hms & _);
        rewrite Hv'; specialize (Hmodal v' Hv');
        split; [congruence|];
        exists (spread m us),
          (with_winnings_strategy t1 (winnings t1 - Qc_of_Z (chips b - chips a))%Qc
             (<[Z.to_nat (currentRound m - 1) :=
                  with_chips a (chips a + (chips b - chips a))]> s1)), t2,
          (<[Z.to_nat (currentRound m - 1) :=
               with_chips a (chips a + (chips b - chips a))]> s1), s2
      end.
      split.
      - apply (Sound_update (room w) _ _ _ _ _ m _ t1 t2 _ _ s1 s2); try done.
        + by destruct m.
        + by destruct m.
        + rewrite Hts, Hid. by eapply find_team_replace_eq.
        + rewrite Hts, Hid, find_team_replace_ne; [done|done|done].
        + by apply (plan_insert _ _ a).
        + apply Forall_insert; [done|]. simpl. lia.
        + simpl. by apply Qcle_minus_iff in Hfund.
        + by destruct m.
        + apply Booked_called; try done; by destruct m.
        + eapply (stakes_showdown m); [by destruct m|by destruct m| |exact Hb|].
          * apply at_index_Some. split; [done|].
            apply list_lookup_insert_eq. by eapply lookup_lt_Some.
          * simpl. lia.
      - apply progress_called; [done|by destruct m..]. }
    destruct Hcall as (v' & -> & Hc' & Hadv). simpl.
    exists v'. split; [by apply Hquiet|by right].
  - (* an underfunded call and the steal modal *)
    apply Qcnot_le_lt in Hshort.
    destruct (steal_session w idx m t1 t2 s1 a b idxs HSeat Hown Hs1 Hc1 Ha Hsb Hshort)
      as (v0 & v1 & -> & Hv1 & _ & Hr1 & Hid1 & _ & Hinv).
    simpl. rewrite Hv1. simpl.
    assert (Hm1 : myMatchEntry v1 = Some (idx, m)).
    { by rewrite (myMatchEntry_same w v1). }
    unfold clickStealConfirm. rewrite (si_open _ _ _ Hinv). simpl.
    destruct (canConfirmSteal v1).
    2:{ simpl. eexists. split; [done|]. left. by rewrite Hcancel. }
    assert (Hsteal : ∃ v', confirmSteal v1 = Some v' ∧
              Advanced (room v') idx A B flip k1 k2 m).
    { apply returns.
      pose proof (StealInv_current _ _ _ _ Hinv Ha) as Hcur.
      destruct (stolenTotal_is_Some (currentRound m - 1) 0 s1 (tempStrategy v1))
        as [stolen Hstolen]; [by rewrite (si_len _ _ _ Hinv)|].
      unfold confirmSteal. rewrite (myMatch_entry _ _ _ Hm1). simpl.
      unfold team, opponentTeam. rewrite (myMatch_entry _ _ _ Hm1). simpl.
      assert (opponentId v1 m = B) as ->.
      { unfold opponentId, isTeamA in *. by rewrite Hid1. }
      rewrite Hr1, Hid1, Hid, H1; simpl. rewrite Hs1; simpl. rewrite Hstolen; simpl.
      rewrite H2; simpl. rewrite Hsb; simpl. rewrite Ha; simpl. rewrite Hcur; simpl.
      match goal with |- context [updateTeamsAndMatch ?u ?ts ?us] =>
        destruct (updateTeamsAndMatch_spec u ts us idx m)
          as (v' & -> & _ & Hts & Hst' & Hms & _);
        [unfold myMatchEntry; simpl; exact Hm1|];
        exists (spread m us),
          (with_winnings_strategy t1 0%Qc
             (<[Z.to_nat (currentRound m - 1) :=
                  with_chips a (chips a + (chips b - chips a))]> (tempStrategy v1))), t2,
          (<[Z.to_nat (currentRound m - 1) :=
               with_chips a (chips a + (chips b - chips a))]> (tempStrategy v1)), s2
      end.
      simpl in Hst', Hms. rewrite Hr1 in Hst', Hms.
      pose proof Hcur as [Hge Hlc]%at_index_Some.
      split.
      - apply (Sound_update (room w) _ _ _ _ _ m _ t1 t2 _ _ s1 s2); try done.
        + by destruct m.
        + by destruct m.
        + rewrite Hts. by eapply find_team_replace_eq.
        + rewrite Hts, find_team_replace_ne; [done|done|done].
        + rewrite (plan_insert _ _ a) by done. by eapply StealInv_plan.
        + apply Forall_insert; [by eapply StealInv_chips|]. simpl. lia.
        + by destruct m.
        + apply Booked_called; try done; by destruct m.
        + eapply (stakes_showdown m); [by destruct m|by destruct m| |exact Hb|].
          * apply at_index_Some. split; [done|].
            apply list_lookup_insert_eq. by eapply lookup_lt_Some.
          * simpl. lia.
      - apply progress_called; [done|by destruct m..]. }
    destruct Hsteal as (v' & -> & Hadv). simpl.
    eexists. split; [done|]. right. by rewrite Hcancel.
Qed.

Lemma touches_refl w : touches w (room w).
Proof. split; [done|by left]. Qed.

Lemma touches_update u ts us w' i mi :
  updateTeamsAndMatch u ts us = Some w' → myMatchEntry u = Some (i, mi) →
  (∀ j, j ≠ teamAId mi → j ≠ teamBId mi →
        find_team ts j = find_team (teams (room u)) j) →
  touches u (room w').
Proof.
  intros Hw Hm Hts.
  destruct (updateTeamsAndMatch_spec u ts us i mi Hm)
    as (v' & Hv' & _ & Hts' & Hst' & Hms & _).
  rewrite Hw in Hv'. injection Hv' as <-.
  destruct (spread_ids mi us) as [Ha Hb].
  split; [done|]. right. exists i, mi, (spread mi us).
  split_and!; try done. by rewrite Hts'.
Qed.

(** The view of a match names one of its sides, and so does the id of the
    opponent. *)
Lemma entry_sides w i mi :
  myMatchEntry w = Some (i, mi) →
  (teamId w = teamAId mi ∨ teamId w = teamBId mi) ∧
  (opponentId w mi = teamAId mi ∨ opponentId w mi = teamBId mi).
Proof.
  intros (_ & Hside & _)%list_find_Some.
  split; [destruct Hside as [<-|<-]; auto|].
  unfold opponentId. destruct (isTeamA w mi); auto.
Qed.

Lemma find_team_replace_other ts i u j :
  t_id u = i → j ≠ i → find_team (replace_team i u ts) j = find_team ts j.
Proof. intros Hu Hne. by apply find_team_replace_ne. Qed.

Lemma readyEffect_touches w w' : readyEffect w = Some w' → touches w (room w').
Proof.
  intros H. unfold readyEffect in H.
  destruct (myMatchEntry w) as [[i mi]|] eqn:Hm.
  2:{ unfold myMatch in H. rewrite Hm in H. simpl in H.
      destruct (decide _); injection H as <-; apply touches_refl. }
  rewrite (myMatch_entry _ _ _ Hm) in H.
  along H; try (injection H as <-; apply touches_refl);
    by apply (touches_update w _ _ w' i mi H Hm).
Qed.

Lemma handleFold_touches w w' : handleFold w = Some w' → touches w (room w').
Proof.
  intros H. unfold handleFold in H.
  destruct (isMyTurn w) eqn:Hturn; simpl in H;
    [|injection H as <-; apply touches_refl].
  destruct (myMatchEntry w) as [[i mi]|] eqn:Hm.
  2:{ unfold myMatch in H. by rewrite Hm in H. }
  destruct (entry_sides _ _ _ Hm) as [_ Hopp].
  rewrite (myMatch_entry _ _ _ Hm) in H. simpl in H.
  destruct (team w) as [t|] eqn:Ht; simpl in H; [|done].
  destruct (strat_at t _) as [ms|]; simpl in H; [|done].
  destruct (opponentTeam w) as [opp|] eqn:Ho; simpl in H; [|done].
  destruct (strat_at opp _) as [os|]; simpl in H; [|done].
  unfold opponentTeam in Ho. rewrite (myMatch_entry _ _ _ Hm) in Ho. simpl in Ho.
  apply find_team_id in Ho.
  apply (touches_update w _ _ w' i mi H Hm).
  intros j HjA HjB. apply find_team_replace_other; [done|].
  rewrite Ho. destruct Hopp as [-> | ->]; done.
Qed.

Lemma handleShowdown_touches w w' : handleShowdown w = Some w' → touches w (room w').
Proof.
  intros H. unfold handleShowdown in H.
  destruct (myMatchEntry w) as [[i mi]|] eqn:Hm.
  2:{ unfold myMatch in H. by rewrite Hm in H. }
  rewrite (myMatch_entry _ _ _ Hm) in H. simpl in H.
  destruct (decide (roundStatus mi ≠ SHOWDOWN));
    [injection H as <-; apply touches_refl|].
  destruct (find_team _ (teamAId mi)) as [tA|] eqn:HA; simpl in H; [|done].
  destruct (find_team _ (teamBId mi)) as [tB|] eqn:HB; simpl in H; [|done].
  apply find_team_id in HA, HB.
  destruct (strat_at tA _) as [sA|]; simpl in H; [|done].
  destruct (strat_at tB _) as [sB|]; simpl in H; [|done].
  along H.
  apply (touches_update w _ _ w' i mi H Hm).
  intros j HjA HjB. rewrite find_team_fmap.
  - destruct (find_team (teams (room w)) j) as [t|] eqn:Hj; [|done]. simpl.
    apply find_team_id in Hj. rewrite !decide_False by congruence. done.
  - intros t. repeat case_decide; simpl; congruence.
Qed.

Lemma clickConfirmResult_touches w w' :
  clickConfirmResult w = Some w' → touches w (room w').
Proof.
  intros H. unfold clickConfirmResult in H.
  destruct (myMatchEntry w) as [[i mi]|] eqn:Hm.
  2:{ unfold myMatch in H. rewrite Hm in H. injection H as <-. apply touches_refl. }
  rewrite (myMatch_entry _ _ _ Hm) in H.
  destruct (_ && _); [|injection H as <-; apply touches_refl].
  unfold handleConfirmResult in H. rewrite (myMatch_entry _ _ _ Hm) in H. simpl in H.
  destruct (_ && _); by apply (touches_update w _ _ w' i mi H Hm).
Qed.

Lemma touches_same_view w v r' :
  room v = room w → teamId v = teamId w → touches v r' → touches w r'.
Proof.
  intros Hr Hi [Hst Hcase]. split; [by rewrite <- Hr|].
  rewrite <- Hr, <- (myMatchEntry_same w v) by done. done.
Qed.

Lemma callSession_touches w idxs w' :
  stealModalOpen w = false → callSession w idxs = Some w' → touches w (room w').
Proof.
  intros Hclosed H. unfold callSession in H.
  destruct (handleCall w) as [v1|] eqn:H1; [|done]. simpl in H.
  destruct (stealClicks v1 idxs) as [v2|] eqn:H2; [|done]. simpl in H.
  destruct (clickStealConfirm v2) as [v3|] eqn:H3; [|done]. simpl in H.
  injection H as <-.
  apply stealClicks_room in H2 as (Hr2 & Hi2 & Ho2).
  assert (Hrc : room (clickStealCancel v3) = room v3).
  { unfold clickStealCancel. by destruct (stealModalOpen v3). }
  rewrite Hrc.
  (* the call itself *)
  assert (Hcall : (touches w (room v1) ∧ stealModalOpen v1 = false) ∨
                  (room v1 = room w ∧ teamId v1 = teamId w)).
  { unfold handleCall in H1.
    destruct (isMyTurn w) eqn:Hturn; simpl in H1;
      [|injection H1 as <-; left; split; [apply touches_refl|done]].
    destruct (myMatchEntry w) as [[i mi]|] eqn:Hm.
    2:{ unfold myMatch in H1. by rewrite Hm in H1. }
    destruct (entry_sides _ _ _ Hm) as [Hside _].
    rewrite (myMatch_entry _ _ _ Hm) in H1. simpl in H1.
    destruct (team w) as [t|] eqn:Ht; simpl in H1; [|done].
    apply find_team_id in Ht.
    along H1.
    - left. split; [|by rewrite (updateTeamsAndMatch_modal _ _ _ _ H1)].
      apply (touches_update w _ _ v1 i mi H1 Hm).
      intros j HjA HjB. apply find_team_replace_other; [done|].
      destruct Hside as [-> | ->]; done.
    - right. by injection H1 as <-. }
  unfold clickStealConfirm in H3.
  destruct Hcall as [[Ht1 Hc1]|[Hr1 Hi1]].
  - rewrite Ho2, Hc1 in H3. simpl in H3. injection H3 as <-. by rewrite Hr2.
  - destruct (stealModalOpen v2 && canConfirmSteal v2).
    2:{ injection H3 as <-. rewrite Hr2, Hr1. apply touches_refl. }
    apply (touches_same_view w v2); [congruence|congruence|].
    unfold confirmSteal in H3.
    destruct (myMatchEntry v2) as [[i mi]|] eqn:Hm.
    2:{ unfold myMatch in H3. by rewrite Hm in H3. }
    destruct (entry_sides _ _ _ Hm) as [Hside _].
    rewrite (myMatch_entry _ _ _ Hm) in H3. simpl in H3.
    destruct (team v2) as [t|] eqn:Ht; simpl in H3; [|done].
    apply find_team_id in Ht.
    along H3.
    match type of H3 with updateTeamsAndMatch ?u ?ts ?us = _ =>
      assert (Hm' : myMatchEntry u = Some (i, mi)) by exact Hm;
      pose proof (touches_update u ts us v3 i mi H3 Hm') as Hto end.
    apply Hto. intros j HjA HjB. simpl.
    apply find_team_replace_other; [done|]. destruct Hside as [-> | ->]; done.
Qed.

Lemma move_touches mv w w' :
  stealModalOpen w = false → move mv w = Some w' → touches w (room w').
Proof.
  intros Hclosed H. destruct mv; simpl in H.
  - by apply readyEffect_touches.
  - by apply handleFold_touches.
  - by eapply callSession_touches.
  - by apply handleShowdown_touches.
  - by apply clickConfirmResult_touches.
Qed.

(** A move in the view of team [A] of a sound room does not throw; it
    leaves the room as it is or moves the match on. *)
Lemma move_forward mv w idx A B flip m t1 t2 s1 s2 k1 k2 :
  Sound (room w) idx A B flip m t1 t2 s1 s2 k1 k2 → teamId w = A →
  stealModalOpen w = false →
  ∃ w', move mv w = Some w' ∧
    (room w' = room w ∨ Advanced (room w') idx A B flip k1 k2 m).
Proof.
  intros HS Hid Hclosed. destruct mv; simpl.
  - destruct (ready_forward _ _ _ _ _ _ _ _ _ _ _ _ HS Hid) as (w' & Hw & Hcase).
    exists w'. split; [done|]. case_decide; auto.
  - destruct (fold_forward _ _ _ _ _ _ _ _ _ _ _ _ HS Hid) as (w' & Hw & Hcase).
    exists w'. split; [done|]. case_decide; auto.
  - by apply (call_forward _ _ _ _ _ _ _ _ _ _ _ _ _ HS Hid).
  - destruct (showdown_forward _ _ _ _ _ _ _ _ _ _ _ _ HS Hid) as (w' & Hw & Hcase).
    exists w'. split; [done|]. case_decide; auto.
  - destruct (confirm_forward _ _ _ _ _ _ _ _ _ _ _ _ HS Hid) as (w' & Hw & Hcase).
    exists w'. split; [done|]. case_decide; auto.
Qed.

(** A move in the view of a team that is not of the match. *)
Lemma move_beside mv w w' idx A B flip m t1 t2 s1 s2 k1 k2 :
  Sound (room w) idx A B flip m t1 t2 s1 s2 k1 k2 →
  teamId w ≠ A → teamId w ≠ B → stealModalOpen w = false →
  move mv w = Some w' →
  Sound (room w') idx A B flip m t1 t2 s1 s2 k1 k2.
Proof.
  intros HS HnA HnB Hclosed Hmv.
  destruct (move_touches mv w w' Hclosed Hmv)
    as [Hst' [->|(i & mi & mi' & Hm & Hms & HA & HB & Hts)]]; [done|].
  pose proof HS as HS'. open_sound HS'.
  pose proof Hm as (Hl & Hside & _)%list_find_Some.
  assert (Hne : i ≠ idx).
  { intros ->. rewrite Hmt in Hl. injection Hl as <-.
    destruct flip, Hsd as [HsA HsB], Hside as [Hs|Hs]; congruence. }
  destruct (Hon i mi Hl Hne) as (HaA & HaB & HbA & HbB).
  constructor; try done.
  - congruence.
  - by rewrite Hms, list_lookup_insert_ne.
  - intros i' m' Hi' Hne'. rewrite Hms in Hi'.
    destruct (decide (i' = i)) as [->|Hii].
    + rewrite list_lookup_insert_eq in Hi' by (by eapply lookup_lt_Some).
      injection Hi' as <-. by rewrite HA, HB.
    + rewrite list_lookup_insert_ne in Hi' by done. by eapply Hon.
  - rewrite Hts; [done|congruence..].
  - rewrite Hts; [done|congruence..].
Qed.

(** A step of a sound room leaves the match as it is or moves it on. *)
Lemma step_advances r r' idx A B flip m t1 t2 s1 s2 k1 k2 :
  step r r' → Sound r idx A B flip m t1 t2 s1 s2 k1 k2 →
  ∃ m' t1' t2' s1' s2',
    Sound r' idx A B flip m' t1' t2' s1' s2' k1 k2 ∧
    (m' = m ∨ progress m < progress m').
Proof.
  intros [w mv w' <- Hclosed Hmv] HS.
  destruct (decide (teamId w = A)) as [HA|HnA].
  { destruct (move_forward mv _ _ _ _ _ _ _ _ _ _ _ _ HS HA Hclosed)
      as (w'' & Hw & [Hr|Hadv]); rewrite Hmv in Hw; injection Hw as <-.
    - rewrite Hr. exists m, t1, t2, s1, s2. split; [done|by left].
    - destruct Hadv as (m' & u1 & u2 & z1 & z2 & HS' & Hlt).
      exists m', u1, u2, z1, z2. split; [done|by right]. }
  destruct (decide (teamId w = B)) as [HB|HnB].
  { pose proof (Sound_swap _ _ _ _ _ _ _ _ _ _ _ _ HS) as HS'.
    destruct (move_forward mv _ _ _ _ _ _ _ _ _ _ _ _ HS' HB Hclosed)
      as (w'' & Hw & [Hr|Hadv]); rewrite Hmv in Hw; injection Hw as <-.
    - rewrite Hr. exists m, t1, t2, s1, s2. split; [done|by left].
    - apply Advanced_swap in Hadv as (m' & u1 & u2 & z1 & z2 & HS1 & Hlt).
      exists m', u1, u2, z1, z2. split; [done|by right]. }
  exists m, t1, t2, s1, s2. split; [by eapply move_beside|by left].
Qed.

Lemma step_Sound r r' idx A B flip k1 k2 :
  step r r' → SoundRoom r idx A B flip k1 k2 → SoundRoom r' idx A B flip k1 k2.
Proof.
  intros Hstep (m & t1 & t2 & s1 & s2 & HS).
  destruct (step_advances _ _ _ _ _ _ _ _ _ _ _ _ _ Hstep HS)
    as (m' & u1 & u2 & z1 & z2 & HS' & _).
  by exists m', u1, u2, z1, z2.
Qed.

Lemma reach_Sound r0 r idx A B flip k1 k2 :
  rtc step r0 r → SoundRoom r0 idx A B flip k1 k2 → SoundRoom r idx A B flip k1 k2.
Proof.
  induction 1 as [r|r r1 r2 Hstep _ IH]; [done|].
  intros HS. apply IH. by eapply step_Sound.
Qed.

(** The room of a match that has been played from its start. *)
Lemma played_Sound r0 r idx m0 tA0 tB0 sA0 sB0 :
  Kickoff r0 idx m0 tA0 tB0 sA0 sB0 → rtc step r0 r →
  ∃ m tA tB sA sB,
    Sound r idx (teamAId m0) (teamBId m0) false m tA tB sA sB (plan sA0) (plan sB0).
Proof.
  intros Hk Hreach.
  apply (reach_Sound r0 r); [done|].
  exists m0, tA0, tB0, sA0, sB0. by apply Kickoff_Sound.
Qed.

(** What a sound room says of the match, the teams and the entries of the
    current round that are read from the room. *)
Lemma Sound_read r idx A B m t1 t2 s1 s2 k1 k2 m' tA tB a b :
  Sound r idx A B false m t1 t2 s1 s2 k1 k2 →
  matches r !! idx = Some m' →
  find_team (teams r) (teamAId m') = Some tA →
  find_team (teams r) (teamBId m') = Some tB →
  strat_at tA (currentRound m' - 1) = Some a →
  strat_at tB (currentRound m' - 1) = Some b →
  m' = m ∧ tA = t1 ∧ tB = t2 ∧
  at_index s1 (currentRound m - 1) = Some a ∧
  at_index s2 (currentRound m - 1) = Some b.
Proof.
  intros HS Hm' HA HB Ha Hb. open_sound HS.
  rewrite Hmt in Hm'. injection Hm' as <-.
  destruct Hsd as [HsA HsB]. rewrite HsA in HA. rewrite HsB in HB.
  rewrite H1 in HA. rewrite H2 in HB. injection HA as <-. injection HB as <-.
  unfold strat_at in Ha, Hb. rewrite Hs1 in Ha. rewrite Hs2 in Hb. done.
Qed.

Lemma freshGame_Kickoff :
  Kickoff freshGame 0 (exMatch 1 READY None 0 ∅)
    (exTeam "A" 0%Qc [(0,3);(1,3);(2,3);(3,3);(4,3);(5,3);(6,3);(7,3);(8,3);(9,3)])
    (exTeam "B" 0%Qc [(9,3);(8,3);(7,3);(6,3);(4,6);(5,3);(3,3);(2,3);(1,2);(0,1)])
    (mkStrategy [(0,3);(1,3);(2,3);(3,3);(4,3);(5,3);(6,3);(7,3);(8,3);(9,3)])
    (mkStrategy [(9,3);(8,3);(7,3);(6,3);(4,6);(5,3);(3,3);(2,3);(1,2);(0,1)]).
Proof.
  constructor;
    [reflexivity|reflexivity|repeat split; reflexivity|done|discriminate| |
     reflexivity|reflexivity|reflexivity|reflexivity|reflexivity|reflexivity|
     by apply (bool_decide_unpack _)|by apply (bool_decide_unpack _)|done|done].
  intros [|i] m' Hm' Hi; [done|]. destruct i; done.
Defined.

Lemma drawGame_Kickoff :
  Kickoff drawGame 0 (exMatch 1 READY None 0 ∅) (drawTeam "A") (drawTeam "B")
    (mkStrategy [(0,3);(1,3);(2,3);(3,3);(4,3);(5,3);(6,3);(7,3);(8,3);(9,3)])
    (mkStrategy [(0,3);(1,3);(2,3);(3,3);(4,3);(5,3);(6,3);(7,3);(8,3);(9,3)]).
Proof.
  constructor;
    [reflexivity|reflexivity|repeat split; reflexivity|done|discriminate| |
     reflexivity|reflexivity|reflexivity|reflexivity|reflexivity|reflexivity|
     by apply (bool_decide_unpack _)|by apply (bool_decide_unpack _)|done|done].
  intros [|i] m' Hm' Hi; [done|]. destruct i; done.
Defined.

(** C4: on a showdown draw in the final round the pot is split evenly.  In
    every room a match has come to by moves of the teams from its start, a
    match in SHOWDOWN has the same chips of both teams on the round; when
    the cards of round 10 are equal, the showdown adds half of the pot
    (chipsA + chipsB + carryOver) to the winnings of each team, records
    DRAW with potWon = 0 and moves to RESULT.  The half is not rounded: an
    odd pot turns integer winnings into winnings that are no integer. *)
Theorem C4_final_draw_splits_pot r0 idx m0 tA0 tB0 sA0 sB0 v m tA tB sA sB :
  Kickoff r0 idx m0 tA0 tB0 sA0 sB0 → rtc step r0 (room v) →
  Seats v idx m tA tB sA sB →
  roundStatus m = SHOWDOWN →
  currentRound m = TOTAL_ROUNDS →
  card sA = card sB →
  chips sA = chips sB ∧
  ∃ v' m' tA' tB' res,
    handleShowdown v = Some v' ∧
    myMatch v' = Some m' ∧
    find_team (teams (room v')) (teamAId m) = Some tA' ∧
    find_team (teams (room v')) (teamBId m) = Some tB' ∧
    winnings tA' = (winnings tA + Qc_of_Z (chips sA + chips sB + carryOver m) / 2)%Qc ∧
    winnings tB' = (winnings tB + Qc_of_Z (chips sA + chips sB + carryOver m) / 2)%Qc ∧
    lastRoundResult m' = Some res ∧
    result res = DRAW ∧ potWon res = 0 ∧
    roundStatus m' = RESULT ∧
    (Z.odd (chips sA + chips sB + carryOver m) = true →
     ∀ wA wB, winnings tA = Qc_of_Z wA → winnings tB = Qc_of_Z wB →
     ∀ z, winnings tA' ≠ Qc_of_Z z ∧ winnings tB' ≠ Qc_of_Z z).
Proof.
  intros Hk Hreach HSeats Hrs Hfin Hcard.
  destruct (played_Sound _ _ _ _ _ _ _ _ Hk Hreach) as (m1 & t1 & t2 & s1 & s2 & HS).
  pose proof HSeats as [Hm HA HB Hd HsA HsB].
  pose proof Hm as (Hl & _)%list_find_Some.
  destruct (Sound_read _ _ _ _ _ _ _ _ _ _ _ _ _ _ _ _ HS Hl HA HB HsA HsB)
    as (-> & -> & -> & Ha & Hb).
  assert (Heq : chips sA = chips sB).
  { pose proof (so_stakes _ _ _ _ _ _ _ _ _ _ _ _ HS) as Hst.
    unfold stakes in Hst. rewrite Hrs in Hst.
    destruct Hst as (a & b & Ha' & Hb' & Heq). congruence. }
  split; [done|].
  destruct (final_draw_shares v idx m1 t1 t2 sA sB HSeats Hrs Hfin Hcard)
    as (v' & m' & tA' & tB' & res & Hv & Hm' & HA' & HB' & HwA & HwB & Hhalf & Hlr
        & Hres & Hpw & Hrs' & Hodd).
  exists v', m', tA', tB', res.
  split_and!; try done; try (by apply Hhalf).
  intros Ho. apply Hodd.
  rewrite Heq in Ho. replace (chips sB + chips sB + carryOver m1)
    with (carryOver m1 + 2 * chips sB) in Ho by lia.
  by rewrite Z.odd_add_mul_2 in Ho.
Qed.

Lemma finalDrawGame_Seats :
  Seats (viewOf finalDrawGame "A") 0 finalDrawMatch (drawTeam "A") (drawTeam "B")
    (mkRoundStrategy 10 9 3) (mkRoundStrategy 10 9 3).
Proof.
  split; [vm_compute; reflexivity..|vm_compute; discriminate|
          vm_compute; reflexivity|vm_compute; reflexivity].
Defined.

Lemma C4_final_draw_splits_pot_witness :
  3 = 3 ∧
  ∃ v' m' tA' tB' res,
    handleShowdown (viewOf finalDrawGame "A") = Some v' ∧
    myMatch v' = Some m' ∧
    find_team (teams (room v')) (teamAId finalDrawMatch) = Some tA' ∧
    find_team (teams (room v')) (teamBId finalDrawMatch) = Some tB' ∧
    winnings tA' = (0 + Qc_of_Z (3 + 3 + carryOver finalDrawMatch) / 2)%Qc ∧
    winnings tB' = (0 + Qc_of_Z (3 + 3 + carryOver finalDrawMatch) / 2)%Qc ∧
    lastRoundResult m' = Some res ∧
    result res = DRAW ∧ potWon res = 0 ∧
    roundStatus m' = RESULT ∧
    (Z.odd (3 + 3 + carryOver finalDrawMatch) = true →
     ∀ wA wB, 0%Qc = Qc_of_Z wA → 0%Qc = Qc_of_Z wB →
     ∀ z, winnings tA' ≠ Qc_of_Z z ∧ winnings tB' ≠ Qc_of_Z z).
Proof.
  apply (C4_final_draw_splits_pot drawGame 0 _ _ _ _ _ (viewOf finalDrawGame "A")
           finalDrawMatch (drawTeam "A") (drawTeam "B")
           (mkRoundStrategy 10 9 3) (mkRoundStrategy 10 9 3) drawGame_Kickoff).
  - apply (play_reach toFinalDraw). vm_compute. reflexivity.
  - exact finalDrawGame_Seats.
  - vm_compute. reflexivity.
  - vm_compute. reflexivity.
  - reflexivity.
Defined.

Example finalDrawGame_split :
  carryOver finalDrawMatch = 54 ∧ currentRound finalDrawMatch = 10 ∧
  ∃ v' tA' tB',
    handleShowdown (viewOf finalDrawGame "A") = Some v' ∧
    find_team (teams (room v')) "A" = Some tA' ∧
    find_team (teams (room v')) "B" = Some tB' ∧
    winnings tA' = Qc_of_Z 30 ∧ winnings tB' = Qc_of_Z 30.
Proof.
  split; [vm_compute; reflexivity|]. split; [vm_compute; reflexivity|].
  eexists _, _, _. split; [vm_compute; reflexivity|].
  split; [vm_compute; reflexivity|]. split; [vm_compute; reflexivity|].
  split; apply Qc_is_canon; vm_compute; reflexivity.
Qed.

(** With team [A] on the A seat, one of the two teams can move a match
    that is not finished on. *)
Lemma progress_step r idx A B m t1 t2 s1 s2 k1 k2 :
  Sound r idx A B false m t1 t2 s1 s2 k1 k2 → roundStatus m ≠ FINISHED →
  ∃ who mv w', (who = A ∨ who = B) ∧ move mv (viewOf r who) = Some w' ∧
    Advanced (room w') idx A B false k1 k2 m.
Proof.
  intros HS Hnf.
  pose proof (Sound_swap _ _ _ _ _ _ _ _ _ _ _ _ HS) as HS'. simpl in HS'.
  pose proof HS as HS0. open_sound HS0. destruct Hsd as [HsA HsB].
  unfold stakes in Hst.
  destruct (roundStatus m) eqn:Hrs; [| | | |done].
  - destruct (ready_forward (viewOf r A) idx A B false m t1 t2 s1 s2 k1 k2 HS eq_refl)
      as (w' & Hw & Hcase).
    rewrite decide_True in Hcase by done. exists A, MReady, w'. by split; [left|].
  - destruct Hst as (a & b & _ & _ & [[_ Hown]|[_ Hown]]).
    + destruct (fold_forward (viewOf r A) idx A B false m t1 t2 s1 s2 k1 k2 HS eq_refl)
        as (w' & Hw & Hcase).
      rewrite decide_True in Hcase by done. exists A, MFold, w'. by split; [left|].
    + destruct (fold_forward (viewOf r B) idx B A true m t2 t1 s2 s1 k2 k1 HS' eq_refl)
        as (w' & Hw & Hcase).
      rewrite decide_True in Hcase by done.
      exists B, MFold, w'. split; [by right|]. split; [done|]. by apply Advanced_swap.
  - destruct (showdown_forward (viewOf r A) idx A B false m t1 t2 s1 s2 k1 k2 HS eq_refl)
      as (w' & Hw & Hcase).
    rewrite decide_True in Hcase by done. exists A, MShowdown, w'. by split; [left|].
  - destruct Hst as [_ Hnb]. rewrite HsA, HsB in Hnb.
    destruct (truthy (resultConfirmed m) A) eqn:HcA.
    + simpl in Hnb.
      destruct (confirm_forward (viewOf r B) idx B A true m t2 t1 s2 s1 k2 k1 HS' eq_refl)
        as (w' & Hw & Hcase).
      rewrite decide_True in Hcase by done.
      exists B, MConfirm, w'. split; [by right|]. split; [done|]. by apply Advanced_swap.
    + destruct (confirm_forward (viewOf r A) idx A B false m t1 t2 s1 s2 k1 k2 HS eq_refl)
        as (w' & Hw & Hcase).
      rewrite decide_True in Hcase by done. exists A, MConfirm, w'. by split; [left|].
Qed.

Lemma progress_bounds m : Booked m → 5 ≤ progress m ≤ 55.
Proof.
  intros [Hr _ _ _ _ _ _]. unfold progress, TOTAL_ROUNDS in *.
  pose proof (confirmations_bounds m). destruct (roundStatus m); lia.
Qed.

Lemma progress_open r idx A B flip m t1 t2 s1 s2 k1 k2 :
  Sound r idx A B flip m t1 t2 s1 s2 k1 k2 → roundStatus m ≠ FINISHED →
  progress m ≤ 54.
Proof.
  intros HS Hnf. open_sound HS. destruct Hbk as [Hr _ _ _ _ _ _].
  unfold stakes in Hst. unfold progress, confirmations, TOTAL_ROUNDS in *.
  destruct (roundStatus m); try done; try lia.
  destruct Hst as [_ Hnb].
  destruct (truthy _ (teamAId m)), (truthy _ (teamBId m)); simpl in Hnb; try done; lia.
Qed.

Lemma finish_from idx A B k1 k2 (n : nat) : ∀ r m t1 t2 s1 s2,
  Sound r idx A B false m t1 t2 s1 s2 k1 k2 →
  55 - progress m ≤ Z.of_nat n →
  ∃ mvs r' m',
    Forall (λ p : string * Move, p.1 = A ∨ p.1 = B) mvs ∧ (length mvs ≤ n)%nat ∧
    play r mvs = Some r' ∧ matches r' !! idx = Some m' ∧ roundStatus m' = FINISHED.
Proof.
  induction n as [|n IH]; intros r m t1 t2 s1 s2 HS Hn;
    (destruct (decide (roundStatus m = FINISHED)) as [Hf|Hnf];
     [exists [], r, m; split_and!; [done|simpl; lia|done|by destruct HS|done]|]);
    pose proof (progress_open _ _ _ _ _ _ _ _ _ _ _ _ HS Hnf) as Hopen; [lia|].
  destruct (progress_step _ _ _ _ _ _ _ _ _ _ _ HS Hnf)
    as (who & mv & w' & Hwho & Hmv & m1 & u1 & u2 & z1 & z2 & HS1 & Hlt).
  destruct (IH (room w') m1 u1 u2 z1 z2 HS1 ltac:(lia))
    as (mvs & r' & m' & Hall & Hlen & Hplay & Hm' & Hfin).
  exists ((who, mv) :: mvs), r', m'. split_and!; try done.
  - by constructor.
  - simpl. lia.
  - simpl. by rewrite Hmv.
Qed.





(** X22: no move throws in play.  In every room a match has come to by
    moves of the teams from its start, every move made from a view of one
    of its two teams with the steal modal closed returns: the READY
    effect, fold, call with any clicks in the steal modal, showdown and
    the confirmation of a result read no strategy entry, team or match
    that is not there. *)
Theorem moves_never_throw r0 idx m0 tA0 tB0 sA0 sB0 w mv :
  Kickoff r0 idx m0 tA0 tB0 sA0 sB0 → rtc step r0 (room w) →
  teamId w = teamAId m0 ∨ teamId w = teamBId m0 →
  stealModalOpen w = false →
  is_Some (move mv w).
Proof.
  intros Hk Hreach Hside Hclosed.
  destruct (played_Sound _ _ _ _ _ _ _ _ Hk Hreach) as (m & t1 & t2 & s1 & s2 & HS).
  destruct Hside as [HA|HB].
  - destruct (move_forward mv _ _ _ _ _ _ _ _ _ _ _ _ HS HA Hclosed) as (w' & -> & _).
    by eexists.
  - apply Sound_swap in HS.
    destruct (move_forward mv _ _ _ _ _ _ _ _ _ _ _ _ HS HB Hclosed) as (w' & -> & _).
    by eexists.
Qed.

Lemma moves_never_throw_witness :
  is_Some (move (MCall [9%nat; 9%nat; 8%nat]) (viewOf decisionGame "A")).
Proof.
  apply (moves_never_throw freshGame 0 _ _ _ _ _ (viewOf decisionGame "A")
           (MCall [9%nat; 9%nat; 8%nat]) freshGame_Kickoff).
  - apply (play_reach toDecision). vm_compute. reflexivity.
  - left. reflexivity.
  - reflexivity.
Defined.

(** X23: a match can always be played to its end.  From every room a
    match has come to by moves of the teams from its start, at most fifty
    further moves of its two teams, each made from the view the team's
    device renders, finish the match: no state of a round leaves both
    teams without a move that takes the match on. *)
Theorem game_can_finish r0 idx m0 tA0 tB0 sA0 sB0 r :
  Kickoff r0 idx m0 tA0 tB0 sA0 sB0 → rtc step r0 r →
  ∃ mvs r' m',
    Forall (λ p : string * Move, p.1 = teamAId m0 ∨ p.1 = teamBId m0) mvs ∧
    (length mvs ≤ 50)%nat ∧
    play r mvs = Some r' ∧
    matches r' !! idx = Some m' ∧ roundStatus m' = FINISHED.
Proof.
  intros Hk Hreach.
  destruct (played_Sound _ _ _ _ _ _ _ _ Hk Hreach) as (m & t1 & t2 & s1 & s2 & HS).
  pose proof (progress_bounds m (so_booked _ _ _ _ _ _ _ _ _ _ _ _ HS)) as Hb.
  destruct (finish_from idx _ _ _ _ (Z.to_nat (55 - progress m)) r m t1 t2 s1 s2 HS)
    as (mvs & r' & m' & Hall & Hlen & Hplay & Hm' & Hfin); [lia|].
  exists mvs, r', m'. split_and!; try done. lia.
Qed.

Lemma game_can_finish_witness :
  ∃ mvs r' m',
    Forall (λ p : string * Move, p.1 = "A" ∨ p.1 = "B") mvs ∧
    (length mvs ≤ 50)%nat ∧
    play decisionGame mvs = Some r' ∧
    matches r' !! 0%nat = Some m' ∧ roundStatus m' = FINISHED.
Proof.
  apply (game_can_finish freshGame 0 _ _ _ _ _ decisionGame freshGame_Kickoff).
  apply (play_reach toDecision). vm_compute. reflexivity.
Defined.



Example folded_advances :
  progress decisionMatch = 26 ∧ progress foldedMatch = 28 ∧
  roundStatus foldedMatch = RESULT.
Proof. split_and!; vm_compute; reflexivity. Qed.
